(** * Curve mathematics of curve-visualizer-studio

    Shallow embedding of the Hermite, Bezier, B-spline and matrix utilities
    (the [utils] modules of the repository) and proofs about them.

    Numbers.  The TypeScript code computes with IEEE doubles.  Here a finite
    number is an exact rational ([Qc], canonical fractions, Leibniz
    equality), so every statement below is about exact arithmetic.  The
    values JavaScript produces when arithmetic leaves the finite numbers
    ([undefined] read past the end of an array, [NaN], [+Infinity],
    [-Infinity]) are one extra element, [None] of [jsnum]: in the code
    modelled here such a value is only ever added, subtracted, multiplied
    or divided by a finite number, which keeps it non-finite, or compared,
    which answers [false]; and no divisor is ever an infinity, a divisor
    being a difference of knots or of parameters.

    Rounding and [NaN].  An identity proved over the rationals holds of the
    running code up to rounding only, and a list of rationals cannot hold a
    [NaN].  Where that matters (the agreement of the two Bezier
    evaluations, the two Hermite round trips, the integrality of
    [binomial], what [validateKnots] accepts) the functions are given a
    second time in the module [Binary64], over IEEE doubles, and the
    statements say which of the two arithmetics they are about. *)

From Stdlib Require Import ZArith QArith Qcanon List Lia Bool Field Floats.
Import ListNotations.
Open Scope Qc_scope.

(* ================================================================= *)
(** * Numbers *)

(** An integer used as a number. *)
Definition inZ (z : Z) : Qc := Q2Qc (inject_Z z).

Definition inN (n : nat) : Qc := inZ (Z.of_nat n).

Definition Qc_eqb (a b : Qc) : bool := Qeq_bool a b.
Definition Qc_leb (a b : Qc) : bool := Qle_bool a b.
Definition Qc_ltb (a b : Qc) : bool := Qle_bool a b && negb (Qeq_bool a b).

(** A JavaScript number: [Some q] is the finite number [q]; [None] stands
    for [undefined], [NaN] and the two infinities. *)
Definition jsnum : Type := option Qc.

Definition Fin (q : Qc) : jsnum := Some q.

Definition jlift2 (f : Qc -> Qc -> Qc) (a b : jsnum) : jsnum :=
  match a, b with
  | Some p, Some q => Some (f p q)
  | _, _ => None
  end.

Definition jadd : jsnum -> jsnum -> jsnum := jlift2 Qcplus.
Definition jsub : jsnum -> jsnum -> jsnum := jlift2 Qcminus.
Definition jmul : jsnum -> jsnum -> jsnum := jlift2 Qcmult.

(** The value of [a / b]: a zero divisor gives an infinity or [NaN]. *)
Definition jquot (a b : jsnum) : jsnum :=
  match a, b with
  | Some p, Some q => if Qc_eqb q 0 then None else Some (p / q)
  | _, _ => None
  end.

(** [a <= b], [a < b], [a === b] and [a !== 0]: a comparison with a
    non-finite operand is false, so [!==] is true. *)
Definition jle (a b : jsnum) : bool :=
  match a, b with Some p, Some q => Qc_leb p q | _, _ => false end.
Definition jlt (a b : jsnum) : bool :=
  match a, b with Some p, Some q => Qc_ltb p q | _, _ => false end.
Definition jeq (a b : jsnum) : bool :=
  match a, b with Some p, Some q => Qc_eqb p q | _, _ => false end.
Definition jnonzero (a : jsnum) : bool := negb (jeq a (Fin 0)).

(** [Math.pow(b, e)] for the integer exponents the code passes; they are
    never negative where it is called. *)
Definition Math_pow (b : Qc) (e : Z) : Qc := Qcpower b (Z.to_nat e).

(** ** Arrays *)

(** [a[i]] on an array of numbers: [undefined] outside [0 .. length-1]. *)
Definition get (a : list Qc) (i : Z) : jsnum :=
  if (i <? 0)%Z then None else nth_error a (Z.to_nat i).

(** [for (let i = lo; i < hi; i++) out.push(f(i))] started on an empty
    array. *)
Definition pushLoop {A : Type} (lo hi : nat) (f : nat -> A) : list A :=
  fold_left (fun out i => out ++ [f i]) (seq lo (hi - lo)) [].

(** [a.slice(start, end)], negative positions counting from the end. *)
Definition slice {A : Type} (start end_ : Z) (a : list A) : list A :=
  let len := Z.of_nat (length a) in
  let s := if (start <? 0)%Z then Z.max (len + start) 0 else Z.min start len in
  let e := if (end_ <? 0)%Z then Z.max (len + end_) 0 else Z.min end_ len in
  firstn (Z.to_nat (e - s)) (skipn (Z.to_nat s) a).

(* ================================================================= *)
(** * Types (types/index.ts) *)

(** A point; [N] is [Qc] for finite coordinates and [jsnum] where the code
    can produce non-finite ones. *)
Record Pt (N : Type) : Type := mkPt { x : N; y : N }.
Arguments mkPt {N} _ _.
Arguments x {N} _.
Arguments y {N} _.

Notation "'Point'" := (Pt Qc) (at level 0).

Notation "'Matrix'" := (list (list Qc)) (at level 0).

Record CubicPolynomial : Type := mkCubic { a : Qc; b : Qc; c : Qc; d : Qc }.

Record HermiteForm : Type := mkHermite { P0 : Point; P1 : Point; T0 : Point; T1 : Point }.

Record TrimRange : Type := mkTrim { u1 : Qc; u2 : Qc }.

Notation "'KnotVector'" := (list Qc) (at level 0).

(* ================================================================= *)
(** * Thrown errors *)

Inductive error : Type :=
| DimensionMismatch (rows cols len : nat)
    (* "Cannot multiply RxC matrix with vector of length L" *)
| NotImplemented (n : Z)
    (* "Bezier to power basis matrix not implemented for degree n" *)
| TypeError.
    (* a property read on [undefined] *)

Inductive result (A : Type) : Type :=
| Ok (v : A)
| Throw (e : error).
Arguments Ok {A} _.
Arguments Throw {A} _.

Definition rbind {A B : Type} (m : result A) (f : A -> result B) : result B :=
  match m with
  | Ok v => f v
  | Throw e => Throw e
  end.

Notation "'do' v <- m ; k" := (rbind m (fun v => k))
  (at level 10, v name, m at level 100, k at level 200).

(* ================================================================= *)
(** * Matrices (utils/matrices.ts) *)

(** [multiplyVector(A, v)].  Rows of a [Matrix] have equal length, so the
    entry [A[i][j]] with [j < cols] exists. *)
Definition multiplyVector (A : Matrix) (v : list Qc) : result (list Qc) :=
  match A with
  | [] => Throw TypeError
  | row0 :: _ =>
      let rows := length A in
      let cols := length row0 in
      if negb (cols =? length v)%nat then Throw (DimensionMismatch rows cols (length v))
      else Ok (pushLoop 0 rows (fun i =>
                 fold_left (fun acc j => acc + nth j (nth i A []) 0 * nth j v 0)
                           (seq 0 cols) 0))
  end.

Definition hermiteMatrix : Matrix :=
  [ [inZ 2; inZ (-2); inZ 1; inZ 1];
    [inZ (-3); inZ 3; inZ (-2); inZ (-1)];
    [inZ 0; inZ 0; inZ 1; inZ 0];
    [inZ 1; inZ 0; inZ 0; inZ 0] ].

Definition bezierToPowerMatrix (n : Z) : result Matrix :=
  if (n =? 2)%Z then
    Ok [ [inZ 1; inZ (-2); inZ 1];
         [inZ (-2); inZ 2; inZ 0];
         [inZ 1; inZ 0; inZ 0] ]
  else if (n =? 3)%Z then
    Ok [ [inZ (-1); inZ 3; inZ (-3); inZ 1];
         [inZ 3; inZ (-6); inZ 3; inZ 0];
         [inZ (-3); inZ 3; inZ 0; inZ 0];
         [inZ 1; inZ 0; inZ 0; inZ 0] ]
  else Throw (NotImplemented n).

(* ================================================================= *)
(** * Hermite curves (utils/hermite.ts) *)

Definition h0 (u : Qc) : Qc := inZ 2 * Math_pow u 3 - inZ 3 * Math_pow u 2 + inZ 1.
Definition h1 (u : Qc) : Qc := inZ (-2) * Math_pow u 3 + inZ 3 * Math_pow u 2.
Definition h2 (u : Qc) : Qc := Math_pow u 3 - inZ 2 * Math_pow u 2 + u.
Definition h3 (u : Qc) : Qc := Math_pow u 3 - Math_pow u 2.

Definition evaluateHermite (form : HermiteForm) (u : Qc) : Point :=
  let h0u := h0 u in
  let h1u := h1 u in
  let h2u := h2 u in
  let h3u := h3 u in
  mkPt (h0u * x (P0 form) + h1u * x (P1 form) + h2u * x (T0 form) + h3u * x (T1 form))
       (h0u * y (P0 form) + h1u * y (P1 form) + h2u * y (T0 form) + h3u * y (T1 form)).

(** [cx[j]] on a computed coefficient array. *)
Definition coef (cs : list Qc) (j : nat) : Qc := nth j cs 0.

Definition hermiteToPolynomial (form : HermiteForm)
  : result (CubicPolynomial * CubicPolynomial) :=
  let H := hermiteMatrix in
  let gx := [x (P0 form); x (P1 form); x (T0 form); x (T1 form)] in
  do cx <- multiplyVector H gx;
  let gy := [y (P0 form); y (P1 form); y (T0 form); y (T1 form)] in
  do cy <- multiplyVector H gy;
  Ok (mkCubic (coef cx 0) (coef cx 1) (coef cx 2) (coef cx 3),
      mkCubic (coef cy 0) (coef cy 1) (coef cy 2) (coef cy 3)).

Definition polynomialToHermite (polyX polyY : CubicPolynomial) : HermiteForm :=
  let ax := a polyX in let bx := b polyX in let cx := c polyX in let dx := d polyX in
  let ay := a polyY in let by_ := b polyY in let cy := c polyY in let dy := d polyY in
  let P0 := mkPt dx dy in
  let P1 := mkPt (ax + bx + cx + dx) (ay + by_ + cy + dy) in
  let T0 := mkPt cx cy in
  let T1 := mkPt (inZ 3 * ax + inZ 2 * bx + cx) (inZ 3 * ay + inZ 2 * by_ + cy) in
  mkHermite P0 P1 T0 T1.

(* ================================================================= *)
(** * Bezier curves (utils/bezier.ts) *)

(** [points[i]] on an array of points.  Every index the code uses on a
    point array lies inside the bounds of the loop that produces it, so the
    default is never returned there. *)
Definition pointAt {N : Type} (dflt : N) (points : list (Pt N)) (i : nat) : Pt N :=
  nth i points (mkPt dflt dflt).

Definition binomial (n k : Z) : Qc :=
  if ((k <? 0) || (k >? n))%Z then 0
  else if ((k =? 0) || (k =? n))%Z then 1
  else
    fold_left (fun result i => result * (inZ (n + 1 - Z.of_nat i) / inZ (Z.of_nat i)))
              (seq 1 (Z.to_nat k)) 1.

Definition bernstein (i n : Z) (u : Qc) : Qc :=
  if ((i <? 0) || (i >? n))%Z then 0
  else
    let binCoeff := binomial n i in
    binCoeff * Math_pow (1 - u) (n - i) * Math_pow u i.

(** One level of linear interpolation: the loop
    [for (j = 0; j < pts.length - 1; j++) out.push(lerp(pts[j], pts[j+1]))]
    that [deCasteljau] and [getTrimmedControlPoints] both contain. *)
Definition lerpLevel (t : Qc) (pts : list Point) : list Point :=
  pushLoop 0 (Z.to_nat (Z.of_nat (length pts) - 1)) (fun j =>
    mkPt ((1 - t) * x (pointAt 0 pts j) + t * x (pointAt 0 pts (j + 1)))
         ((1 - t) * y (pointAt 0 pts j) + t * y (pointAt 0 pts (j + 1)))).

(** [deCasteljau(points, u)].  The recursion is not structural, so the
    model counts calls: [fuel] bounds the depth of the call stack and
    [None] means the bound was reached before a value was returned. *)
Fixpoint deCasteljau (fuel : nat) (points : list Point) (u : Qc) : option Point :=
  match fuel with
  | O => None
  | S fuel' =>
      if (length points =? 1)%nat then Some (pointAt 0 points 0)
      else
        let newPoints := lerpLevel u points in
        deCasteljau fuel' newPoints u
  end.

Definition evaluateBezier (points : list Point) (u : Qc) : Point :=
  let n := (Z.of_nat (length points) - 1)%Z in
  let xy :=
    fold_left (fun (xy : Qc * Qc) i =>
                 let basis := bernstein (Z.of_nat i) n u in
                 (fst xy + x (pointAt 0 points i) * basis,
                  snd xy + y (pointAt 0 points i) * basis))
              (seq 0 (Z.to_nat (n + 1))) (0, 0) in
  mkPt (fst xy) (snd xy).

Definition getTrimmedControlPoints (points : list Point) (range : TrimRange)
  : list (Pt jsnum) :=
  let u1 := u1 range in
  let u2 := u2 range in
  let n := (Z.of_nat (length points) - 1)%Z in
  (* points at u1 *)
  let leftPoints :=
    fst (fold_left (fun (st : list Point * list Point) (_ : nat) =>
                      let leftPoints := fst st ++ [pointAt 0 (snd st) 0] in
                      let newTempPoints := lerpLevel u1 (snd st) in
                      (leftPoints, newTempPoints))
                   (seq 0 (Z.to_nat (n + 1))) ([], points)) in
  (* points at u2 *)
  let rightPoints :=
    fst (fold_left (fun (st : list Point * list Point) (_ : nat) =>
                      let newTempPoints := lerpLevel u2 (snd st) in
                      let rightPoints :=
                        pointAt 0 (snd st) (length (snd st) - 1) :: fst st in
                      (rightPoints, newTempPoints))
                   (seq 0 (Z.to_nat (n + 1))) ([], points)) in
  let alpha := jquot (Fin (u2 - u1)) (Fin (1 - u1)) in
  pushLoop 0 (Z.to_nat (n + 1)) (fun i =>
    mkPt (jadd (jmul (jsub (Fin 1) alpha) (Fin (x (pointAt 0 leftPoints i))))
               (jmul alpha (Fin (x (pointAt 0 rightPoints i)))))
         (jadd (jmul (jsub (Fin 1) alpha) (Fin (y (pointAt 0 leftPoints i))))
               (jmul alpha (Fin (y (pointAt 0 rightPoints i)))))).

Definition bezierToPolynomial (points : list Point) : result (list Qc * list Qc) :=
  let degree := (Z.of_nat (length points) - 1)%Z in
  do matrix <- bezierToPowerMatrix degree;
  let xCoords := map x points in
  let yCoords := map y points in
  do xs <- multiplyVector matrix xCoords;
  do ys <- multiplyVector matrix yCoords;
  Ok (xs, ys).

(** A control polygon all of whose coordinates are finite, read back as
    points over the rationals; [None] if some coordinate is not finite. *)
Fixpoint finitePoints (pts : list (Pt jsnum)) : option (list Point) :=
  match pts with
  | [] => Some []
  | p :: rest =>
      match x p, y p, finitePoints rest with
      | Some px, Some py, Some rest' => Some (mkPt px py :: rest')
      | _, _, _ => None
      end
  end.

(* ================================================================= *)
(** * B-splines (utils/bspline.ts) *)

(** The B-spline code divides by differences of knots.  To state which
    divisions a run performs, a computation returns its value together with
    the divisors it has divided by, in order.  The second component is
    bookkeeping only: no value depends on it. *)
Definition traced (A : Type) : Type := (A * list jsnum)%type.

Definition value {A : Type} (m : traced A) : A := fst m.
Definition divisors {A : Type} (m : traced A) : list jsnum := snd m.

Definition tret {A : Type} (v : A) : traced A := (v, []).

Definition tbind {A B : Type} (m : traced A) (f : A -> traced B) : traced B :=
  (value (f (value m)), divisors m ++ divisors (f (value m))).

Notation "'let*' v := m 'in' k" := (tbind m (fun v => k))
  (at level 10, v name, m at level 100, k at level 200).

(** [a / b], recorded. *)
Definition jdiv (a b : jsnum) : traced jsnum := (jquot a b, [b]).

(** [for (const i of idxs) s = body(i, s)]. *)
Fixpoint forEach {St : Type} (idxs : list nat) (body : nat -> St -> traced St) (s : St)
  : traced St :=
  match idxs with
  | [] => tret s
  | i :: rest => let* s' := body i s in forEach rest body s'
  end.

Definition forLoop {St : Type} (lo hi : nat) (body : nat -> St -> traced St) (s : St)
  : traced St :=
  forEach (seq lo (hi - lo)) body s.

Fixpoint coxDeBoor (i k : nat) (u : Qc) (knots : KnotVector) : traced jsnum :=
  let zi := Z.of_nat i in
  let zk := Z.of_nat k in
  match k with
  | O =>
      let len := Z.of_nat (length knots) in
      if (jle (get knots zi) (Fin u) && jlt (Fin u) (get knots (zi + 1)))
         || (jeq (Fin u) (get knots (len - 1)) && (zi =? len - zk - 2)%Z)
      then tret (Fin 1)
      else tret (Fin 0)
  | S k' =>
      let denom1 := jsub (get knots (zi + zk)) (get knots zi) in
      let* term1 :=
        if jnonzero denom1 then
          let* q := jdiv (jsub (Fin u) (get knots zi)) denom1 in
          let* r := coxDeBoor i k' u knots in
          tret (jmul q r)
        else tret (Fin 0) in
      let denom2 := jsub (get knots (zi + zk + 1)) (get knots (zi + 1)) in
      let* term2 :=
        if jnonzero denom2 then
          let* q := jdiv (jsub (get knots (zi + zk + 1)) (Fin u)) denom2 in
          let* r := coxDeBoor (i + 1) k' u knots in
          tret (jmul q r)
        else tret (Fin 0) in
      tret (jadd term1 term2)
  end%Z.

Definition evaluateBSpline (controlPoints : list (Pt jsnum)) (degree : nat) (u : Qc)
                           (knots : KnotVector) : traced (Pt jsnum) :=
  let* xy :=
    forLoop 0 (length controlPoints) (fun i (xy : jsnum * jsnum) =>
      let* basis := coxDeBoor i degree u knots in
      tret (jadd (fst xy) (jmul (x (pointAt None controlPoints i)) basis),
            jadd (snd xy) (jmul (y (pointAt None controlPoints i)) basis)))
      (Fin 0, Fin 0) in
  tret (mkPt (fst xy) (snd xy)).

Definition bsplineDerivative (controlPoints : list (Pt jsnum)) (degree : nat) (u : Qc)
                             (knots : KnotVector) : traced (Pt jsnum) :=
  let n := (Z.of_nat (length controlPoints) - 1)%Z in
  if (1 <=? degree)%nat then
    let* derivCtrlPts :=
      forLoop 0 (Z.to_nat n) (fun i (derivCtrlPts : list (Pt jsnum)) =>
        let zi := Z.of_nat i in
        let* factor :=
          jdiv (Fin (inN degree))
               (jsub (get knots (zi + Z.of_nat degree + 1)) (get knots (zi + 1))) in
        tret (derivCtrlPts ++
              [mkPt (jmul factor (jsub (x (pointAt None controlPoints (i + 1)))
                                       (x (pointAt None controlPoints i))))
                    (jmul factor (jsub (y (pointAt None controlPoints (i + 1)))
                                       (y (pointAt None controlPoints i))))]))
        [] in
    evaluateBSpline derivCtrlPts (degree - 1) u (slice 1 (-1) knots)
  else tret (mkPt (Fin 0) (Fin 0)).

(** [generateUniformKnots(n, k)].  The code also computes
    [numKnots = n + k + 1] and never uses it. *)
Definition generateUniformKnots (n k : nat) : KnotVector :=
  let knots : KnotVector := [] in
  (* k+1 zeros at the beginning *)
  let knots := fold_left (fun knots (_ : nat) => knots ++ [0]) (seq 0 (k + 1)) knots in
  (* internal knots: for (i = 1; i < n - k; i++) *)
  let span := (Z.of_nat n - Z.of_nat k)%Z in
  let knots :=
    fold_left (fun knots i => knots ++ [inN i / inZ span])
              (seq 1 (Z.to_nat span - 1)) knots in
  (* k+1 ones at the end *)
  let knots := fold_left (fun knots (_ : nat) => knots ++ [1]) (seq 0 (k + 1)) knots in
  knots.

(** The loop of [validateKnots], which returns from inside its body. *)
Fixpoint nonDecreasingFrom (idxs : list nat) (knots : KnotVector) : bool :=
  match idxs with
  | [] => true
  | i :: rest =>
      if jlt (get knots (Z.of_nat i + 1)) (get knots (Z.of_nat i)) then false
      else nonDecreasingFrom rest knots
  end.

Definition validateKnots (knots : KnotVector) (n k : nat) : bool :=
  if negb (length knots =? n + k + 1)%nat then false
  else nonDecreasingFrom (seq 0 (Z.to_nat (Z.of_nat (length knots) - 1))) knots.

(* ================================================================= *)
(** * Reference notions used in the statements *)

(** Pascal's triangle, the reference the loop of [binomial] is compared
    with. *)
Fixpoint choose (n k : nat) : nat :=
  match k, n with
  | O, _ => 1
  | S _, O => 0
  | S k', S n' => choose n' k' + choose n' k
  end.

(** The sum [a0 * B(i0) + a1 * B(i0+1) + ...] of a list of coefficients
    against consecutive Bernstein polynomials of degree [n]. *)
Fixpoint bernsteinSum (n : Z) (u : Qc) (i0 : Z) (l : list Qc) : Qc :=
  match l with
  | [] => 0
  | a0 :: rest => a0 * bernstein i0 n u + bernsteinSum n u (i0 + 1) rest
  end.

(** One level of interpolation on a list of coordinates. *)
Fixpoint lerpCoords (t : Qc) (l : list Qc) : list Qc :=
  match l with
  | a0 :: (a1 :: _) as rest => ((1 - t) * a0 + t * a1) :: lerpCoords t rest
  | _ => []
  end.

(** The polynomial with the given coefficients, highest power first (the
    order of [CubicPolynomial]: [a], [b], [c], [d]), by Horner's rule. *)
Definition polyEval (cs : list Qc) (u : Qc) : Qc :=
  fold_left (fun acc cf => acc * u + cf) cs 0.

(** A divisor that is not the number zero. *)
Definition nonzeroDivisor (dv : jsnum) : Prop := dv <> Fin 0.

(** A point both of whose coordinates are finite. *)
Definition finitePoint (p : Pt jsnum) : Prop :=
  exists px py, p = mkPt (Fin px) (Fin py).

(** The two terms of the recursive case of [coxDeBoor], as functions of
    the recursive call [rec] they contain. *)
Definition term1 (i k : nat) (u : Qc) (knots : KnotVector) (rec : traced jsnum)
  : traced jsnum :=
  let denom1 := jsub (get knots (Z.of_nat i + Z.of_nat k)) (get knots (Z.of_nat i)) in
  if jnonzero denom1 then
    let* q := jdiv (jsub (Fin u) (get knots (Z.of_nat i))) denom1 in
    let* r := rec in
    tret (jmul q r)
  else tret (Fin 0).

Definition term2 (i k : nat) (u : Qc) (knots : KnotVector) (rec : traced jsnum)
  : traced jsnum :=
  let denom2 := jsub (get knots (Z.of_nat i + Z.of_nat k + 1))
                     (get knots (Z.of_nat i + 1)) in
  if jnonzero denom2 then
    let* q := jdiv (jsub (get knots (Z.of_nat i + Z.of_nat k + 1)) (Fin u)) denom2 in
    let* r := rec in
    tret (jmul q r)
  else tret (Fin 0).

(** The divisor of the [i]-th factor, [knots[i+degree+1] - knots[i+1]]. *)
Definition derivativeDivisor (degree : nat) (knots : KnotVector) (i : nat) : jsnum :=
  jsub (get knots (Z.of_nat i + Z.of_nat degree + 1)) (get knots (Z.of_nat i + 1)).

(** The control point [D_i = degree / (knots[i+degree+1] - knots[i+1])
    * (P[i+1] - P[i])] of the derivative curve, as the specification writes
    it. *)
Definition derivativeControlPoint (P : list (Pt jsnum)) (degree : nat)
           (knots : KnotVector) (i : nat) : Pt jsnum :=
  let factor := jquot (Fin (inN degree)) (derivativeDivisor degree knots i) in
  mkPt (jmul factor (jsub (x (pointAt None P (i + 1))) (x (pointAt None P i))))
       (jmul factor (jsub (y (pointAt None P (i + 1))) (y (pointAt None P i)))).

(** [D_i] for [i = 0 .. n-1], where [n + 1] is the number of control
    points. *)
Definition derivativeControlPoints (P : list (Pt jsnum)) (degree : nat)
           (knots : KnotVector) : list (Pt jsnum) :=
  map (derivativeControlPoint P degree knots) (seq 0 (length P - 1)).

(** The knot vector with its first and its last knot removed. *)
Definition interiorKnots (knots : KnotVector) : KnotVector := removelast (tl knots).

(** The sum over [i = 0 .. n-1] of [coxDeBoor(i, degree, u, knots)]. *)
Definition basisSum (n degree : nat) (u : Qc) (knots : KnotVector) : jsnum :=
  fold_left (fun acc i => jadd acc (value (coxDeBoor i degree u knots)))
            (seq 0 n) (Fin 0).

(** The control points the B-spline editor starts with. *)
Definition editorControlPoints : list (Pt jsnum) :=
  map (fun p : Point => mkPt (Fin (x p)) (Fin (y p)))
      [ mkPt (inZ 100) (inZ 200); mkPt (inZ 200) (inZ 100); mkPt (inZ 300) (inZ 150);
        mkPt (inZ 400) (inZ 100); mkPt (inZ 500) (inZ 200) ].

(** The Bezier curve of the trimmed control polygon at the local parameter
    [v]; [None] if the polygon has a non-finite coordinate. *)
Definition trimmedCurve (points : list Point) (range : TrimRange) (v : Qc)
  : option Point :=
  option_map (fun trimmed => evaluateBezier trimmed v)
             (finitePoints (getTrimmedControlPoints points range)).

(** [knots[i]] for an index inside the knot vector. *)
Definition knotAt (knots : KnotVector) (i : nat) : Qc := nth i knots 0.

Definition nonDecreasing (knots : KnotVector) : Prop :=
  forall i j, (i <= j < length knots)%nat -> knotAt knots i <= knotAt knots j.

(** [a / b], or [0] when [b] is zero: the coefficient of a guarded term. *)
Definition ratio (num den : Qc) : Qc := if Qc_eqb den 0 then 0 else num / den.

(** The Cox-de Boor recursion over the rationals, without the rule for the
    final knot: the value [coxDeBoor] returns when the knots it reads
    exist and [u] is not the final knot. *)
Fixpoint basis (i k : nat) (u : Qc) (knots : KnotVector) : Qc :=
  match k with
  | O =>
      if Qc_leb (knotAt knots i) u && Qc_ltb u (knotAt knots (i + 1)) then 1 else 0
  | S k' =>
      ratio (u - knotAt knots i) (knotAt knots (i + k) - knotAt knots i)
      * basis i k' u knots
      + ratio (knotAt knots (i + k + 1) - u)
              (knotAt knots (i + k + 1) - knotAt knots (i + 1))
        * basis (i + 1) k' u knots
  end.

(** [f a + f (a+1) + ... + f (a+len-1)]. *)
Fixpoint sumFrom (lo len : nat) (f : nat -> Qc) : Qc :=
  match len with
  | O => 0
  | S len' => f lo + sumFrom (S lo) len' f
  end.

(* ================================================================= *)
(** * Further functions of the modules *)

(** ** utils/matrices.ts *)

(** [multiply(A, B)].  Rows of a [Matrix] have equal length, so the entries
    [A[i][k]] and [B[k][j]] read by the loops exist.  The thrown message
    also names the shape of [B]; the error keeps its row count. *)
Definition multiply (A B : Matrix) : result Matrix :=
  match A, B with
  | [], _ => Throw TypeError
  | _ :: _, [] => Throw TypeError
  | rowA0 :: _, rowB0 :: _ =>
      let rowsA := length A in
      let colsA := length rowA0 in
      let rowsB := length B in
      let colsB := length rowB0 in
      if negb (colsA =? rowsB)%nat then Throw (DimensionMismatch rowsA colsA rowsB)
      else Ok (pushLoop 0 rowsA (fun i =>
                 pushLoop 0 colsB (fun j =>
                   fold_left (fun acc k => acc + nth k (nth i A []) 0 * nth j (nth k B []) 0)
                             (seq 0 colsA) 0)))
  end.

Definition transpose (A : Matrix) : result Matrix :=
  match A with
  | [] => Throw TypeError
  | row0 :: _ =>
      let rows := length A in
      let cols := length row0 in
      Ok (pushLoop 0 cols (fun j => pushLoop 0 rows (fun i => nth j (nth i A []) 0)))
  end.

Definition subdivisionMatrix (n : Z) (u : Qc) : result Matrix :=
  if negb (n =? 3)%Z then Throw (NotImplemented n)
  else
    let u2 := u * u in
    let u3 := u2 * u in
    let v := 1 - u in
    let v2 := v * v in
    let v3 := v2 * v in
    Ok [ [1; 0; 0; 0];
         [v; u; 0; 0];
         [v2; v * u; u2; 0];
         [v3; v2 * u; v * u2; u3] ].

Definition reparameterizationMatrix (u1 u2 : Qc) : Matrix :=
  let delta := u2 - u1 in
  let delta2 := delta * delta in
  let delta3 := delta2 * delta in
  [ [1; 0; 0; 0];
    [u1; delta; 0; 0];
    [u1 * u1; inZ 2 * u1 * delta; delta2; 0];
    [u1 * u1 * u1; inZ 3 * u1 * u1 * delta; inZ 3 * u1 * delta2; delta3] ].

(** ** utils/bezier.ts *)

Definition calculateIntersectionControlPoints (P0 PStar P3 : Point) : Point * Point :=
  let P1 := mkPt ((x P0 + inZ 2 * x PStar) / inZ 3) ((y P0 + inZ 2 * y PStar) / inZ 3) in
  let P2 := mkPt ((inZ 2 * x PStar + x P3) / inZ 3) ((inZ 2 * y PStar + y P3) / inZ 3) in
  (P1, P2).

Definition bezierDerivative (points : list Point) (u : Qc) : Point :=
  let n := (Z.of_nat (length points) - 1)%Z in
  let derivPoints :=
    pushLoop 0 (Z.to_nat n) (fun i =>
      mkPt (inZ n * (x (pointAt 0 points (i + 1)) - x (pointAt 0 points i)))
           (inZ n * (y (pointAt 0 points (i + 1)) - y (pointAt 0 points i)))) in
  evaluateBezier derivPoints u.

(** ** Reference notions for the further functions *)

(** The cubic [a*u^3 + b*u^2 + c*u + d] a [CubicPolynomial] stands for. *)
Definition evalCubic (p : CubicPolynomial) (u : Qc) : Qc :=
  a p * u ^ 3 + b p * u ^ 2 + c p * u + d p.

(** A point moved by the vector [t]. *)
Definition translate (t p : Point) : Point := mkPt (x p + x t) (y p + y t).

(** The formal derivative of a polynomial given by its coefficients,
    highest power first: the coefficient of [u^m] becomes [m] times itself
    and the constant term is dropped. *)
Definition polyDerivative (cs : list Qc) : list Qc :=
  map (fun j => inN (length cs - 1 - j) * nth j cs 0) (seq 0 (length cs - 1)).

(** A matrix all of whose rows have [cols] entries. *)
Definition rectangular (M : Matrix) (cols : nat) : Prop :=
  Forall (fun row => length row = cols) M.

(** A point with finite coordinates, as a point of the B-spline code. *)
Definition finite (p : Point) : Pt jsnum := mkPt (Fin (x p)) (Fin (y p)).

(** ** Sampling (utils/hermite.ts, utils/bezier.ts, utils/bspline.ts)

    The samplers compute their parameter by a division, [i / numPoints],
    which is not a finite number when [numPoints] is zero.  The evaluators
    are therefore written once more for a parameter that may be non-finite:
    the same expressions, with the arithmetic of [jsnum]. *)

(** [Math.pow(b, e)] for a base that may be non-finite and the integer
    exponents the code passes: [Math.pow(NaN, 0)] is [1]. *)
Definition jpow (b : jsnum) (e : Z) : jsnum :=
  match b with
  | Some q => Fin (Math_pow q e)
  | None => if (e =? 0)%Z then Fin 1 else None
  end.

Definition h0At (u : jsnum) : jsnum :=
  jadd (jsub (jmul (Fin (inZ 2)) (jpow u 3)) (jmul (Fin (inZ 3)) (jpow u 2))) (Fin (inZ 1)).
Definition h1At (u : jsnum) : jsnum :=
  jadd (jmul (Fin (inZ (-2))) (jpow u 3)) (jmul (Fin (inZ 3)) (jpow u 2)).
Definition h2At (u : jsnum) : jsnum :=
  jadd (jsub (jpow u 3) (jmul (Fin (inZ 2)) (jpow u 2))) u.
Definition h3At (u : jsnum) : jsnum :=
  jsub (jpow u 3) (jpow u 2).

(** [evaluateHermite(form, u)] for such a parameter. *)
Definition evaluateHermiteAt (form : HermiteForm) (u : jsnum) : Pt jsnum :=
  let h0u := h0At u in
  let h1u := h1At u in
  let h2u := h2At u in
  let h3u := h3At u in
  mkPt (jadd (jadd (jadd (jmul h0u (Fin (x (P0 form)))) (jmul h1u (Fin (x (P1 form)))))
                   (jmul h2u (Fin (x (T0 form)))))
             (jmul h3u (Fin (x (T1 form)))))
       (jadd (jadd (jadd (jmul h0u (Fin (y (P0 form)))) (jmul h1u (Fin (y (P1 form)))))
                   (jmul h2u (Fin (y (T0 form)))))
             (jmul h3u (Fin (y (T1 form))))).

Definition generateHermiteCurvePoints (form : HermiteForm) (numPoints : nat)
  : list (Pt jsnum) :=
  pushLoop 0 (numPoints + 1) (fun i =>
    let u := jquot (Fin (inN i)) (Fin (inN numPoints)) in
    evaluateHermiteAt form u).

(** [bernstein(i, n, u)] and [evaluateBezier(points, u)] for such a
    parameter. *)
Definition bernsteinAt (i n : Z) (u : jsnum) : jsnum :=
  if ((i <? 0) || (i >? n))%Z then Fin 0
  else
    let binCoeff := binomial n i in
    jmul (jmul (Fin binCoeff) (jpow (jsub (Fin 1) u) (n - i))) (jpow u i).

Definition evaluateBezierAt (points : list Point) (u : jsnum) : Pt jsnum :=
  let n := (Z.of_nat (length points) - 1)%Z in
  let xy :=
    fold_left (fun (xy : jsnum * jsnum) i =>
                 let basis := bernsteinAt (Z.of_nat i) n u in
                 (jadd (fst xy) (jmul (Fin (x (pointAt 0 points i))) basis),
                  jadd (snd xy) (jmul (Fin (y (pointAt 0 points i))) basis)))
              (seq 0 (Z.to_nat (n + 1))) (Fin 0, Fin 0) in
  mkPt (fst xy) (snd xy).

Definition generateBezierCurvePoints (points : list Point) (numPoints : nat)
  : list (Pt jsnum) :=
  pushLoop 0 (numPoints + 1) (fun i =>
    let u := jquot (Fin (inN i)) (Fin (inN numPoints)) in
    evaluateBezierAt points u).

(** [coxDeBoor(i, k, u, knots)] and [evaluateBSpline] for such a
    parameter. *)
Fixpoint coxDeBoorAt (i k : nat) (u : jsnum) (knots : KnotVector) : traced jsnum :=
  let zi := Z.of_nat i in
  let zk := Z.of_nat k in
  match k with
  | O =>
      let len := Z.of_nat (length knots) in
      if (jle (get knots zi) u && jlt u (get knots (zi + 1)))
         || (jeq u (get knots (len - 1)) && (zi =? len - zk - 2)%Z)
      then tret (Fin 1)
      else tret (Fin 0)
  | S k' =>
      let denom1 := jsub (get knots (zi + zk)) (get knots zi) in
      let* term1 :=
        if jnonzero denom1 then
          let* q := jdiv (jsub u (get knots zi)) denom1 in
          let* r := coxDeBoorAt i k' u knots in
          tret (jmul q r)
        else tret (Fin 0) in
      let denom2 := jsub (get knots (zi + zk + 1)) (get knots (zi + 1)) in
      let* term2 :=
        if jnonzero denom2 then
          let* q := jdiv (jsub (get knots (zi + zk + 1)) u) denom2 in
          let* r := coxDeBoorAt (i + 1) k' u knots in
          tret (jmul q r)
        else tret (Fin 0) in
      tret (jadd term1 term2)
  end%Z.


(** The parameter of sample [i]: [startParam + (i / numPoints) *
    (endParam - startParam)], with the domain read from the knots. *)
Definition sampleParameter (degree : nat) (knots : KnotVector) (numPoints i : nat)
  : traced jsnum :=
  let startParam := get knots (Z.of_nat degree) in
  let endParam := get knots (Z.of_nat (length knots) - Z.of_nat degree - 1) in
  let* q := jdiv (Fin (inN i)) (Fin (inN numPoints)) in
  tret (jadd startParam (jmul q (jsub endParam startParam))).


Definition calculateBasisFunctions (numControlPoints degree : nat) (knots : KnotVector)
           (numPoints : nat) : traced (list (list jsnum)) :=
  forLoop 0 numControlPoints (fun i (basisValues : list (list jsnum)) =>
    let* values :=
      forLoop 0 (numPoints + 1) (fun j (values : list jsnum) =>
        let* u := sampleParameter degree knots numPoints j in
        let* b := coxDeBoorAt i degree u knots in
        tret (values ++ [b])) [] in
    tret (basisValues ++ [values])) [].

(** The parameter of sample [i] of [numPoints], for a knot vector whose
    domain ends [knots[degree]] and [knots[length-degree-1]] exist. *)
Definition sampleAt (degree : nat) (knots : KnotVector) (numPoints i : nat) : Qc :=
  knotAt knots degree
  + inN i / inN numPoints
    * (knotAt knots (length knots - degree - 1) - knotAt knots degree).

(** The sum of column [j] of a table of basis values. *)
Definition columnSum (table : list (list jsnum)) (j : nat) : jsnum :=
  fold_left (fun acc row => jadd acc (nth j row None)) table (Fin 0).

(* ================================================================= *)
(** * The same code over IEEE doubles *)

(** The functions whose results depend on rounding or on [NaN], as the
    TypeScript code computes them: on binary64 numbers ([float], rounded to
    nearest, ties to even), with JavaScript's comparisons, which answer
    [false] whenever an operand is [NaN].  A definition here follows the
    same source lines as the definition of the same name over the
    rationals above. *)
Module Binary64.

(** An integer (a loop counter, a length, an integer literal) as a number;
    exact below [2^53]. *)
Definition ofZ (z : Z) : float :=
  if (z <? 0)%Z then (- PrimFloat.of_uint63 (Uint63.of_Z (- z)))%float
  else PrimFloat.of_uint63 (Uint63.of_Z z).

(** [a[i]] used as a number: [undefined], read past the end, behaves as
    [NaN] in arithmetic and in comparisons. *)
Definition get (a : list float) (i : nat) : float := nth i a nan.

(** [Math.pow(b, e)] for the non-negative integer exponents the code
    passes.  ECMAScript leaves the function implementation-approximated;
    the product of [e] factors is its exact value whenever every
    intermediate product is representable, as for the base [0.5]. *)
Fixpoint Math_pow (b : float) (e : nat) : float :=
  match e with
  | O => 1%float
  | S e' => (Math_pow b e' * b)%float
  end.

Definition binomial (n k : Z) : float :=
  if ((k <? 0) || (k >? n))%Z then 0%float
  else if ((k =? 0) || (k =? n))%Z then 1%float
  else
    fold_left (fun result i =>
                 (result * (ofZ (n + 1 - Z.of_nat i) / ofZ (Z.of_nat i)))%float)
              (seq 1 (Z.to_nat k)) 1%float.

Definition bernstein (i n : Z) (u : float) : float :=
  if ((i <? 0) || (i >? n))%Z then 0%float
  else
    let binCoeff := binomial n i in
    (binCoeff * Math_pow (1 - u) (Z.to_nat (n - i)) * Math_pow u (Z.to_nat i))%float.

Definition lerpLevel (t : float) (pts : list (Pt float)) : list (Pt float) :=
  pushLoop 0 (Z.to_nat (Z.of_nat (length pts) - 1)) (fun j =>
    mkPt ((1 - t) * x (pointAt nan pts j) + t * x (pointAt nan pts (j + 1)))%float
         ((1 - t) * y (pointAt nan pts j) + t * y (pointAt nan pts (j + 1)))%float).

Fixpoint deCasteljau (fuel : nat) (points : list (Pt float)) (u : float)
  : option (Pt float) :=
  match fuel with
  | O => None
  | S fuel' =>
      if (length points =? 1)%nat then Some (pointAt nan points 0)
      else
        let newPoints := lerpLevel u points in
        deCasteljau fuel' newPoints u
  end.

Definition evaluateBezier (points : list (Pt float)) (u : float) : Pt float :=
  let n := (Z.of_nat (length points) - 1)%Z in
  let xy :=
    fold_left (fun (xy : float * float) i =>
                 let basis := bernstein (Z.of_nat i) n u in
                 ((fst xy + x (pointAt nan points i) * basis)%float,
                  (snd xy + y (pointAt nan points i) * basis)%float))
              (seq 0 (Z.to_nat (n + 1))) (0%float, 0%float) in
  mkPt (fst xy) (snd xy).

Definition multiplyVector (A : list (list float)) (v : list float) : result (list float) :=
  match A with
  | [] => Throw TypeError
  | row0 :: _ =>
      let rows := length A in
      let cols := length row0 in
      if negb (cols =? length v)%nat then Throw (DimensionMismatch rows cols (length v))
      else Ok (pushLoop 0 rows (fun i =>
                 fold_left (fun acc j => (acc + get (nth i A []) j * get v j)%float)
                           (seq 0 cols) 0%float))
  end.

Definition hermiteMatrix : list (list float) :=
  [ [2; - 2; 1; 1];
    [- 3; 3; - 2; - 1];
    [0; 0; 1; 0];
    [1; 0; 0; 0] ]%float.

Record CubicPolynomial : Type := mkCubic { a : float; b : float; c : float; d : float }.

Record HermiteForm : Type :=
  mkHermite { P0 : Pt float; P1 : Pt float; T0 : Pt float; T1 : Pt float }.

Definition hermiteToPolynomial (form : HermiteForm)
  : result (CubicPolynomial * CubicPolynomial) :=
  let H := hermiteMatrix in
  let gx := [x (P0 form); x (P1 form); x (T0 form); x (T1 form)] in
  do cx <- multiplyVector H gx;
  let gy := [y (P0 form); y (P1 form); y (T0 form); y (T1 form)] in
  do cy <- multiplyVector H gy;
  Ok (mkCubic (get cx 0) (get cx 1) (get cx 2) (get cx 3),
      mkCubic (get cy 0) (get cy 1) (get cy 2) (get cy 3)).

Definition polynomialToHermite (polyX polyY : CubicPolynomial) : HermiteForm :=
  let ax := a polyX in let bx := b polyX in let cx := c polyX in let dx := d polyX in
  let ay := a polyY in let by_ := b polyY in let cy := c polyY in let dy := d polyY in
  let P0 := mkPt dx dy in
  let P1 := mkPt (ax + bx + cx + dx)%float (ay + by_ + cy + dy)%float in
  let T0 := mkPt cx cy in
  let T1 := mkPt (3 * ax + 2 * bx + cx)%float (3 * ay + 2 * by_ + cy)%float in
  mkHermite P0 P1 T0 T1.

(** [validateKnots]: the loop returns [false] at the first [i] with
    [knots[i] > knots[i + 1]]. *)
Definition validateKnots (knots : list float) (n k : nat) : bool :=
  if negb (length knots =? n + k + 1)%nat then false
  else forallb (fun i => negb (get knots (i + 1) <? get knots i)%float)
               (seq 0 (length knots - 1)).

Fixpoint coxDeBoor (i k : nat) (u : float) (knots : list float) : float :=
  match k with
  | O =>
      if ((get knots i <=? u)%float && (u <? get knots (i + 1))%float)
         || ((u =? get knots (length knots - 1))%float
             && (Z.of_nat i =? Z.of_nat (length knots) - Z.of_nat k - 2)%Z)
      then 1%float
      else 0%float
  | S k' =>
      let denom1 := (get knots (i + k) - get knots i)%float in
      let term1 :=
        if negb (denom1 =? 0)%float
        then ((u - get knots i) / denom1 * coxDeBoor i k' u knots)%float
        else 0%float in
      let denom2 := (get knots (i + k + 1) - get knots (i + 1))%float in
      let term2 :=
        if negb (denom2 =? 0)%float
        then ((get knots (i + k + 1) - u) / denom2 * coxDeBoor (i + 1) k' u knots)%float
        else 0%float in
      (term1 + term2)%float
  end.

End Binary64.

(* ================================================================= *)
(** * Facts about numbers *)

Lemma Q2Qc_this (q : Q) : (this (Q2Qc q) == q)%Q.
Proof. simpl. apply Qred_correct. Qed.

Lemma inZ_add (p q : Z) : inZ (p + q) = inZ p + inZ q.
Proof.
  unfold inZ, Qcplus. apply Q2Qc_eq_iff.
  rewrite !Q2Qc_this, inject_Z_plus. reflexivity.
Qed.

Lemma inZ_mul (p q : Z) : inZ (p * q) = inZ p * inZ q.
Proof.
  unfold inZ, Qcmult. apply Q2Qc_eq_iff.
  rewrite !Q2Qc_this, inject_Z_mult. reflexivity.
Qed.

Lemma inZ_opp (p : Z) : inZ (- p) = - inZ p.
Proof.
  unfold inZ, Qcopp. apply Q2Qc_eq_iff.
  rewrite !Q2Qc_this, inject_Z_opp. reflexivity.
Qed.

Lemma inZ_sub (p q : Z) : inZ (p - q) = inZ p - inZ q.
Proof. unfold Z.sub, Qcminus. now rewrite inZ_add, inZ_opp. Qed.

Lemma inZ_0 : inZ 0 = 0.
Proof. apply Qc_decomp. reflexivity. Qed.

Lemma inZ_1 : inZ 1 = 1.
Proof. apply Qc_decomp. reflexivity. Qed.

Lemma inZ_inj (p q : Z) : inZ p = inZ q -> p = q.
Proof.
  unfold inZ. intros H. apply Q2Qc_eq_iff in H.
  unfold Qeq in H. simpl in H. lia.
Qed.

Lemma inZ_xO (p : positive) : inZ (Z.pos p~0) = (1 + 1) * inZ (Z.pos p).
Proof.
  change (Z.pos p~0) with (2 * Z.pos p)%Z. rewrite inZ_mul.
  replace (inZ 2) with (1 + 1) by (apply Qc_decomp; reflexivity). reflexivity.
Qed.

Lemma inZ_xI (p : positive) : inZ (Z.pos p~1) = 1 + (1 + 1) * inZ (Z.pos p).
Proof.
  change (Z.pos p~1) with (1 + 2 * Z.pos p)%Z. rewrite inZ_add, inZ_mul, inZ_1.
  replace (inZ 2) with (1 + 1) by (apply Qc_decomp; reflexivity). reflexivity.
Qed.

Lemma inZ_neg (p : positive) : inZ (Z.neg p) = - inZ (Z.pos p).
Proof. change (Z.neg p) with (- Z.pos p)%Z. apply inZ_opp. Qed.

(** Turns integer literals into sums of [1], which [ring] and [field]
    understand. *)
Ltac qc_literals :=
  repeat first [ rewrite inZ_neg | rewrite inZ_xO | rewrite inZ_xI
               | rewrite inZ_1 | rewrite inZ_0 ].

Ltac qc_ring := qc_literals; ring.

(** Evaluates both sides of an equation between closed numbers, points or
    lists of them. *)
Ltac qc_eval :=
  vm_compute;
  repeat match goal with
         | |- @eq Qc _ _ => apply Qc_decomp; reflexivity
         | |- _ => progress f_equal
         end.

Lemma Qc_eqb_eq (p q : Qc) : Qc_eqb p q = true <-> p = q.
Proof.
  unfold Qc_eqb. rewrite Qeq_bool_iff. split.
  - apply Qc_is_canon.
  - intros ->. reflexivity.
Qed.

Lemma Qc_eqb_neq (p q : Qc) : Qc_eqb p q = false <-> p <> q.
Proof.
  rewrite <- Qc_eqb_eq. destruct (Qc_eqb p q); split; congruence.
Qed.

Lemma Qc_leb_le (p q : Qc) : Qc_leb p q = true <-> p <= q.
Proof. unfold Qc_leb, Qcle. apply Qle_bool_iff. Qed.

Lemma Qc_ltb_lt (p q : Qc) : Qc_ltb p q = true <-> p < q.
Proof.
  unfold Qc_ltb, Qclt. rewrite andb_true_iff, negb_true_iff, Qle_bool_iff.
  rewrite <- not_true_iff_false, Qeq_bool_iff. split.
  - intros [Hle Hne]. apply Qle_lteq in Hle. destruct Hle; [assumption | contradiction].
  - intros Hlt. split; [now apply Qlt_le_weak | now apply Qlt_not_eq].
Qed.

(* ================================================================= *)
(** * Loops and arrays *)

Lemma pushLoop_from {A : Type} (f : nat -> A) (l : list nat) (acc : list A) :
  fold_left (fun out i => out ++ [f i]) l acc = acc ++ map f l.
Proof.
  revert acc. induction l as [|i l IH]; intros acc; simpl.
  - now rewrite app_nil_r.
  - rewrite IH, <- app_assoc. reflexivity.
Qed.

Lemma pushLoop_map {A : Type} (lo hi : nat) (f : nat -> A) :
  pushLoop lo hi f = map f (seq lo (hi - lo)).
Proof. unfold pushLoop. now rewrite pushLoop_from. Qed.

Lemma pushLoop_length {A : Type} (lo hi : nat) (f : nat -> A) :
  length (pushLoop lo hi f) = (hi - lo)%nat.
Proof. now rewrite pushLoop_map, length_map, length_seq. Qed.

(* ================================================================= *)
(** * Hermite round trip *)

Lemma multiplyVector_hermite (g0 g1 g2 g3 : Qc) :
  multiplyVector hermiteMatrix [g0; g1; g2; g3] =
  Ok [ inZ 2 * g0 + inZ (-2) * g1 + g2 + g3;
       inZ (-3) * g0 + inZ 3 * g1 + inZ (-2) * g2 - g3;
       g2;
       g0 ].
Proof.
  unfold multiplyVector, hermiteMatrix. cbn [length negb Nat.eqb].
  rewrite pushLoop_map. cbn [Nat.sub seq map nth fold_left].
  do 5 (f_equal; try qc_ring).
Qed.

(** C4. Converting a Hermite form to its two cubic polynomials never fails,
    and converting those polynomials back gives the form one started from:
    [polynomialToHermite (hermiteToPolynomial form) = form], for arbitrary
    end points and tangents, exactly over the rationals.  (Over doubles the
    round trip is exact up to rounding only, see below.) *)
Theorem hermite_round_trip (form : HermiteForm) :
  exists polyX polyY,
    hermiteToPolynomial form = Ok (polyX, polyY) /\
    polynomialToHermite polyX polyY = form.
Proof.
  destruct form as [[p0x p0y] [p1x p1y] [t0x t0y] [t1x t1y]].
  unfold hermiteToPolynomial. cbn [x y P0 P1 T0 T1].
  rewrite !multiplyVector_hermite. cbn [rbind].
  eexists; eexists. split; [reflexivity|].
  unfold polynomialToHermite, coef. cbn [nth a b c d].
  f_equal; f_equal; qc_ring.
Qed.

(** The same round trip over doubles.  With [P0.y = 0], [P1.y = 1e16], [T0.y = 1] and
    [T1.y = 3] the cubic coefficients are rounded to [-19999999999999996]
    and [29999999999999996], and the form read back has [T1.y = 9]: the
    round trip does not return the form within any tolerance that is fixed
    in advance. *)
Lemma hermite_round_trip_binary64 :
  let form :=
    (Binary64.mkHermite (mkPt 0 0) (mkPt 0 10000000000000000) (mkPt 0 1) (mkPt 0 3))%float in
  exists polyX polyY,
    Binary64.hermiteToPolynomial form = Ok (polyX, polyY) /\
    Binary64.a polyY = (- 19999999999999996)%float /\
    Binary64.b polyY = 29999999999999996%float /\
    Binary64.polynomialToHermite polyX polyY
    = (Binary64.mkHermite (mkPt 0 0) (mkPt 0 10000000000000000) (mkPt 0 1) (mkPt 0 9))%float /\
    Binary64.polynomialToHermite polyX polyY <> form.
Proof.
  intros form.
  exists (Binary64.mkCubic 0 0 0 0)%float,
         (Binary64.mkCubic (- 19999999999999996) 29999999999999996 1 0)%float.
  split; [vm_compute; reflexivity|].
  split; [vm_compute; reflexivity|].
  split; [vm_compute; reflexivity|].
  split; [vm_compute; reflexivity|].
  intros E. apply (f_equal (fun f => (y (Binary64.T1 f) =? 3)%float)) in E.
  vm_compute in E. discriminate.
Qed.

(* ================================================================= *)
(** * Binomial coefficients *)

Lemma choose_0 (n : nat) : choose n 0 = 1%nat.
Proof. destruct n; reflexivity. Qed.

Lemma choose_gt (n k : nat) : (n < k)%nat -> choose n k = 0%nat.
Proof.
  revert k. induction n as [|n IH]; intros [|k] H; simpl; try lia.
  rewrite !IH by lia. reflexivity.
Qed.

Lemma choose_diag (n : nat) : choose n n = 1%nat.
Proof.
  induction n as [|n IH]; simpl; [reflexivity|].
  rewrite IH, choose_gt by lia. reflexivity.
Qed.

Lemma choose_step (n k : nat) :
  (choose n (S k) * S k = choose n k * (n - k))%nat.
Proof.
  revert k. induction n as [|n IH]; intros k.
  - simpl. lia.
  - destruct k as [|k].
    + pose proof (IH 0%nat) as H0. rewrite choose_0 in *. simpl choose.
      rewrite choose_0. lia.
    + pose proof (IH k) as Hk. pose proof (IH (S k)) as HSk.
      change (choose (S n) (S (S k))) with (choose n (S k) + choose n (S (S k)))%nat.
      change (choose (S n) (S k)) with (choose n k + choose n (S k))%nat.
      destruct (Nat.le_gt_cases (S k) n) as [Hle|Hgt].
      * replace (S n - S k)%nat with (S (n - S k)) by lia.
        replace (n - k)%nat with (S (n - S k)) in Hk by lia. nia.
      * rewrite (choose_gt n (S k)), (choose_gt n (S (S k))) in * by lia.
        replace (S n - S k)%nat with 0%nat by lia. lia.
Qed.

Lemma inN_add (p q : nat) : inN (p + q) = inN p + inN q.
Proof. unfold inN. now rewrite Nat2Z.inj_add, inZ_add. Qed.

Lemma inN_mul (p q : nat) : inN (p * q) = inN p * inN q.
Proof. unfold inN. now rewrite Nat2Z.inj_mul, inZ_mul. Qed.

Lemma inN_S_neq0 (p : nat) : inN (S p) <> 0.
Proof.
  unfold inN. rewrite <- inZ_0. intros H. apply inZ_inj in H. lia.
Qed.

Lemma binomial_loop (n k : nat) :
  (k <= n)%nat ->
  fold_left (fun result i =>
               result * (inZ (Z.of_nat n + 1 - Z.of_nat i) / inZ (Z.of_nat i)))
            (seq 1 k) 1
  = inN (choose n k).
Proof.
  induction k as [|k IH]; intros Hk.
  - simpl. rewrite choose_0. unfold inN. simpl. now rewrite inZ_1.
  - rewrite seq_S, fold_left_app, IH by lia. cbn [fold_left Nat.add].
    replace (Z.of_nat n + 1 - Z.of_nat (S k))%Z with (Z.of_nat (n - k)) by lia.
    change (inZ (Z.of_nat (n - k))) with (inN (n - k)).
    change (inZ (Z.of_nat (S k))) with (inN (S k)).
    pose proof (f_equal inN (choose_step n k)) as E. rewrite !inN_mul in E.
    pose proof (inN_S_neq0 k) as Hnz.
    rewrite <- (Qcmult_1_r (inN (choose n (S k)))).
    rewrite <- (Qcmult_inv_r (inN (S k))) by assumption.
    rewrite Qcmult_assoc, E. unfold Qcdiv. ring.
Qed.

Lemma binomial_choose (n k : nat) :
  binomial (Z.of_nat n) (Z.of_nat k) = inN (choose n k).
Proof.
  unfold binomial.
  destruct (Z.ltb_spec (Z.of_nat k) 0) as [H|_]; [lia|]. cbn [orb].
  destruct (Z.gtb_spec (Z.of_nat k) (Z.of_nat n)) as [H|H].
  - rewrite choose_gt by lia. unfold inN. simpl. now rewrite inZ_0.
  - destruct (Z.eqb_spec (Z.of_nat k) 0) as [H0|H0]; cbn [orb].
    + replace k with 0%nat by lia. rewrite choose_0. unfold inN. simpl. now rewrite inZ_1.
    + destruct (Z.eqb_spec (Z.of_nat k) (Z.of_nat n)) as [H1|H1].
      * replace k with n by lia. rewrite choose_diag. unfold inN. simpl. now rewrite inZ_1.
      * rewrite Nat2Z.id. apply binomial_loop. lia.
Qed.

(* ================================================================= *)
(** * Bernstein polynomials *)

Lemma bernstein_nat (i n : nat) (u : Qc) :
  bernstein (Z.of_nat i) (Z.of_nat n) u
  = inN (choose n i) * (1 - u) ^ (n - i) * u ^ i.
Proof.
  unfold bernstein, Math_pow.
  destruct (Z.ltb_spec (Z.of_nat i) 0) as [H|_]; [lia|]. cbn [orb].
  destruct (Z.gtb_spec (Z.of_nat i) (Z.of_nat n)) as [H|H].
  - rewrite choose_gt by lia. unfold inN. simpl Z.of_nat. rewrite inZ_0. ring.
  - rewrite binomial_choose, Nat2Z.id.
    replace (Z.to_nat (Z.of_nat n - Z.of_nat i)) with (n - i)%nat by lia.
    reflexivity.
Qed.

Lemma bernstein_neg (i n : Z) (u : Qc) : (i < 0)%Z -> bernstein i n u = 0.
Proof.
  intros H. unfold bernstein.
  destruct (Z.ltb_spec i 0) as [_|H']; [reflexivity | lia].
Qed.

Lemma bernstein_above (i n : Z) (u : Qc) : (n < i)%Z -> bernstein i n u = 0.
Proof.
  intros H. unfold bernstein.
  destruct (Z.gtb_spec i n) as [_|H']; [now rewrite orb_true_r | lia].
Qed.

(** Pascal's rule, for every integer index: the guards of [bernstein] make
    the two boundary cases instances of the same equation. *)
Lemma bernstein_rec (i : Z) (n : nat) (u : Qc) :
  bernstein i (Z.of_nat (S n)) u
  = (1 - u) * bernstein i (Z.of_nat n) u + u * bernstein (i - 1) (Z.of_nat n) u.
Proof.
  destruct (Z.lt_ge_cases i 0) as [Hneg|Hpos].
  - rewrite !bernstein_neg by lia. ring.
  - rewrite <- (Z2Nat.id i) by assumption. set (j := Z.to_nat i). clearbody j.
    destruct j as [|j].
    + rewrite (bernstein_neg (Z.of_nat 0 - 1)) by lia.
      rewrite !bernstein_nat, !choose_0, !Nat.sub_0_r. simpl. ring.
    + replace (Z.of_nat (S j) - 1)%Z with (Z.of_nat j) by lia.
      rewrite !bernstein_nat.
      change (choose (S n) (S j)) with (choose n j + choose n (S j))%nat.
      rewrite inN_add. cbn [Nat.sub].
      destruct (Nat.le_gt_cases (S j) n) as [Hle|Hgt].
      * replace (n - j)%nat with (S (n - S j)) by lia. simpl. ring.
      * rewrite (choose_gt n (S j)) by lia.
        replace (inN 0) with 0 by (unfold inN; simpl; now rewrite inZ_0).
        simpl. ring.
Qed.

Lemma bernsteinSum_rec (n : nat) (u : Qc) (i0 : Z) (l : list Qc) :
  bernsteinSum (Z.of_nat (S n)) u i0 l
  = (1 - u) * bernsteinSum (Z.of_nat n) u i0 l
    + u * bernsteinSum (Z.of_nat n) u (i0 - 1) l.
Proof.
  revert i0. induction l as [|a0 l IH]; intros i0.
  - simpl. ring.
  - cbn [bernsteinSum]. rewrite IH, bernstein_rec.
    replace (i0 - 1 + 1)%Z with (i0 + 1 - 1)%Z by lia. ring.
Qed.

Lemma bernsteinSum_lerp (n : Z) (u : Qc) (i0 : Z) (l : list Qc) :
  l <> [] ->
  (n < i0 + Z.of_nat (length l) - 1)%Z ->
  bernsteinSum n u i0 (lerpCoords u l)
  = (1 - u) * bernsteinSum n u i0 l + u * bernsteinSum n u i0 (tl l).
Proof.
  revert i0. induction l as [|a0 l IH]; intros i0 Hne Hlen; [congruence|].
  destruct l as [|a1 l].
  - simpl in *. rewrite bernstein_above by lia. ring.
  - change (lerpCoords u (a0 :: a1 :: l))
      with (((1 - u) * a0 + u * a1) :: lerpCoords u (a1 :: l)).
    cbn [bernsteinSum tl]. rewrite IH; [| discriminate | simpl length in *; lia].
    cbn [bernsteinSum tl]. ring.
Qed.

(** The Bernstein sum of degree [n+1] of a list of [n+2] coordinates is the
    Bernstein sum of degree [n] of its interpolated level. *)
Lemma bernsteinSum_level (n : nat) (u : Qc) (l : list Qc) :
  length l = S (S n) ->
  bernsteinSum (Z.of_nat n) u 0 (lerpCoords u l)
  = bernsteinSum (Z.of_nat (S n)) u 0 l.
Proof.
  intros Hlen. rewrite bernsteinSum_rec, bernsteinSum_lerp.
  - destruct l as [|a0 l]; [discriminate|]. cbn [bernsteinSum tl].
    rewrite (bernstein_neg (0 - 1)) by lia.
    replace (0 - 1 + 1)%Z with 0%Z by lia. ring.
  - destruct l; [discriminate | congruence].
  - lia.
Qed.

(* ================================================================= *)
(** * De Casteljau evaluation *)

Lemma lerpLevel_short (t : Qc) (pts : list Point) :
  (length pts <= 1)%nat -> lerpLevel t pts = [].
Proof.
  intros H. unfold lerpLevel. rewrite pushLoop_map.
  replace (Z.to_nat (Z.of_nat (length pts) - 1) - 0)%nat with 0%nat by lia.
  reflexivity.
Qed.

Lemma lerpLevel_cons (t : Qc) (p q : Point) (rest : list Point) :
  lerpLevel t (p :: q :: rest)
  = mkPt ((1 - t) * x p + t * x q) ((1 - t) * y p + t * y q)
    :: lerpLevel t (q :: rest).
Proof.
  unfold lerpLevel. rewrite !pushLoop_map. cbn [length].
  replace (Z.to_nat (Z.of_nat (S (S (length rest))) - 1) - 0)%nat
    with (S (length rest)) by lia.
  replace (Z.to_nat (Z.of_nat (S (length rest)) - 1) - 0)%nat
    with (length rest) by lia.
  cbn [seq map]. f_equal.
  rewrite <- seq_shift, map_map. apply map_ext. intros j. reflexivity.
Qed.

Lemma lerpLevel_length (t : Qc) (pts : list Point) :
  length (lerpLevel t pts) = (length pts - 1)%nat.
Proof.
  unfold lerpLevel. rewrite pushLoop_length. lia.
Qed.

Lemma lerpLevel_x (t : Qc) (pts : list Point) :
  map x (lerpLevel t pts) = lerpCoords t (map x pts).
Proof.
  induction pts as [|p [|q rest] IH].
  - reflexivity.
  - reflexivity.
  - rewrite lerpLevel_cons. cbn [map]. rewrite IH. reflexivity.
Qed.

Lemma lerpLevel_y (t : Qc) (pts : list Point) :
  map y (lerpLevel t pts) = lerpCoords t (map y pts).
Proof.
  induction pts as [|p [|q rest] IH].
  - reflexivity.
  - reflexivity.
  - rewrite lerpLevel_cons. cbn [map]. rewrite IH. reflexivity.
Qed.

Lemma evaluateBezier_loop (n : Z) (u : Qc) (pre rest : list Point) (acc : Qc * Qc) :
  fold_left (fun (xy : Qc * Qc) i =>
               let basis := bernstein (Z.of_nat i) n u in
               (fst xy + x (pointAt 0 (pre ++ rest) i) * basis,
                snd xy + y (pointAt 0 (pre ++ rest) i) * basis))
            (seq (length pre) (length rest)) acc
  = (fst acc + bernsteinSum n u (Z.of_nat (length pre)) (map x rest),
     snd acc + bernsteinSum n u (Z.of_nat (length pre)) (map y rest)).
Proof.
  revert pre acc. induction rest as [|p rest IH]; intros pre acc.
  - simpl. rewrite !Qcplus_0_r. now destruct acc.
  - cbn [length seq fold_left map bernsteinSum].
    replace (pre ++ p :: rest) with ((pre ++ [p]) ++ rest)
      by (now rewrite <- app_assoc).
    replace (S (length pre)) with (length (pre ++ [p]))
      by (rewrite length_app; simpl; lia).
    rewrite IH. cbn [fst snd]. unfold pointAt.
    rewrite <- app_assoc. cbn [app]. rewrite nth_middle.
    rewrite length_app. cbn [length x y].
    replace (Z.of_nat (length pre + 1)) with (Z.of_nat (length pre) + 1)%Z by lia.
    f_equal; ring.
Qed.

(** [evaluateBezier] is the Bernstein sum of degree [length - 1], per
    coordinate. *)
Lemma evaluateBezier_sum (points : list Point) (u : Qc) :
  evaluateBezier points u
  = mkPt (bernsteinSum (Z.of_nat (length points) - 1) u 0 (map x points))
         (bernsteinSum (Z.of_nat (length points) - 1) u 0 (map y points)).
Proof.
  unfold evaluateBezier.
  replace (Z.to_nat (Z.of_nat (length points) - 1 + 1)) with (length points) by lia.
  pose proof (evaluateBezier_loop (Z.of_nat (length points) - 1) u [] points (0, 0)) as H.
  cbn [app length] in H. rewrite H. cbn [fst snd Z.of_nat].
  rewrite !Qcplus_0_l. reflexivity.
Qed.

Lemma deCasteljau_S (fuel : nat) (points : list Point) (u : Qc) :
  deCasteljau (S fuel) points u
  = if (length points =? 1)%nat then Some (pointAt 0 points 0)
    else deCasteljau fuel (lerpLevel u points) u.
Proof. reflexivity. Qed.

Lemma bernstein_0_0 (u : Qc) : bernstein 0 0 u = 1.
Proof. unfold bernstein, binomial, Math_pow. simpl. ring. Qed.

Lemma deCasteljau_bernstein (m : nat) (points : list Point) (u : Qc) :
  length points = S m ->
  deCasteljau (S m) points u
  = Some (mkPt (bernsteinSum (Z.of_nat m) u 0 (map x points))
               (bernsteinSum (Z.of_nat m) u 0 (map y points))).
Proof.
  revert points. induction m as [|m IH]; intros points Hlen.
  - destruct points as [|[px py] [|? ?]]; try discriminate.
    cbn [deCasteljau length Nat.eqb pointAt nth map bernsteinSum x y Z.of_nat].
    rewrite bernstein_0_0. do 2 f_equal; ring.
  - rewrite deCasteljau_S, Hlen. cbn [Nat.eqb].
    rewrite IH by (rewrite lerpLevel_length; lia).
    rewrite lerpLevel_x, lerpLevel_y.
    rewrite !bernsteinSum_level by (rewrite length_map; exact Hlen).
    reflexivity.
Qed.

(** More fuel than the recursion needs does not change the value. *)
Lemma deCasteljau_fuel (fuel m : nat) (points : list Point) (u : Qc) :
  length points = S m -> (S m <= fuel)%nat ->
  deCasteljau fuel points u = deCasteljau (S m) points u.
Proof.
  revert fuel points. induction m as [|m IH]; intros fuel points Hlen Hfuel.
  - destruct fuel as [|fuel]; [lia|]. rewrite !deCasteljau_S, Hlen. reflexivity.
  - destruct fuel as [|fuel]; [lia|]. rewrite !deCasteljau_S, Hlen. cbn [Nat.eqb].
    apply IH; [rewrite lerpLevel_length; lia | lia].
Qed.

(** On the empty array the recursion never reaches its base case. *)
Lemma deCasteljau_empty (fuel : nat) (u : Qc) : deCasteljau fuel [] u = None.
Proof.
  induction fuel as [|fuel IH]; [reflexivity|].
  rewrite deCasteljau_S. cbn [length Nat.eqb].
  rewrite lerpLevel_short by (simpl; lia). exact IH.
Qed.

Lemma deCasteljau_returns (points : list Point) (u : Qc) (fuel : nat) :
  points <> [] ->
  (length points <= fuel)%nat ->
  deCasteljau fuel points u
  = Some (mkPt (bernsteinSum (Z.of_nat (length points) - 1) u 0 (map x points))
               (bernsteinSum (Z.of_nat (length points) - 1) u 0 (map y points))).
Proof.
  intros Hne Hfuel.
  destruct points as [|p rest]; [congruence|].
  rewrite (deCasteljau_fuel fuel (length rest)) by (simpl in *; lia).
  rewrite (deCasteljau_bernstein (length rest)) by reflexivity.
  cbn [length].
  replace (Z.of_nat (S (length rest)) - 1)%Z with (Z.of_nat (length rest)) by lia.
  reflexivity.
Qed.

(** C3. For every non-empty control polygon and every parameter [u] (in
    particular every [u] in [0,1]) the recursive de Casteljau evaluation
    returns, once the call stack may be as deep as the polygon is long, the
    very point that the Bernstein-basis evaluation [evaluateBezier]
    computes: the two agree exactly over the rationals.  (Over doubles
    they agree up to rounding only, see below.) *)
Theorem deCasteljau_eq_evaluateBezier (points : list Point) (u : Qc) (fuel : nat) :
  points <> [] ->
  (length points <= fuel)%nat ->
  deCasteljau fuel points u = Some (evaluateBezier points u).
Proof.
  intros Hne Hfuel.
  rewrite deCasteljau_returns by assumption.
  now rewrite evaluateBezier_sum.
Qed.

Lemma deCasteljau_eq_evaluateBezier_witness :
  let points := [mkPt 0 0; mkPt 1 (inZ 2); mkPt (inZ 3) (inZ 3); mkPt (inZ 4) 0] in
  points <> [] /\ (length points <= 4)%nat /\
  deCasteljau 4 points (Q2Qc (1 # 2)) = Some (evaluateBezier points (Q2Qc (1 # 2))).
Proof.
  intros points. split; [discriminate|]. split; [simpl; lia|].
  apply (deCasteljau_eq_evaluateBezier points (Q2Qc (1 # 2)) 4);
    [discriminate | simpl; lia].
Defined.

(** The same two evaluations over doubles.  For the quadratic polygon with [y] coordinates
    [2^53, 1, -2^53] at [u = 0.5] (every power of [u] and of [1 - u] is
    exact) [deCasteljau] returns [y = 0.25] and [evaluateBezier] returns
    [y = 0.5], the exact value: the first level of [deCasteljau] rounds
    [0.5 * 2^53 + 0.5 * 1] to [2^52].  The two differ by more than
    [1e-9]. *)
Lemma deCasteljau_binary64_differs :
  let points :=
    [mkPt 0 9007199254740992; mkPt 0 1; mkPt 0 (- 9007199254740992)]%float in
  Binary64.deCasteljau 3 points 0.5%float = Some (mkPt 0 0.25)%float /\
  Binary64.evaluateBezier points 0.5%float = (mkPt 0 0.5)%float /\
  (1 / 1000000000 <? abs (0.25 - 0.5))%float = true.
Proof.
  intros points. split; [|split]; vm_compute; reflexivity.
Qed.

(** C10. [deCasteljau] terminates on every non-empty control polygon, for
    every [u]: each recursive call is made on an array exactly one element
    shorter, so a polygon of [length points] points returns a point after
    [length points] calls (and with any deeper call stack the same point).
    The empty array is outside this: from it the recursion calls itself on
    the empty array again and no call stack is deep enough. *)
Theorem deCasteljau_terminates (points : list Point) (u : Qc) :
  points <> [] ->
  length (lerpLevel u points) = (length points - 1)%nat /\
  (exists p, forall fuel, (length points <= fuel)%nat ->
               deCasteljau fuel points u = Some p) /\
  (forall fuel, deCasteljau fuel [] u = None).
Proof.
  intros Hne. split; [apply lerpLevel_length|]. split.
  - eexists. intros fuel Hfuel. now apply deCasteljau_returns.
  - intros fuel. apply deCasteljau_empty.
Qed.

Lemma deCasteljau_terminates_witness :
  let points := [mkPt 0 0; mkPt 1 (inZ 2); mkPt (inZ 3) (inZ 3)] in
  points <> [] /\
  exists p, forall fuel, (length points <= fuel)%nat ->
    deCasteljau fuel points (Q2Qc (1 # 3)) = Some p.
Proof.
  intros points. split; [discriminate|].
  apply (deCasteljau_terminates points (Q2Qc (1 # 3))). discriminate.
Defined.

(* ================================================================= *)
(** * Conversion to the power basis *)

Lemma bernsteinSum_cons_nat (n i0 : nat) (u a0 : Qc) (rest : list Qc) :
  bernsteinSum (Z.of_nat n) u (Z.of_nat i0) (a0 :: rest)
  = a0 * (inN (choose n i0) * (1 - u) ^ (n - i0) * u ^ i0)
    + bernsteinSum (Z.of_nat n) u (Z.of_nat (S i0)) rest.
Proof.
  cbn [bernsteinSum]. rewrite bernstein_nat.
  replace (Z.of_nat i0 + 1)%Z with (Z.of_nat (S i0)) by lia. reflexivity.
Qed.

Lemma power_matrix_quadratic (c0 c1 c2 u : Qc) :
  exists M cs,
    bezierToPowerMatrix 2 = Ok M /\
    multiplyVector M [c0; c1; c2] = Ok cs /\
    polyEval cs u = bernsteinSum 2 u 0 [c0; c1; c2].
Proof.
  eexists; eexists. split; [reflexivity|]. split.
  - unfold multiplyVector. cbn [length negb Nat.eqb].
    rewrite pushLoop_map. cbn [Nat.sub seq map nth fold_left]. reflexivity.
  - change (bernsteinSum 2 u 0 [c0; c1; c2])
      with (bernsteinSum (Z.of_nat 2) u (Z.of_nat 0) [c0; c1; c2]).
    rewrite !bernsteinSum_cons_nat.
    unfold polyEval, inN.
    cbn [fold_left bernsteinSum choose Nat.sub Nat.add Qcpower Z.of_nat Pos.of_succ_nat Pos.succ].
    qc_ring.
Qed.

Lemma power_matrix_cubic (c0 c1 c2 c3 u : Qc) :
  exists M cs,
    bezierToPowerMatrix 3 = Ok M /\
    multiplyVector M [c0; c1; c2; c3] = Ok cs /\
    polyEval cs u = bernsteinSum 3 u 0 [c0; c1; c2; c3].
Proof.
  eexists; eexists. split; [reflexivity|]. split.
  - unfold multiplyVector. cbn [length negb Nat.eqb].
    rewrite pushLoop_map. cbn [Nat.sub seq map nth fold_left]. reflexivity.
  - change (bernsteinSum 3 u 0 [c0; c1; c2; c3])
      with (bernsteinSum (Z.of_nat 3) u (Z.of_nat 0) [c0; c1; c2; c3]).
    rewrite !bernsteinSum_cons_nat.
    unfold polyEval, inN.
    cbn [fold_left bernsteinSum choose Nat.sub Nat.add Qcpower Z.of_nat Pos.of_succ_nat Pos.succ].
    qc_ring.
Qed.

Lemma power_matrix_exact (n : Z) (coords : list Qc) (u : Qc) :
  (n = 2 \/ n = 3)%Z ->
  Z.of_nat (length coords) = (n + 1)%Z ->
  exists M cs,
    bezierToPowerMatrix n = Ok M /\
    multiplyVector M coords = Ok cs /\
    polyEval cs u = bernsteinSum n u 0 coords.
Proof.
  intros [-> | ->] Hlen.
  - destruct coords as [|c0 [|c1 [|c2 [|? ?]]]]; simpl in Hlen; try lia.
    apply power_matrix_quadratic.
  - destruct coords as [|c0 [|c1 [|c2 [|c3 [|? ?]]]]]; simpl in Hlen; try lia.
    apply power_matrix_cubic.
Qed.

Lemma bezierToPowerMatrix_unsupported (n : Z) :
  (n <> 2 /\ n <> 3)%Z -> bezierToPowerMatrix n = Throw (NotImplemented n).
Proof.
  intros [H2 H3]. unfold bezierToPowerMatrix.
  destruct (Z.eqb_spec n 2); [contradiction|].
  destruct (Z.eqb_spec n 3); [contradiction|]. reflexivity.
Qed.

(** C7. [bezierToPowerMatrix n] succeeds exactly for the degrees 2 and 3.
    For those it returns the matrix that converts Bezier coefficients to
    power-basis coefficients exactly (the polynomial with the converted
    coefficients is the Bernstein sum of the control coordinates), and
    [bezierToPolynomial] on a polygon of that degree returns the two
    coefficient arrays of the curve.  For every other [n] it throws the
    not-implemented error for [n], and so does [bezierToPolynomial] on every
    polygon whose degree [length - 1] is [n]. *)
Theorem bezierToPowerMatrix_degrees (n : Z) :
  ((n = 2 \/ n = 3)%Z ->
     (exists M, bezierToPowerMatrix n = Ok M /\
        forall coords u, Z.of_nat (length coords) = (n + 1)%Z ->
          exists cs, multiplyVector M coords = Ok cs /\
                     polyEval cs u = bernsteinSum n u 0 coords) /\
     (forall points, (Z.of_nat (length points) - 1)%Z = n ->
        exists xs ys, bezierToPolynomial points = Ok (xs, ys) /\
          forall u, evaluateBezier points u = mkPt (polyEval xs u) (polyEval ys u))) /\
  ((n <> 2 /\ n <> 3)%Z ->
     bezierToPowerMatrix n = Throw (NotImplemented n) /\
     (forall points, (Z.of_nat (length points) - 1)%Z = n ->
        bezierToPolynomial points = Throw (NotImplemented n))).
Proof.
  split.
  - intros Hn. split.
    + assert (exists M, bezierToPowerMatrix n = Ok M) as [M HM]
        by (destruct Hn as [-> | ->]; eexists; reflexivity).
      exists M. split; [exact HM|]. intros coords u Hlen.
      destruct (power_matrix_exact n coords u Hn Hlen) as (M' & cs & HM' & Hmv & Hpoly).
      rewrite HM in HM'. injection HM' as <-. now exists cs.
    + intros points Hdeg.
      assert (Hx : Z.of_nat (length (map x points)) = (n + 1)%Z)
        by (rewrite length_map; lia).
      assert (Hy : Z.of_nat (length (map y points)) = (n + 1)%Z)
        by (rewrite length_map; lia).
      destruct (power_matrix_exact n _ 0 Hn Hx) as (M & xs & HM & Hxs & _).
      destruct (power_matrix_exact n _ 0 Hn Hy) as (M' & ys & HM' & Hys & _).
      rewrite HM in HM'. injection HM' as <-.
      exists xs, ys. split.
      * unfold bezierToPolynomial. rewrite Hdeg, HM. cbn [rbind].
        rewrite Hxs, Hys. reflexivity.
      * intros u. rewrite evaluateBezier_sum, Hdeg.
        destruct (power_matrix_exact n _ u Hn Hx) as (M1 & xs' & HM1 & Hxs' & Hpx).
        destruct (power_matrix_exact n _ u Hn Hy) as (M2 & ys' & HM2 & Hys' & Hpy).
        rewrite HM in HM1, HM2. injection HM1 as <-. injection HM2 as <-.
        rewrite Hxs in Hxs'. rewrite Hys in Hys'.
        injection Hxs' as <-. injection Hys' as <-.
        now rewrite Hpx, Hpy.
  - intros Hn. split; [now apply bezierToPowerMatrix_unsupported|].
    intros points Hdeg. unfold bezierToPolynomial.
    rewrite Hdeg, bezierToPowerMatrix_unsupported by assumption. reflexivity.
Qed.

Lemma bezierToPowerMatrix_degrees_witness :
  (exists M, bezierToPowerMatrix 3 = Ok M) /\
  bezierToPowerMatrix 4 = Throw (NotImplemented 4) /\
  bezierToPolynomial [mkPt 0 0; mkPt 1 1] = Throw (NotImplemented 1).
Proof.
  split; [|split].
  - destruct (proj1 (bezierToPowerMatrix_degrees 3) (or_intror eq_refl))
      as [[M [HM _]] _].
    exists M. exact HM.
  - apply (proj2 (bezierToPowerMatrix_degrees 4)). split; discriminate.
  - apply (proj2 (bezierToPowerMatrix_degrees 1)); [split; discriminate | reflexivity].
Defined.

(* ================================================================= *)
(** * Uniform knot vectors *)

Lemma get_nat (a : list Qc) (i : nat) : get a (Z.of_nat i) = nth_error a i.
Proof.
  unfold get. destruct (Z.ltb_spec (Z.of_nat i) 0); [lia|]. now rewrite Nat2Z.id.
Qed.

Lemma get_nat_succ (a : list Qc) (i : nat) : get a (Z.of_nat i + 1) = nth_error a (S i).
Proof. replace (Z.of_nat i + 1)%Z with (Z.of_nat (S i)) by lia. apply get_nat. Qed.

Lemma map_const_seq {A : Type} (v : A) (lo len : nat) :
  map (fun _ : nat => v) (seq lo len) = repeat v len.
Proof.
  revert lo. induction len as [|len IH]; intros lo; simpl; [reflexivity|].
  now rewrite IH.
Qed.

Lemma seq_offset (off lo len : nat) :
  map (fun i => (i + off)%nat) (seq lo len) = seq (lo + off) len.
Proof.
  revert lo. induction len as [|len IH]; intros lo; simpl; [reflexivity|].
  now rewrite IH.
Qed.

(** The three loops of [generateUniformKnots], as one expression: this
    holds for every [n] and [k]. *)
Lemma generateUniformKnots_parts (n k : nat) :
  generateUniformKnots n k
  = repeat 0 (k + 1)
    ++ map (fun i => inN i / inN (n - k)) (seq 1 (n - k - 1))
    ++ repeat 1 (k + 1).
Proof.
  unfold generateUniformKnots. rewrite !pushLoop_from. cbn [app].
  rewrite <- app_assoc, !map_const_seq. do 2 f_equal.
  replace (Z.to_nat (Z.of_nat n - Z.of_nat k) - 1)%nat with (n - k - 1)%nat by lia.
  apply map_ext_in. intros i Hi. apply in_seq in Hi.
  unfold inN. do 2 f_equal. lia.
Qed.

Lemma Qc_this_le (p q : Qc) : (this p <= this q)%Q <-> p <= q.
Proof. reflexivity. Qed.

Lemma inN_le (i j : nat) : (i <= j)%nat -> inN i <= inN j.
Proof.
  intros H. unfold Qcle, inN, inZ. rewrite !Q2Qc_this, <- Zle_Qle. lia.
Qed.

Lemma inN_div_le (i j den : nat) :
  (i <= j)%nat -> inN i / inN den <= inN j / inN den.
Proof.
  intros H. unfold Qcdiv. apply Qcmult_le_compat_r; [now apply inN_le|].
  unfold Qcle, Qcinv. rewrite !Q2Qc_this. apply Qinv_le_0_compat.
  change (0 <= inN den). unfold inN. rewrite <- inZ_0.
  change (inZ 0) with (inN 0). apply inN_le. lia.
Qed.

Lemma inN_0 : inN 0 = 0.
Proof. unfold inN. simpl. apply inZ_0. Qed.

Lemma inN_div_self (den : nat) : (0 < den)%nat -> inN den / inN den = 1.
Proof.
  intros H. destruct den as [|den]; [lia|]. field. apply inN_S_neq0.
Qed.

(** For [k < n] the [i]-th uniform knot is [min (i - k) (n - k) / (n - k)]. *)
Lemma generateUniformKnots_closed (n k : nat) :
  (k < n)%nat ->
  generateUniformKnots n k
  = map (fun i => inN (Nat.min (i - k) (n - k)) / inN (n - k)) (seq 0 (n + k + 1)).
Proof.
  intros Hkn. rewrite generateUniformKnots_parts.
  replace (n + k + 1)%nat with ((k + 1) + ((n - k - 1) + (k + 1)))%nat by lia.
  rewrite (seq_app (k + 1) (n - k - 1 + (k + 1)) 0).
  rewrite (seq_app (n - k - 1) (k + 1) (0 + (k + 1))).
  rewrite !map_app. f_equal; [|f_equal].
  - rewrite <- (map_const_seq 0 0 (k + 1)). apply map_ext_in.
    intros i Hi. apply in_seq in Hi.
    replace (i - k)%nat with 0%nat by lia. rewrite Nat.min_0_l, inN_0.
    unfold Qcdiv. ring.
  - replace (0 + (k + 1))%nat with (1 + k)%nat by lia.
    rewrite <- (seq_offset k 1 (n - k - 1)), map_map.
    apply map_ext_in. intros i Hi. apply in_seq in Hi.
    do 2 f_equal. lia.
  - rewrite <- (map_const_seq 1 (0 + (k + 1) + (n - k - 1)) (k + 1)). apply map_ext_in.
    intros i Hi. apply in_seq in Hi.
    rewrite Nat.min_r by lia. rewrite inN_div_self by lia. reflexivity.
Qed.

Lemma nonDecreasingFrom_true (idxs : list nat) (knots : KnotVector) :
  (forall i, In i idxs ->
     exists p q, nth_error knots i = Some p /\ nth_error knots (S i) = Some q /\ p <= q) ->
  nonDecreasingFrom idxs knots = true.
Proof.
  induction idxs as [|i idxs IH]; intros H; [reflexivity|].
  cbn [nonDecreasingFrom].
  destruct (H i (or_introl eq_refl)) as (p & q & Hp & Hq & Hle).
  rewrite get_nat_succ, get_nat, Hp, Hq. cbn [jlt].
  destruct (Qc_ltb q p) eqn:E.
  - apply Qc_ltb_lt in E. now apply Qcle_not_lt in Hle.
  - apply IH. intros j Hj. apply H. now right.
Qed.

Lemma nth_error_map_seq {A : Type} (f : nat -> A) (len i : nat) :
  (i < len)%nat -> nth_error (map f (seq 0 len)) i = Some (f i).
Proof.
  intros H. rewrite nth_error_map, nth_error_seq.
  destruct (Nat.ltb_spec i len); [reflexivity | lia].
Qed.

(** C6, as the code has it.  For a degree [k] below the number [n] of
    control points, [generateUniformKnots n k] is [k+1] zeros, the interior
    knots [i/(n-k)] for [i = 1 .. n-k-1], then [k+1] ones; it has
    [n+k+1] entries, is non-decreasing, and [validateKnots] accepts it. *)
Theorem generateUniformKnots_clamped (n k : nat) :
  (k < n)%nat ->
  generateUniformKnots n k
  = repeat 0 (k + 1)
    ++ map (fun i => inN i / inN (n - k)) (seq 1 (n - k - 1))
    ++ repeat 1 (k + 1) /\
  length (generateUniformKnots n k) = (n + k + 1)%nat /\
  (forall i, (i + 1 < length (generateUniformKnots n k))%nat ->
     nth i (generateUniformKnots n k) 0 <= nth (i + 1) (generateUniformKnots n k) 0) /\
  validateKnots (generateUniformKnots n k) n k = true.
Proof.
  intros Hkn. split; [apply generateUniformKnots_parts|].
  assert (Hlen : length (generateUniformKnots n k) = (n + k + 1)%nat).
  { rewrite generateUniformKnots_parts, !length_app, !repeat_length,
      length_map, length_seq. lia. }
  assert (Hnth : forall i, (i < n + k + 1)%nat ->
            nth_error (generateUniformKnots n k) i
            = Some (inN (Nat.min (i - k) (n - k)) / inN (n - k))).
  { intros i Hi. rewrite generateUniformKnots_closed by assumption.
    now apply (nth_error_map_seq
                 (fun j => inN (Nat.min (j - k) (n - k)) / inN (n - k))). }
  split; [exact Hlen|]. split.
  - intros i Hi. rewrite Hlen in Hi.
    rewrite (nth_error_nth _ _ 0 (Hnth i ltac:(lia))).
    rewrite (nth_error_nth _ _ 0 (Hnth (i + 1)%nat ltac:(lia))).
    apply inN_div_le. lia.
  - unfold validateKnots. rewrite Hlen, Nat.eqb_refl. cbn [negb].
    apply nonDecreasingFrom_true. intros i Hi. apply in_seq in Hi.
    do 2 eexists. split; [apply Hnth; lia|]. split; [apply Hnth; lia|].
    apply inN_div_le. lia.
Qed.

Lemma generateUniformKnots_clamped_witness :
  (3 < 5)%nat /\
  length (generateUniformKnots 5 3) = 9%nat /\
  validateKnots (generateUniformKnots 5 3) 5 3 = true /\
  generateUniformKnots 5 3
  = repeat 0 4 ++ map (fun i => inN i / inN 2) (seq 1 1) ++ repeat 1 4.
Proof.
  assert (H : (3 < 5)%nat) by lia.
  destruct (generateUniformKnots_clamped 5 3 H) as (Hparts & Hlen & _ & Hvalid).
  split; [exact H|]. split; [exact Hlen|]. split; [exact Hvalid|]. exact Hparts.
Defined.

(** With no more control points than the degree the vector is longer than
    [n+k+1]: two control points and degree three give the eight knots
    [0,0,0,0,1,1,1,1], not six, and [validateKnots] rejects them. *)
Lemma generateUniformKnots_too_few_points :
  length (generateUniformKnots 2 3) = 8%nat /\
  length (generateUniformKnots 2 3) <> (2 + 3 + 1)%nat /\
  validateKnots (generateUniformKnots 2 3) 2 3 = false.
Proof.
  split; [reflexivity|]. split; [|reflexivity].
  intros H. vm_compute in H. discriminate H.
Qed.

(* ================================================================= *)
(** * Cox-de Boor recursion: divisions and definedness *)

Lemma value_tbind {A B : Type} (m : traced A) (f : A -> traced B) :
  value (tbind m f) = value (f (value m)).
Proof. reflexivity. Qed.

Lemma divisors_tbind {A B : Type} (m : traced A) (f : A -> traced B) :
  divisors (tbind m f) = divisors m ++ divisors (f (value m)).
Proof. reflexivity. Qed.

Lemma jnonzero_true (dv : jsnum) : jnonzero dv = true -> nonzeroDivisor dv.
Proof.
  unfold nonzeroDivisor. intros H ->. unfold jnonzero, jeq, Fin in H.
  rewrite (proj2 (Qc_eqb_eq 0 0) eq_refl) in H. discriminate.
Qed.

Lemma jnonzero_Fin (q : Qc) : jnonzero (Fin q) = negb (Qc_eqb q 0).
Proof. reflexivity. Qed.

Lemma coxDeBoor_S (i k : nat) (u : Qc) (knots : KnotVector) :
  coxDeBoor i (S k) u knots
  = let* t1 := term1 i (S k) u knots (coxDeBoor i k u knots) in
    let* t2 := term2 i (S k) u knots (coxDeBoor (i + 1) k u knots) in
    tret (jadd t1 t2).
Proof. reflexivity. Qed.

Lemma coxDeBoor_0_divisors (i : nat) (u : Qc) (knots : KnotVector) :
  divisors (coxDeBoor i 0 u knots) = [].
Proof.
  cbn [coxDeBoor].
  destruct (_ || _); reflexivity.
Qed.

Lemma coxDeBoor_0_value (i : nat) (u : Qc) (knots : KnotVector) :
  value (coxDeBoor i 0 u knots) = Fin 1 \/ value (coxDeBoor i 0 u knots) = Fin 0.
Proof.
  cbn [coxDeBoor].
  destruct (_ || _); [left | right]; reflexivity.
Qed.

Lemma term1_divisors (i k : nat) (u : Qc) (knots : KnotVector) (rec : traced jsnum) :
  Forall nonzeroDivisor (divisors rec) ->
  Forall nonzeroDivisor (divisors (term1 i k u knots rec)).
Proof.
  intros Hrec. unfold term1.
  destruct (jnonzero _) eqn:E; [|constructor].
  rewrite !divisors_tbind. cbn [jdiv divisors snd tret]. rewrite app_nil_r.
  constructor; [now apply jnonzero_true | exact Hrec].
Qed.

Lemma term2_divisors (i k : nat) (u : Qc) (knots : KnotVector) (rec : traced jsnum) :
  Forall nonzeroDivisor (divisors rec) ->
  Forall nonzeroDivisor (divisors (term2 i k u knots rec)).
Proof.
  intros Hrec. unfold term2.
  destruct (jnonzero _) eqn:E; [|constructor].
  rewrite !divisors_tbind. cbn [jdiv divisors snd tret]. rewrite app_nil_r.
  constructor; [now apply jnonzero_true | exact Hrec].
Qed.

Lemma coxDeBoor_divisors (i k : nat) (u : Qc) (knots : KnotVector) :
  Forall nonzeroDivisor (divisors (coxDeBoor i k u knots)).
Proof.
  revert i. induction k as [|k IH]; intros i.
  - rewrite coxDeBoor_0_divisors. constructor.
  - rewrite coxDeBoor_S, !divisors_tbind. cbn [tret divisors snd].
    rewrite app_nil_r. apply Forall_app. split.
    + apply term1_divisors, IH.
    + apply term2_divisors, IH.
Qed.

Lemma get_in_range (knots : KnotVector) (i : Z) :
  (0 <= i < Z.of_nat (length knots))%Z -> exists t, get knots i = Fin t.
Proof.
  intros H. unfold get. destruct (Z.ltb_spec i 0); [lia|].
  destruct (nth_error knots (Z.to_nat i)) as [t|] eqn:E.
  - now exists t.
  - apply nth_error_None in E. lia.
Qed.

Lemma jquot_finite (p q : Qc) : q <> 0 -> jquot (Fin p) (Fin q) = Fin (p / q).
Proof.
  intros H. unfold jquot, Fin. apply Qc_eqb_neq in H. now rewrite H.
Qed.

Lemma term1_finite (i k : nat) (u : Qc) (knots : KnotVector) (rec : traced jsnum) :
  (Z.of_nat i + Z.of_nat k < Z.of_nat (length knots))%Z ->
  (exists r, value rec = Fin r) ->
  exists q, value (term1 i k u knots rec) = Fin q.
Proof.
  intros Hlen [r Hr]. unfold term1.
  destruct (get_in_range knots (Z.of_nat i + Z.of_nat k)) as [tk Htk]; [lia|].
  destruct (get_in_range knots (Z.of_nat i)) as [ti Hti]; [lia|].
  rewrite Htk, Hti. cbn [jsub jlift2 Fin]. change (Some (tk - ti)) with (Fin (tk - ti)).
  rewrite jnonzero_Fin. destruct (Qc_eqb (tk - ti) 0) eqn:E; cbn [negb].
  - now exists 0.
  - rewrite !value_tbind. cbn [jdiv value fst tret]. rewrite Hr.
    apply Qc_eqb_neq in E. change (Some (u - ti)) with (Fin (u - ti)).
    rewrite jquot_finite by assumption. eexists. reflexivity.
Qed.

Lemma term2_finite (i k : nat) (u : Qc) (knots : KnotVector) (rec : traced jsnum) :
  (Z.of_nat i + Z.of_nat k + 1 < Z.of_nat (length knots))%Z ->
  (exists r, value rec = Fin r) ->
  exists q, value (term2 i k u knots rec) = Fin q.
Proof.
  intros Hlen [r Hr]. unfold term2.
  destruct (get_in_range knots (Z.of_nat i + Z.of_nat k + 1)) as [tk Htk]; [lia|].
  destruct (get_in_range knots (Z.of_nat i + 1)) as [ti Hti]; [lia|].
  rewrite Htk, Hti. cbn [jsub jlift2 Fin]. change (Some (tk - ti)) with (Fin (tk - ti)).
  rewrite jnonzero_Fin. destruct (Qc_eqb (tk - ti) 0) eqn:E; cbn [negb].
  - now exists 0.
  - rewrite !value_tbind. cbn [jdiv value fst tret]. rewrite Hr.
    apply Qc_eqb_neq in E. change (Some (tk - u)) with (Fin (tk - u)).
    rewrite jquot_finite by assumption. eexists. reflexivity.
Qed.

Lemma coxDeBoor_finite (i k : nat) (u : Qc) (knots : KnotVector) :
  (i + k + 1 < length knots)%nat ->
  exists q, value (coxDeBoor i k u knots) = Fin q.
Proof.
  revert i. induction k as [|k IH]; intros i Hlen.
  - destruct (coxDeBoor_0_value i u knots) as [H|H]; rewrite H; eexists; reflexivity.
  - rewrite coxDeBoor_S, !value_tbind. cbn [tret value fst].
    destruct (term1_finite i (S k) u knots (coxDeBoor i k u knots)) as [q1 H1];
      [lia | apply IH; lia |].
    destruct (term2_finite i (S k) u knots (coxDeBoor (i + 1) k u knots)) as [q2 H2];
      [lia | apply IH; lia |].
    rewrite H1, H2. eexists. reflexivity.
Qed.

Lemma term1_skipped (i k : nat) (u : Qc) (knots : KnotVector) (rec : traced jsnum) :
  jsub (get knots (Z.of_nat i + Z.of_nat k)) (get knots (Z.of_nat i)) = Fin 0 ->
  term1 i k u knots rec = tret (Fin 0).
Proof.
  intros H. unfold term1. rewrite H. unfold jnonzero, jeq, Fin.
  now rewrite (proj2 (Qc_eqb_eq 0 0) eq_refl).
Qed.

Lemma term2_skipped (i k : nat) (u : Qc) (knots : KnotVector) (rec : traced jsnum) :
  jsub (get knots (Z.of_nat i + Z.of_nat k + 1)) (get knots (Z.of_nat i + 1)) = Fin 0 ->
  term2 i k u knots rec = tret (Fin 0).
Proof.
  intros H. unfold term2. rewrite H. unfold jnonzero, jeq, Fin.
  now rewrite (proj2 (Qc_eqb_eq 0 0) eq_refl).
Qed.

(** C8. In the recursive case of [coxDeBoor] the result is the sum of two
    terms; a term whose denominator ([knots[i+k] - knots[i]], respectively
    [knots[i+k+1] - knots[i+1]]) is zero is the number [0] and performs no
    division and no recursive call.  Hence no run of [coxDeBoor], on any
    index, degree, parameter and knot vector, divides by zero; and when the
    knot vector is long enough to index ([i + k + 1 < length]) the result is
    a finite number. *)
Theorem coxDeBoor_guarded (i k : nat) (u : Qc) (knots : KnotVector) :
  coxDeBoor i (S k) u knots
  = (let* t1 := term1 i (S k) u knots (coxDeBoor i k u knots) in
     let* t2 := term2 i (S k) u knots (coxDeBoor (i + 1) k u knots) in
     tret (jadd t1 t2)) /\
  (forall rec,
     jsub (get knots (Z.of_nat i + Z.of_nat k)) (get knots (Z.of_nat i)) = Fin 0 ->
     term1 i k u knots rec = tret (Fin 0)) /\
  (forall rec,
     jsub (get knots (Z.of_nat i + Z.of_nat k + 1)) (get knots (Z.of_nat i + 1)) = Fin 0 ->
     term2 i k u knots rec = tret (Fin 0)) /\
  Forall nonzeroDivisor (divisors (coxDeBoor i k u knots)) /\
  ((i + k + 1 < length knots)%nat ->
   exists q, value (coxDeBoor i k u knots) = Fin q).
Proof.
  split; [apply coxDeBoor_S|].
  split; [intros rec; apply term1_skipped|].
  split; [intros rec; apply term2_skipped|].
  split; [apply coxDeBoor_divisors | apply coxDeBoor_finite].
Qed.

Lemma coxDeBoor_guarded_witness :
  (1 + 2 + 1 < length [0; 0; 0; 1; 1; 1])%nat /\
  exists q, value (coxDeBoor 1 2 (Q2Qc (1 # 2)) [0; 0; 0; 1; 1; 1]) = Fin q.
Proof.
  split; [simpl; lia|].
  apply (coxDeBoor_guarded 1 2 (Q2Qc (1 # 2)) [0; 0; 0; 1; 1; 1]). simpl; lia.
Defined.

(* ================================================================= *)
(** * Loops over traced computations *)

Lemma forEach_divisors {St : Type} (P : jsnum -> Prop) (idxs : list nat)
      (body : nat -> St -> traced St) (s : St) :
  (forall i s', In i idxs -> Forall P (divisors (body i s'))) ->
  Forall P (divisors (forEach idxs body s)).
Proof.
  revert s. induction idxs as [|i idxs IH]; intros s H.
  - constructor.
  - cbn [forEach]. rewrite divisors_tbind. apply Forall_app. split.
    + apply H. now left.
    + apply IH. intros j s' Hj. apply H. now right.
Qed.

Lemma forEach_invariant {St : Type} (Inv : St -> Prop) (idxs : list nat)
      (body : nat -> St -> traced St) (s : St) :
  Inv s ->
  (forall i s', In i idxs -> Inv s' -> Inv (value (body i s'))) ->
  Inv (value (forEach idxs body s)).
Proof.
  revert s. induction idxs as [|i idxs IH]; intros s Hs H.
  - exact Hs.
  - cbn [forEach]. rewrite value_tbind. apply IH.
    + apply H; [now left | exact Hs].
    + intros j s' Hj. apply H. now right.
Qed.

(** A loop that pushes one element per index builds the mapped list. *)
Lemma forEach_push {A : Type} (idxs : list nat) (step : nat -> traced A) (acc : list A) :
  value (forEach idxs (fun i out => let* v := step i in tret (out ++ [v])) acc)
  = acc ++ map (fun i => value (step i)) idxs.
Proof.
  revert acc. induction idxs as [|i idxs IH]; intros acc.
  - cbn. now rewrite app_nil_r.
  - cbn [forEach map]. rewrite value_tbind, IH, value_tbind.
    cbn [tret value fst]. now rewrite <- app_assoc.
Qed.

Lemma forEach_push_divisors {A : Type} (idxs : list nat) (step : nat -> traced A)
      (acc : list A) :
  divisors (forEach idxs (fun i out => let* v := step i in tret (out ++ [v])) acc)
  = concat (map (fun i => divisors (step i)) idxs).
Proof.
  revert acc. induction idxs as [|i idxs IH]; intros acc.
  - reflexivity.
  - cbn [forEach map concat]. rewrite divisors_tbind, IH, divisors_tbind.
    cbn [tret divisors snd]. now rewrite app_nil_r.
Qed.

Lemma forEach_ext {St : Type} (idxs : list nat) (body body' : nat -> St -> traced St)
      (s : St) :
  (forall i s', body i s' = body' i s') ->
  forEach idxs body s = forEach idxs body' s.
Proof.
  intros H. revert s. induction idxs as [|i idxs IH]; intros s; [reflexivity|].
  cbn [forEach]. rewrite H. unfold tbind. now rewrite !IH.
Qed.

(* ================================================================= *)
(** * Derivative of a B-spline *)

Lemma slice_interior {A : Type} (l : list A) : slice 1 (-1) l = removelast (tl l).
Proof.
  unfold slice. cbn [Z.ltb Z.compare].
  destruct l as [|a0 l].
  - reflexivity.
  - cbn [tl length].
    replace (Z.min 1 (Z.of_nat (S (length l)))) with 1%Z by lia.
    replace (Z.max (Z.of_nat (S (length l)) + -1) 0) with (Z.of_nat (length l)) by lia.
    change (Z.to_nat 1) with 1%nat. cbn [skipn].
    replace (Z.to_nat (Z.of_nat (length l) - 1)) with (pred (length l)) by lia.
    symmetry. apply removelast_firstn_len.
Qed.

Lemma derivative_loop (controlPoints : list (Pt jsnum)) (degree len : nat)
      (knots : KnotVector) :
  forLoop 0 len (fun i (derivCtrlPts : list (Pt jsnum)) =>
    let zi := Z.of_nat i in
    let* factor :=
      jdiv (Fin (inN degree))
           (jsub (get knots (zi + Z.of_nat degree + 1)) (get knots (zi + 1))) in
    tret (derivCtrlPts ++
          [mkPt (jmul factor (jsub (x (pointAt None controlPoints (i + 1)))
                                   (x (pointAt None controlPoints i))))
                (jmul factor (jsub (y (pointAt None controlPoints (i + 1)))
                                   (y (pointAt None controlPoints i))))]))
    []
  = (map (derivativeControlPoint controlPoints degree knots) (seq 0 len),
     map (derivativeDivisor degree knots) (seq 0 len)).
Proof.
  unfold forLoop. rewrite Nat.sub_0_r.
  set (step := fun i : nat =>
         (derivativeControlPoint controlPoints degree knots i,
          [derivativeDivisor degree knots i]) : traced (Pt jsnum)).
  rewrite (forEach_ext _ _ (fun i out => let* v := step i in tret (out ++ [v])))
    by reflexivity.
  rewrite (surjective_pairing (forEach _ _ _)).
  change (fst ?m) with (value m). change (snd ?m) with (divisors m).
  rewrite forEach_push, forEach_push_divisors. cbn [app]. subst step. f_equal.
  generalize (seq 0 len). intros l.
  induction l as [|i l IH]; [reflexivity|].
  cbn [map concat divisors snd app] in *. now rewrite IH.
Qed.

Lemma bsplineDerivative_S (controlPoints : list (Pt jsnum)) (d : nat) (u : Qc)
      (knots : KnotVector) :
  bsplineDerivative controlPoints (S d) u knots
  = let* derivCtrlPts :=
      (derivativeControlPoints controlPoints (S d) knots,
       map (derivativeDivisor (S d) knots) (seq 0 (length controlPoints - 1))) in
    evaluateBSpline derivCtrlPts d u (interiorKnots knots).
Proof.
  unfold bsplineDerivative. cbn [Nat.leb]. rewrite derivative_loop, slice_interior.
  replace (Z.to_nat (Z.of_nat (length controlPoints) - 1))
    with (length controlPoints - 1)%nat by lia.
  cbn [Nat.sub]. rewrite Nat.sub_0_r. reflexivity.
Qed.

(** C5. For a degree [d+1 >= 1], [bsplineDerivative] returns what
    [evaluateBSpline] returns at degree [d] on the control points
    [D_i = degree / (knots[i+degree+1] - knots[i+1]) * (P[i+1] - P[i])],
    [i = 0 .. n-1], over the knot vector without its first and last knot;
    for degree [0] it returns [(0,0)] whatever the parameter, the control
    points and the knots are, and divides by nothing. *)
Theorem bsplineDerivative_spec (controlPoints : list (Pt jsnum)) (d : nat) (u : Qc)
        (knots : KnotVector) :
  value (bsplineDerivative controlPoints (S d) u knots)
  = value (evaluateBSpline (derivativeControlPoints controlPoints (S d) knots)
                           d u (interiorKnots knots)) /\
  bsplineDerivative controlPoints 0 u knots = tret (mkPt (Fin 0) (Fin 0)).
Proof.
  split; [|reflexivity].
  rewrite bsplineDerivative_S. apply value_tbind.
Qed.

Lemma evaluateBSpline_divisors (controlPoints : list (Pt jsnum)) (degree : nat) (u : Qc)
      (knots : KnotVector) :
  Forall nonzeroDivisor (divisors (evaluateBSpline controlPoints degree u knots)).
Proof.
  unfold evaluateBSpline. rewrite divisors_tbind. cbn [tret divisors snd].
  rewrite app_nil_r. unfold forLoop. apply forEach_divisors.
  intros i xy _. rewrite divisors_tbind. cbn [tret divisors snd].
  rewrite app_nil_r. apply coxDeBoor_divisors.
Qed.

Lemma pointAt_finite (pts : list (Pt jsnum)) (i : nat) :
  Forall finitePoint pts -> (i < length pts)%nat -> finitePoint (pointAt None pts i).
Proof.
  intros Hall Hi. rewrite Forall_forall in Hall. apply Hall.
  unfold pointAt. now apply nth_In.
Qed.

Lemma evaluateBSpline_finite (controlPoints : list (Pt jsnum)) (degree : nat) (u : Qc)
      (knots : KnotVector) :
  Forall finitePoint controlPoints ->
  (forall i, (i < length controlPoints)%nat ->
     exists q, value (coxDeBoor i degree u knots) = Fin q) ->
  finitePoint (value (evaluateBSpline controlPoints degree u knots)).
Proof.
  intros Hpts Hbasis. unfold evaluateBSpline. rewrite value_tbind.
  cbn [tret value fst].
  assert (H : exists sx sy,
             value (forLoop 0 (length controlPoints) (fun i (xy : jsnum * jsnum) =>
               let* basis := coxDeBoor i degree u knots in
               tret (jadd (fst xy) (jmul (x (pointAt None controlPoints i)) basis),
                     jadd (snd xy) (jmul (y (pointAt None controlPoints i)) basis)))
               (Fin 0, Fin 0)) = (Fin sx, Fin sy)).
  { unfold forLoop.
    apply (forEach_invariant (fun xy => exists sx sy, xy = (Fin sx, Fin sy))).
    - now exists 0, 0.
    - intros i xy Hi (sx & sy & ->). apply in_seq in Hi.
      destruct (Hbasis i ltac:(lia)) as [q Hq].
      destruct (pointAt_finite controlPoints i Hpts ltac:(lia)) as (px & py & Hp).
      rewrite value_tbind, Hq, Hp. cbn. eexists; eexists; reflexivity. }
  destruct H as (sx & sy & ->). now exists sx, sy.
Qed.

Lemma interiorKnots_length (knots : KnotVector) :
  length (interiorKnots knots) = (length knots - 2)%nat.
Proof.
  unfold interiorKnots. rewrite removelast_firstn_len, length_firstn.
  destruct knots as [|t0 knots]; simpl; lia.
Qed.

Lemma jlt_true (a b : jsnum) :
  jlt a b = true -> exists p q, a = Fin p /\ b = Fin q /\ p < q.
Proof.
  destruct a as [p|], b as [q|]; cbn; try discriminate.
  intros H. exists p, q. repeat split. now apply Qc_ltb_lt.
Qed.

Lemma derivativeDivisor_increasing (degree : nat) (knots : KnotVector) (i : nat) :
  jlt (get knots (Z.of_nat i + 1)) (get knots (Z.of_nat i + Z.of_nat degree + 1)) = true ->
  exists dv, derivativeDivisor degree knots i = Fin dv /\ dv <> 0.
Proof.
  intros H. apply jlt_true in H. destruct H as (p & q & Hp & Hq & Hlt).
  unfold derivativeDivisor. rewrite Hp, Hq. exists (q - p). split; [reflexivity|].
  intros E. apply Qclt_not_eq in Hlt. apply Hlt.
  rewrite <- (Qcplus_0_l p), <- E. ring.
Qed.

Lemma bsplineDerivative_divisors (controlPoints : list (Pt jsnum)) (d : nat) (u : Qc)
      (knots : KnotVector) :
  divisors (bsplineDerivative controlPoints (S d) u knots)
  = map (derivativeDivisor (S d) knots) (seq 0 (length controlPoints - 1))
    ++ divisors (evaluateBSpline (derivativeControlPoints controlPoints (S d) knots)
                                 d u (interiorKnots knots)).
Proof. rewrite bsplineDerivative_S. apply divisors_tbind. Qed.

(** C9. For a degree [d+1 >= 1], [bsplineDerivative] divides by every
    [knots[i+degree+1] - knots[i+1]], [i = 0 .. n-1], whatever its value:
    there is no guard.  If [knots[i+1] < knots[i+degree+1]] for each of
    those [i], no division of the run has a zero divisor, the divisions
    inside the basis recursion being guarded; if moreover the knots reach
    as far as a valid knot vector does and the control points are finite,
    the derivative is a finite point. *)
Theorem bsplineDerivative_divisions (controlPoints : list (Pt jsnum)) (d : nat) (u : Qc)
        (knots : KnotVector) :
  (forall i, (i < length controlPoints - 1)%nat ->
     In (derivativeDivisor (S d) knots i)
        (divisors (bsplineDerivative controlPoints (S d) u knots))) /\
  ((forall i, (i < length controlPoints - 1)%nat ->
      jlt (get knots (Z.of_nat i + 1))
          (get knots (Z.of_nat i + Z.of_nat (S d) + 1)) = true) ->
   Forall nonzeroDivisor (divisors (bsplineDerivative controlPoints (S d) u knots)) /\
   ((length controlPoints + S d + 1 <= length knots)%nat ->
    Forall finitePoint controlPoints ->
    finitePoint (value (bsplineDerivative controlPoints (S d) u knots)))).
Proof.
  split.
  - intros i Hi. rewrite bsplineDerivative_divisors. apply in_or_app. left.
    apply in_map. apply in_seq. lia.
  - intros Hpre. split.
    + rewrite bsplineDerivative_divisors. apply Forall_app. split.
      * apply Forall_forall. intros dv Hdv. apply in_map_iff in Hdv.
        destruct Hdv as (i & <- & Hi). apply in_seq in Hi.
        destruct (derivativeDivisor_increasing (S d) knots i) as (dv & Hdv & Hnz);
          [apply Hpre; lia|].
        rewrite Hdv. intros E. injection E as E. contradiction.
      * apply evaluateBSpline_divisors.
    + intros Hlen Hfin. rewrite bsplineDerivative_S, value_tbind. cbn [value fst].
      apply evaluateBSpline_finite.
      * unfold derivativeControlPoints. apply Forall_forall.
        intros p Hp. apply in_map_iff in Hp. destruct Hp as (i & <- & Hi).
        apply in_seq in Hi.
        destruct (derivativeDivisor_increasing (S d) knots i) as (dv & Hdv & Hnz);
          [apply Hpre; lia|].
        destruct (pointAt_finite controlPoints i Hfin ltac:(lia)) as (ax & ay & Ha).
        destruct (pointAt_finite controlPoints (i + 1) Hfin ltac:(lia)) as (bx & by_ & Hb).
        unfold derivativeControlPoint. rewrite Hdv, Ha, Hb.
        rewrite jquot_finite by assumption. cbn. eexists; eexists; reflexivity.
      * intros i Hi. unfold derivativeControlPoints in Hi.
        rewrite length_map, length_seq in Hi.
        apply coxDeBoor_finite. rewrite interiorKnots_length. lia.
Qed.

Lemma bsplineDerivative_divisions_witness :
  let cps := map (fun p : Point => mkPt (Fin (x p)) (Fin (y p)))
                 [mkPt 0 0; mkPt 1 (inZ 2); mkPt (inZ 3) (inZ 3); mkPt (inZ 4) 0] in
  let knots := [0; 0; 0; 0; 1; 1; 1; 1] in
  Forall nonzeroDivisor (divisors (bsplineDerivative cps 3 (Q2Qc (1 # 2)) knots)) /\
  finitePoint (value (bsplineDerivative cps 3 (Q2Qc (1 # 2)) knots)).
Proof.
  intros cps knots.
  assert (Hpre : forall i, (i < length cps - 1)%nat ->
            jlt (get knots (Z.of_nat i + 1))
                (get knots (Z.of_nat i + Z.of_nat 3 + 1)) = true).
  { intros i Hi. destruct i as [|[|[|i]]]; [reflexivity | reflexivity | reflexivity |].
    simpl in Hi. lia. }
  destruct (proj2 (bsplineDerivative_divisions cps 2 (Q2Qc (1 # 2)) knots) Hpre)
    as [Hdiv Hfin].
  split; [exact Hdiv|]. apply Hfin.
  - simpl. lia.
  - repeat constructor; eexists; eexists; reflexivity.
Defined.

(** Without the precondition the derivative does divide by zero, also on a
    knot vector that [validateKnots] accepts: four control points of degree
    one over [0,0,0,1,1,1] have [knots[2] - knots[1] = 0]. *)
Lemma bsplineDerivative_repeated_knot :
  let cps := map (fun p : Point => mkPt (Fin (x p)) (Fin (y p)))
                 [mkPt 0 0; mkPt 1 (inZ 2); mkPt (inZ 3) (inZ 3); mkPt (inZ 4) 0] in
  let knots := [0; 0; 0; 1; 1; 1] in
  validateKnots knots 4 1 = true /\
  In (Fin 0) (divisors (bsplineDerivative cps 1 (Q2Qc (1 # 2)) knots)) /\
  value (bsplineDerivative cps 1 (Q2Qc (1 # 2)) knots) = mkPt None None.
Proof.
  intros cps knots. split; [reflexivity|]. split.
  - left. qc_eval.
  - reflexivity.
Qed.

(* ================================================================= *)
(** * Valid knot vectors *)

Lemma get_knotAt (knots : KnotVector) (i : nat) :
  (i < length knots)%nat -> get knots (Z.of_nat i) = Fin (knotAt knots i).
Proof.
  intros H. rewrite get_nat. unfold knotAt, Fin.
  now apply nth_error_nth'.
Qed.

Lemma nonDecreasingFrom_step (idxs : list nat) (knots : KnotVector) :
  nonDecreasingFrom idxs knots = true ->
  forall i, In i idxs -> (S i < length knots)%nat ->
            knotAt knots i <= knotAt knots (S i).
Proof.
  induction idxs as [|i0 idxs IH]; intros H i Hi Hlen; [contradiction|].
  cbn [nonDecreasingFrom] in H.
  destruct (jlt (get knots (Z.of_nat i0 + 1)) (get knots (Z.of_nat i0))) eqn:E;
    [discriminate|].
  destruct Hi as [-> | Hi]; [|now apply IH].
  rewrite get_nat_succ, get_nat in E.
  rewrite <- !get_nat, !get_knotAt in E by lia. cbn [jlt Fin] in E.
  apply Qcnot_lt_le. intros Hlt. apply Qc_ltb_lt in Hlt. congruence.
Qed.

Lemma validateKnots_true (knots : KnotVector) (n k : nat) :
  validateKnots knots n k = true ->
  length knots = (n + k + 1)%nat /\ nonDecreasing knots.
Proof.
  unfold validateKnots. destruct (Nat.eqb_spec (length knots) (n + k + 1)) as [Hlen|];
    [|discriminate].
  cbn [negb]. intros H. split; [exact Hlen|].
  pose proof (nonDecreasingFrom_step _ _ H) as Hstep.
  intros i j [Hij Hj]. induction Hij as [|j Hij IH].
  - apply Qcle_refl.
  - apply Qcle_trans with (knotAt knots j).
    + apply IH. lia.
    + apply Hstep; [|lia]. apply in_seq. lia.
Qed.

Lemma term1_zero (i k : nat) (u : Qc) (knots : KnotVector) (rec : traced jsnum) :
  (i + k < length knots)%nat ->
  value rec = Fin 0 ->
  value (term1 i k u knots rec) = Fin 0.
Proof.
  intros Hlen Hr. unfold term1.
  replace (Z.of_nat i + Z.of_nat k)%Z with (Z.of_nat (i + k)) by lia.
  rewrite !get_knotAt by lia. cbn [jsub jlift2 Fin].
  change (Some (knotAt knots (i + k) - knotAt knots i))
    with (Fin (knotAt knots (i + k) - knotAt knots i)).
  rewrite jnonzero_Fin.
  destruct (Qc_eqb (knotAt knots (i + k) - knotAt knots i) 0) eqn:E; cbn [negb];
    [reflexivity|].
  rewrite !value_tbind. cbn [jdiv value fst tret]. rewrite Hr.
  apply Qc_eqb_neq in E. change (Some (u - knotAt knots i)) with (Fin (u - knotAt knots i)).
  rewrite jquot_finite by assumption. unfold jmul, jlift2, Fin. f_equal. ring.
Qed.

Lemma term2_zero (i k : nat) (u : Qc) (knots : KnotVector) (rec : traced jsnum) :
  (i + k + 1 < length knots)%nat ->
  value rec = Fin 0 ->
  value (term2 i k u knots rec) = Fin 0.
Proof.
  intros Hlen Hr. unfold term2.
  replace (Z.of_nat i + Z.of_nat k + 1)%Z with (Z.of_nat (i + k + 1)) by lia.
  replace (Z.of_nat i + 1)%Z with (Z.of_nat (i + 1)) by lia.
  rewrite !get_knotAt by lia. cbn [jsub jlift2 Fin].
  change (Some (knotAt knots (i + k + 1) - knotAt knots (i + 1)))
    with (Fin (knotAt knots (i + k + 1) - knotAt knots (i + 1))).
  rewrite jnonzero_Fin.
  destruct (Qc_eqb (knotAt knots (i + k + 1) - knotAt knots (i + 1)) 0) eqn:E;
    cbn [negb]; [reflexivity|].
  rewrite !value_tbind. cbn [jdiv value fst tret]. rewrite Hr.
  apply Qc_eqb_neq in E.
  change (Some (knotAt knots (i + k + 1) - u)) with (Fin (knotAt knots (i + k + 1) - u)).
  rewrite jquot_finite by assumption. unfold jmul, jlift2, Fin. f_equal. ring.
Qed.

Section FinalKnot.

Variable knots : KnotVector.
Variable u : Qc.

(** [u] is the final knot, no knot is larger, and the last two knots
    coincide, as they do in a clamped vector of degree at least one. *)
Hypothesis knots_below : forall j, (j < length knots)%nat -> knotAt knots j <= u.
Hypothesis final_knot : knotAt knots (length knots - 1) = u.
Hypothesis final_repeated : knotAt knots (length knots - 2) = u.

Lemma coxDeBoor_0_final (i : nat) :
  (i + 1 < length knots)%nat ->
  value (coxDeBoor i 0 u knots)
  = if (i =? length knots - 2)%nat then Fin 1 else Fin 0.
Proof.
  intros Hlen. cbn [coxDeBoor Z.of_nat].
  replace (Z.of_nat i + 1)%Z with (Z.of_nat (i + 1)) by lia.
  replace (Z.of_nat (length knots) - 1)%Z with (Z.of_nat (length knots - 1)) by lia.
  rewrite !get_knotAt by lia. cbn [jle jlt jeq Fin].
  assert (E1 : Qc_ltb u (knotAt knots (i + 1)) = false).
  { destruct (Qc_ltb u (knotAt knots (i + 1))) eqn:E; [|reflexivity].
    apply Qc_ltb_lt in E. apply Qclt_not_le in E. exfalso. apply E.
    apply knots_below. lia. }
  rewrite E1, andb_false_r. cbn [orb].
  rewrite final_knot, (proj2 (Qc_eqb_eq u u) eq_refl). cbn [andb].
  destruct (Nat.eqb_spec i (length knots - 2)) as [Hi|Hi].
  - destruct (Z.eqb_spec (Z.of_nat i) (Z.of_nat (length knots) - 0 - 2)); [reflexivity|lia].
  - destruct (Z.eqb_spec (Z.of_nat i) (Z.of_nat (length knots) - 0 - 2)); [lia|reflexivity].
Qed.

Lemma coxDeBoor_final_zero (i k : nat) :
  (i + S k + 1 < length knots)%nat ->
  value (coxDeBoor i (S k) u knots) = Fin 0.
Proof.
  revert i. induction k as [|k IH]; intros i Hlen.
  - rewrite coxDeBoor_S, !value_tbind. cbn [tret value fst].
    rewrite term1_zero; [| lia |].
    2:{ rewrite coxDeBoor_0_final by lia.
        destruct (Nat.eqb_spec i (length knots - 2)); [lia | reflexivity]. }
    destruct (Nat.eq_dec (i + 1) (length knots - 2)) as [Hi|Hi].
    + rewrite term2_skipped; [reflexivity|].
      replace (Z.of_nat i + Z.of_nat 1 + 1)%Z with (Z.of_nat (length knots - 1)) by lia.
      replace (Z.of_nat i + 1)%Z with (Z.of_nat (length knots - 2)) by lia.
      rewrite !get_knotAt by lia. rewrite final_knot, final_repeated.
      unfold jsub, jlift2, Fin. f_equal. ring.
    + rewrite term2_zero; [reflexivity | lia |].
      rewrite coxDeBoor_0_final by lia.
      destruct (Nat.eqb_spec (i + 1) (length knots - 2)); [lia | reflexivity].
  - rewrite coxDeBoor_S, !value_tbind. cbn [tret value fst].
    rewrite term1_zero; [| lia | apply IH; lia].
    rewrite term2_zero; [reflexivity | lia | apply IH; lia].
Qed.

Lemma basisSum_final_zero (n k : nat) :
  (n + S k + 1 <= length knots)%nat ->
  basisSum n (S k) u knots = Fin 0.
Proof.
  intros Hlen. unfold basisSum.
  assert (H : forall idxs acc,
             (forall i, In i idxs -> (i < n)%nat) -> acc = Fin 0 ->
             fold_left (fun acc i => jadd acc (value (coxDeBoor i (S k) u knots)))
                       idxs acc = Fin 0).
  { induction idxs as [|i idxs IH]; intros acc Hin Hacc; [exact Hacc|].
    cbn [fold_left]. apply IH; [intros j Hj; apply Hin; now right|].
    rewrite Hacc, coxDeBoor_final_zero.
    - reflexivity.
    - specialize (Hin i (or_introl eq_refl)). lia. }
  apply H; [|reflexivity]. intros i Hi. apply in_seq in Hi. lia.
Qed.

Lemma evaluateBSpline_final_zero (controlPoints : list (Pt jsnum)) (k : nat) :
  (length controlPoints + S k + 1 <= length knots)%nat ->
  Forall finitePoint controlPoints ->
  value (evaluateBSpline controlPoints (S k) u knots) = mkPt (Fin 0) (Fin 0).
Proof.
  intros Hlen Hfin. unfold evaluateBSpline. rewrite value_tbind.
  cbn [tret value fst].
  match goal with
  | |- context [value ?loop] =>
      assert (H : value loop = (Fin 0, Fin 0)); [|now rewrite H]
  end.
  unfold forLoop. apply (forEach_invariant (fun xy => xy = (Fin 0, Fin 0))).
  - reflexivity.
  - intros i xy Hi ->. apply in_seq in Hi.
    destruct (pointAt_finite controlPoints i Hfin ltac:(lia)) as (px & py & Hp).
    rewrite value_tbind, coxDeBoor_final_zero, Hp by lia.
    cbn [tret value fst snd x y]. unfold jadd, jmul, jlift2, Fin.
    f_equal; f_equal; ring.
Qed.

End FinalKnot.

(** On every knot vector that [validateKnots] accepts for a degree of at
    least one and whose last two knots coincide (every clamped vector), all
    basis values at the final knot are [0]: they sum to [0] and a curve
    with finite control points is evaluated to [(0,0)] there. *)
Lemma evaluateBSpline_final_knot (controlPoints : list (Pt jsnum)) (k : nat)
      (knots : KnotVector) :
  validateKnots knots (length controlPoints) (S k) = true ->
  knotAt knots (length knots - 2) = knotAt knots (length knots - 1) ->
  Forall finitePoint controlPoints ->
  basisSum (length controlPoints) (S k) (knotAt knots (length knots - 1)) knots = Fin 0 /\
  value (evaluateBSpline controlPoints (S k) (knotAt knots (length knots - 1)) knots)
  = mkPt (Fin 0) (Fin 0).
Proof.
  intros Hvalid Hrep Hfin. apply validateKnots_true in Hvalid.
  destruct Hvalid as [Hlen Hmono].
  assert (Hbelow : forall j, (j < length knots)%nat ->
            knotAt knots j <= knotAt knots (length knots - 1))
    by (intros j Hj; apply Hmono; lia).
  split.
  - apply basisSum_final_zero; [exact Hbelow | reflexivity | exact Hrep | lia].
  - apply evaluateBSpline_final_zero;
      [exact Hbelow | reflexivity | exact Hrep | lia | exact Hfin].
Qed.

(* ================================================================= *)
(** * Partition of unity inside the domain *)

Lemma basis_S (i k : nat) (u : Qc) (knots : KnotVector) :
  basis i (S k) u knots
  = ratio (u - knotAt knots i) (knotAt knots (i + S k) - knotAt knots i)
    * basis i k u knots
    + ratio (knotAt knots (i + S k + 1) - u)
            (knotAt knots (i + S k + 1) - knotAt knots (i + 1))
      * basis (i + 1) k u knots.
Proof. reflexivity. Qed.

Lemma term1_value (i k : nat) (u : Qc) (knots : KnotVector) (rec : traced jsnum) (r : Qc) :
  (i + k < length knots)%nat ->
  value rec = Fin r ->
  value (term1 i k u knots rec)
  = Fin (ratio (u - knotAt knots i) (knotAt knots (i + k) - knotAt knots i) * r).
Proof.
  intros Hlen Hr. unfold term1, ratio.
  replace (Z.of_nat i + Z.of_nat k)%Z with (Z.of_nat (i + k)) by lia.
  rewrite !get_knotAt by lia. cbn [jsub jlift2 Fin].
  change (Some (knotAt knots (i + k) - knotAt knots i))
    with (Fin (knotAt knots (i + k) - knotAt knots i)).
  rewrite jnonzero_Fin.
  destruct (Qc_eqb (knotAt knots (i + k) - knotAt knots i) 0) eqn:E; cbn [negb].
  - unfold tret, value, Fin. cbn [fst]. f_equal. ring.
  - rewrite !value_tbind. cbn [jdiv value fst tret]. rewrite Hr.
    apply Qc_eqb_neq in E.
    change (Some (u - knotAt knots i)) with (Fin (u - knotAt knots i)).
    rewrite jquot_finite by assumption. reflexivity.
Qed.

Lemma term2_value (i k : nat) (u : Qc) (knots : KnotVector) (rec : traced jsnum) (r : Qc) :
  (i + k + 1 < length knots)%nat ->
  value rec = Fin r ->
  value (term2 i k u knots rec)
  = Fin (ratio (knotAt knots (i + k + 1) - u)
               (knotAt knots (i + k + 1) - knotAt knots (i + 1)) * r).
Proof.
  intros Hlen Hr. unfold term2, ratio.
  replace (Z.of_nat i + Z.of_nat k + 1)%Z with (Z.of_nat (i + k + 1)) by lia.
  replace (Z.of_nat i + 1)%Z with (Z.of_nat (i + 1)) by lia.
  rewrite !get_knotAt by lia. cbn [jsub jlift2 Fin].
  change (Some (knotAt knots (i + k + 1) - knotAt knots (i + 1)))
    with (Fin (knotAt knots (i + k + 1) - knotAt knots (i + 1))).
  rewrite jnonzero_Fin.
  destruct (Qc_eqb (knotAt knots (i + k + 1) - knotAt knots (i + 1)) 0) eqn:E;
    cbn [negb].
  - unfold tret, value, Fin. cbn [fst]. f_equal. ring.
  - rewrite !value_tbind. cbn [jdiv value fst tret]. rewrite Hr.
    apply Qc_eqb_neq in E.
    change (Some (knotAt knots (i + k + 1) - u))
      with (Fin (knotAt knots (i + k + 1) - u)).
    rewrite jquot_finite by assumption. reflexivity.
Qed.

Lemma coxDeBoor_basis (i k : nat) (u : Qc) (knots : KnotVector) :
  (i + k + 1 < length knots)%nat ->
  knotAt knots (length knots - 1) <> u ->
  value (coxDeBoor i k u knots) = Fin (basis i k u knots).
Proof.
  intros Hlen Hu. revert i Hlen. induction k as [|k IH]; intros i Hlen.
  - cbn [coxDeBoor basis Z.of_nat].
    replace (Z.of_nat i + 1)%Z with (Z.of_nat (i + 1)) by lia.
    replace (Z.of_nat (length knots) - 1)%Z with (Z.of_nat (length knots - 1)) by lia.
    rewrite !get_knotAt by lia. cbn [jle jlt jeq Fin].
    assert (E : Qc_eqb u (knotAt knots (length knots - 1)) = false)
      by (apply Qc_eqb_neq; congruence).
    rewrite E. cbn [andb]. rewrite orb_false_r.
    destruct (_ && _); reflexivity.
  - rewrite coxDeBoor_S, !value_tbind. cbn [tret value fst].
    rewrite (term1_value i (S k) u knots _ (basis i k u knots)); [| lia | apply IH; lia].
    rewrite (term2_value i (S k) u knots _ (basis (i + 1) k u knots));
      [| lia | apply IH; lia].
    reflexivity.
Qed.

Section PartitionOfUnity.

Variable knots : KnotVector.
Variable u : Qc.
Hypothesis knots_sorted : nonDecreasing knots.

(** Local support: [basis i k] vanishes outside [knots[i], knots[i+k+1]). *)
Lemma basis_support (i k : nat) :
  (i + k + 1 < length knots)%nat ->
  u < knotAt knots i \/ knotAt knots (i + k + 1) <= u ->
  basis i k u knots = 0.
Proof.
  revert i. induction k as [|k IH]; intros i Hlen Hout.
  - cbn [basis]. destruct Hout as [Hlt | Hge].
    + assert (E : Qc_leb (knotAt knots i) u = false).
      { destruct (Qc_leb (knotAt knots i) u) eqn:E; [|reflexivity].
        apply Qc_leb_le in E. now apply Qcle_not_lt in E. }
      now rewrite E.
    + replace (i + 0 + 1)%nat with (i + 1)%nat in Hge by lia.
      assert (E : Qc_ltb u (knotAt knots (i + 1)) = false).
      { destruct (Qc_ltb u (knotAt knots (i + 1))) eqn:E; [|reflexivity].
        apply Qc_ltb_lt in E. now apply Qcle_not_lt in Hge. }
      now rewrite E, andb_false_r.
  - rewrite basis_S, (IH i), (IH (i + 1)%nat); [ring | lia | | lia |].
    + destruct Hout as [Hlt | Hge].
      * left. apply Qclt_le_trans with (knotAt knots i); [exact Hlt|].
        apply knots_sorted. lia.
      * right. replace (i + 1 + k + 1)%nat with (i + S k + 1)%nat by lia. exact Hge.
    + destruct Hout as [Hlt | Hge].
      * now left.
      * right. apply Qcle_trans with (knotAt knots (i + S k + 1)); [|exact Hge].
        apply knots_sorted. lia.
Qed.

(** The two coefficients that multiply [basis j k] one level up add to
    one, unless the span is empty, and then [basis j k] is zero. *)
Lemma basis_coefficients (j k : nat) :
  (j + k + 1 < length knots)%nat ->
  (ratio (u - knotAt knots j) (knotAt knots (j + k + 1) - knotAt knots j)
   + ratio (knotAt knots (j + k + 1) - u) (knotAt knots (j + k + 1) - knotAt knots j))
  * basis j k u knots
  = basis j k u knots.
Proof.
  intros Hlen. unfold ratio.
  destruct (Qc_eqb (knotAt knots (j + k + 1) - knotAt knots j) 0) eqn:E.
  - apply Qc_eqb_eq in E.
    assert (Heq : knotAt knots (j + k + 1) = knotAt knots j).
    { rewrite <- (Qcplus_0_l (knotAt knots j)), <- E. ring. }
    rewrite basis_support; [ring | exact Hlen |].
    destruct (Qclt_le_dec u (knotAt knots j)) as [Hlt | Hge]; [now left|].
    right. now rewrite Heq.
  - apply Qc_eqb_neq in E. field. exact E.
Qed.

(** Summing one level of the recursion over consecutive indices. *)
Lemma sumFrom_basis_S (lo len k : nat) :
  (lo + S len + k + 1 < length knots)%nat ->
  sumFrom lo (S len) (fun i => basis i (S k) u knots)
  = ratio (u - knotAt knots lo) (knotAt knots (lo + k + 1) - knotAt knots lo)
    * basis lo k u knots
    + sumFrom (S lo) len (fun i => basis i k u knots)
    + ratio (knotAt knots (lo + S len + k + 1) - u)
            (knotAt knots (lo + S len + k + 1) - knotAt knots (lo + S len))
      * basis (lo + S len) k u knots.
Proof.
  revert lo. induction len as [|len IH]; intros lo Hlen.
  - cbn [sumFrom]. rewrite basis_S.
    replace (lo + S k)%nat with (lo + k + 1)%nat by lia.
    replace (lo + k + 1 + 1)%nat with (lo + 1 + k + 1)%nat by lia.
    ring.
  - change (sumFrom lo (S (S len)) (fun i => basis i (S k) u knots))
      with (basis lo (S k) u knots
            + sumFrom (S lo) (S len) (fun i => basis i (S k) u knots)).
    rewrite IH by lia. rewrite basis_S.
    change (sumFrom (S lo) (S len) (fun i => basis i k u knots))
      with (basis (S lo) k u knots
            + sumFrom (S (S lo)) len (fun i => basis i k u knots)).
    pose proof (basis_coefficients (S lo) k ltac:(lia)) as Hc.
    replace (lo + S k)%nat with (lo + k + 1)%nat by lia.
    replace (lo + k + 1 + 1)%nat with (S lo + k + 1)%nat by lia.
    replace (lo + 1)%nat with (S lo) by lia.
    replace (S lo + S len + k + 1)%nat with (lo + S (S len) + k + 1)%nat by lia.
    replace (S lo + S len)%nat with (lo + S (S len))%nat by lia.
    set (N := basis (S lo) k u knots) in *.
    set (A := ratio (u - knotAt knots (S lo)) _) in *.
    set (B := ratio (knotAt knots (S lo + k + 1) - u) _) in *.
    set (rest := sumFrom (S (S lo)) len _).
    replace (N + rest) with ((A + B) * N + rest) by (now rewrite Hc).
    ring.
Qed.

Lemma sumFrom_basis_0_left (lo len : nat) :
  (lo + len < length knots)%nat ->
  u < knotAt knots lo ->
  sumFrom lo len (fun i => basis i 0 u knots) = 0.
Proof.
  revert lo. induction len as [|len IH]; intros lo Hlen Hlt; [reflexivity|].
  cbn [sumFrom]. rewrite basis_support, IH; [ring | lia | | lia | now left].
  apply Qclt_le_trans with (knotAt knots lo); [exact Hlt|].
  apply knots_sorted. lia.
Qed.

(** Exactly one span of [knots[lo], knots[lo+len]) contains [u]. *)
Lemma sumFrom_basis_0 (lo len : nat) :
  (lo + len < length knots)%nat ->
  knotAt knots lo <= u ->
  u < knotAt knots (lo + len) ->
  sumFrom lo len (fun i => basis i 0 u knots) = 1.
Proof.
  revert lo. induction len as [|len IH]; intros lo Hlen Hle Hlt.
  - exfalso. replace (lo + 0)%nat with lo in Hlt by lia.
    now apply Qcle_not_lt in Hle.
  - cbn [sumFrom].
    destruct (Qclt_le_dec u (knotAt knots (S lo))) as [Hin | Hout].
    + rewrite sumFrom_basis_0_left by (assumption || lia).
      cbn [basis]. replace (lo + 1)%nat with (S lo) by lia.
      rewrite (proj2 (Qc_leb_le _ _) Hle), (proj2 (Qc_ltb_lt _ _) Hin).
      cbn [andb]. ring.
    + rewrite IH; [| lia | exact Hout
                   | now replace (S lo + len)%nat with (lo + S len)%nat by lia].
      rewrite basis_support; [ring | lia |].
      right. now replace (lo + 0 + 1)%nat with (S lo) by lia.
Qed.

(** Level by level: the basis functions of degree [k] that do not vanish
    on the domain sum to one. *)
Lemma sumFrom_basis (n degree k : nat) :
  length knots = (n + degree + 1)%nat ->
  (k <= degree)%nat ->
  knotAt knots degree <= u ->
  u < knotAt knots n ->
  sumFrom (degree - k) (n - (degree - k)) (fun i => basis i k u knots) = 1.
Proof.
  intros Hlen Hk Hlo Hhi.
  assert (Hdn : (degree < n)%nat).
  { destruct (Nat.lt_ge_cases degree n) as [H|H]; [exact H|].
    exfalso. assert (knotAt knots n <= knotAt knots degree) by (apply knots_sorted; lia).
    apply (Qcle_not_lt _ _ Hlo). now apply Qclt_le_trans with (knotAt knots n). }
  induction k as [|k IH].
  - rewrite Nat.sub_0_r. apply sumFrom_basis_0; [lia | exact Hlo |].
    now replace (degree + (n - degree))%nat with n by lia.
  - replace (n - (degree - S k))%nat with (S (n - (degree - k))) by lia.
    rewrite sumFrom_basis_S by lia.
    replace (S (degree - S k)) with (degree - k)%nat by lia.
    rewrite IH by lia.
    rewrite (basis_support (degree - S k) k);
      [| lia | right; now replace (degree - S k + k + 1)%nat with degree by lia].
    rewrite (basis_support (degree - S k + S (n - (degree - k))) k);
      [ring | lia |].
    left. now replace (degree - S k + S (n - (degree - k)))%nat with n by lia.
Qed.

End PartitionOfUnity.

Lemma basisSum_loop (degree : nat) (u : Qc) (knots : KnotVector) (lo len : nat) (acc : Qc) :
  (forall i, (lo <= i < lo + len)%nat ->
     value (coxDeBoor i degree u knots) = Fin (basis i degree u knots)) ->
  fold_left (fun acc i => jadd acc (value (coxDeBoor i degree u knots)))
            (seq lo len) (Fin acc)
  = Fin (acc + sumFrom lo len (fun i => basis i degree u knots)).
Proof.
  revert lo acc. induction len as [|len IH]; intros lo acc H.
  - cbn. unfold Fin. f_equal. ring.
  - cbn [seq fold_left sumFrom]. rewrite H by lia.
    change (jadd (Fin acc) (Fin (basis lo degree u knots)))
      with (Fin (acc + basis lo degree u knots)).
    rewrite IH by (intros i Hi; apply H; lia).
    unfold Fin. f_equal. ring.
Qed.

(** Inside the domain the code does satisfy partition of unity: on every
    knot vector that [validateKnots] accepts, clamped or not, the basis
    values at a parameter with [knots[degree] <= u < knots[n]] (where
    [n = length - degree - 1]) sum to [1]. *)
Lemma basisSum_inside_domain (n degree : nat) (u : Qc) (knots : KnotVector) :
  validateKnots knots n degree = true ->
  knotAt knots degree <= u ->
  u < knotAt knots (length knots - degree - 1) ->
  basisSum n degree u knots = Fin 1.
Proof.
  intros Hvalid Hlo Hhi. apply validateKnots_true in Hvalid.
  destruct Hvalid as [Hlen Hmono].
  replace (length knots - degree - 1)%nat with n in Hhi by lia.
  assert (Hlast : knotAt knots (length knots - 1) <> u).
  { intros E. apply (Qclt_not_le _ _ Hhi). rewrite <- E. apply Hmono. lia. }
  unfold basisSum. rewrite basisSum_loop.
  - pose proof (sumFrom_basis knots u Hmono n degree degree Hlen (le_n _) Hlo Hhi) as H.
    rewrite Nat.sub_diag, Nat.sub_0_r in H. rewrite H. reflexivity.
  - intros i Hi. apply coxDeBoor_basis; [lia | exact Hlast].
Qed.

(* ================================================================= *)
(** * The basis at the final knot *)

(** C1, at the final knot.  On the clamped uniform knot vector of five
    control points and degree three, [0,0,0,0,1/2,1,1,1,1], which
    [validateKnots] accepts, every basis value at [u = 1], the right end of
    the domain [knots[3], knots[5]], is [0]: the values sum to [0], not to
    [1], and the curve of the editor's control points is evaluated to
    [(0,0)] there instead of its last control point [(500,200)].  Just
    inside the domain, at [u = 1/2], the same values sum to [1]. *)
Theorem basisSum_final_knot :
  let knots := generateUniformKnots 5 3 in
  validateKnots knots 5 3 = true /\
  get knots 3 = Fin 0 /\ get knots (Z.of_nat (length knots) - 3 - 1) = Fin 1 /\
  map (fun i => value (coxDeBoor i 3 1 knots)) (seq 0 5)
  = [Fin 0; Fin 0; Fin 0; Fin 0; Fin 0] /\
  basisSum 5 3 1 knots = Fin 0 /\
  value (evaluateBSpline editorControlPoints 3 1 knots) = mkPt (Fin 0) (Fin 0) /\
  basisSum 5 3 (Q2Qc (1 # 2)) knots = Fin 1.
Proof.
  intros knots. repeat split; qc_eval.
Qed.

(* ================================================================= *)
(** * Trimming *)

(** C2, on the specification's own example.  For the control points
    [(0,0), (1,2), (3,3), (4,0)] and the range [u1 = 1/4], [u2 = 3/4] the
    trimmed polygon starts at [(33/16, 33/32)], while the curve at [u1] is
    [(29/32, 81/64)]; at [v = 1/2] and [v = 1] the trimmed curve also
    differs from the curve at [1/2] and [3/4]. *)
Theorem getTrimmedControlPoints_example :
  let points := [mkPt 0 0; mkPt 1 (inZ 2); mkPt (inZ 3) (inZ 3); mkPt (inZ 4) 0] in
  let range := mkTrim (Q2Qc (1 # 4)) (Q2Qc (3 # 4)) in
  trimmedCurve points range 0 = Some (mkPt (Q2Qc (33 # 16)) (Q2Qc (33 # 32))) /\
  evaluateBezier points (Q2Qc (1 # 4)) = mkPt (Q2Qc (29 # 32)) (Q2Qc (81 # 64)) /\
  trimmedCurve points range 0 <> Some (evaluateBezier points (Q2Qc (1 # 4))) /\
  trimmedCurve points range (Q2Qc (1 # 2)) <> Some (evaluateBezier points (Q2Qc (1 # 2))) /\
  trimmedCurve points range 1 <> Some (evaluateBezier points (Q2Qc (3 # 4))).
Proof.
  intros points range.
  assert (Hneq : forall (a b : option Point),
            option_map (fun p : Point => this (x p)) a
            <> option_map (fun p : Point => this (x p)) b -> a <> b)
    by (intros a b H E; apply H; now rewrite E).
  split; [qc_eval|]. split; [qc_eval|].
  repeat split; apply Hneq; vm_compute; discriminate.
Qed.

(* ================================================================= *)
(** * Hermite curves: blending functions and polynomial form *)

Lemma Math_pow_2 (u : Qc) : Math_pow u 2 = u * u.
Proof. unfold Math_pow. simpl. ring. Qed.

Lemma Math_pow_3 (u : Qc) : Math_pow u 3 = u * u * u.
Proof. unfold Math_pow. simpl. ring. Qed.

(** X1. The blending functions of the two end points sum to one,
    [h0(u) + h1(u) = 1] for every [u]; hence moving both end points of a
    Hermite form by a vector, the tangents unchanged, moves every point of
    the curve by that vector. *)
Theorem evaluateHermite_translate (form : HermiteForm) (t : Point) (u : Qc) :
  h0 u + h1 u = 1 /\
  evaluateHermite
    (mkHermite (translate t (P0 form)) (translate t (P1 form)) (T0 form) (T1 form)) u
  = translate t (evaluateHermite form u).
Proof.
  assert (Hsum : h0 u + h1 u = 1).
  { unfold h0, h1. rewrite Math_pow_2, Math_pow_3. qc_ring. }
  split; [exact Hsum|].
  unfold evaluateHermite, translate. cbn [x y P0 P1 T0 T1]. f_equal.
  - transitivity (h0 u * x (P0 form) + h1 u * x (P1 form) + h2 u * x (T0 form)
                  + h3 u * x (T1 form) + (h0 u + h1 u) * x t); [ring|].
    rewrite Hsum. ring.
  - transitivity (h0 u * y (P0 form) + h1 u * y (P1 form) + h2 u * y (T0 form)
                  + h3 u * y (T1 form) + (h0 u + h1 u) * y t); [ring|].
    rewrite Hsum. ring.
Qed.

Lemma evaluateHermite_at_0 (form : HermiteForm) : evaluateHermite form 0 = P0 form.
Proof.
  destruct form as [[p0x p0y] [p1x p1y] [t0x t0y] [t1x t1y]].
  unfold evaluateHermite, h0, h1, h2, h3. rewrite !Math_pow_2, !Math_pow_3.
  cbn [x y P0 P1 T0 T1]. f_equal; qc_ring.
Qed.

Lemma evaluateHermite_at_1 (form : HermiteForm) : evaluateHermite form 1 = P1 form.
Proof.
  destruct form as [[p0x p0y] [p1x p1y] [t0x t0y] [t1x t1y]].
  unfold evaluateHermite, h0, h1, h2, h3. rewrite !Math_pow_2, !Math_pow_3.
  cbn [x y P0 P1 T0 T1]. f_equal; qc_ring.
Qed.

(** X2. A Hermite curve starts at [P0] and ends at [P1], whatever the
    tangents are. *)
Theorem evaluateHermite_endpoints (form : HermiteForm) :
  evaluateHermite form 0 = P0 form /\ evaluateHermite form 1 = P1 form.
Proof.
  split; [apply evaluateHermite_at_0 | apply evaluateHermite_at_1].
Qed.

(** X3. The two cubics returned by [hermiteToPolynomial] are the curve,
    over exact arithmetic: with [a] the cubic coefficient and [d] the
    constant term, [a*u^3 + b*u^2 + c*u + d] evaluated at any [u] gives the
    coordinates of [evaluateHermite form u]. *)
Theorem hermiteToPolynomial_evaluates (form : HermiteForm) :
  exists polyX polyY,
    hermiteToPolynomial form = Ok (polyX, polyY) /\
    forall u, mkPt (evalCubic polyX u) (evalCubic polyY u) = evaluateHermite form u.
Proof.
  destruct form as [[p0x p0y] [p1x p1y] [t0x t0y] [t1x t1y]].
  unfold hermiteToPolynomial. cbn [x y P0 P1 T0 T1].
  rewrite !multiplyVector_hermite. cbn [rbind].
  eexists; eexists. split; [reflexivity|]. intros u.
  unfold evalCubic, evaluateHermite, h0, h1, h2, h3, coef.
  rewrite !Math_pow_2, !Math_pow_3. cbn [nth a b c d x y P0 P1 T0 T1 Qcpower].
  f_equal; qc_ring.
Qed.

(** X4. The other round trip.  Over exact arithmetic, converting two cubic
    polynomials to Hermite form and back to polynomials returns the
    polynomials one started from.  Over doubles it does so up to rounding
    only: the cubic [1e16 * u^3 + 1] comes back with the quadratic
    coefficient [-4] in place of [0]. *)
Theorem polynomial_round_trip :
  (forall polyX polyY : CubicPolynomial,
     hermiteToPolynomial (polynomialToHermite polyX polyY) = Ok (polyX, polyY)) /\
  Binary64.hermiteToPolynomial
    (Binary64.polynomialToHermite (Binary64.mkCubic 0 0 0 0)
                                  (Binary64.mkCubic 10000000000000000 0 0 1))%float
  = Ok (Binary64.mkCubic 0 0 0 0, Binary64.mkCubic 10000000000000000 (- 4) 0 1)%float.
Proof.
  split; [|vm_compute; reflexivity].
  intros polyX polyY.
  destruct polyX as [ax bx cx dx], polyY as [ay by_ cy dy].
  unfold hermiteToPolynomial, polynomialToHermite. cbn [x y P0 P1 T0 T1 a b c d].
  rewrite !multiplyVector_hermite. cbn [rbind]. unfold coef. cbn [nth].
  do 2 f_equal; f_equal; qc_ring.
Qed.

(* ================================================================= *)
(** * Binomial coefficients and Bernstein weights *)

Lemma inN_1 : inN 1 = 1.
Proof. unfold inN. simpl. apply inZ_1. Qed.

Lemma choose_sym (n k : nat) : (k <= n)%nat -> choose n (n - k) = choose n k.
Proof.
  revert k. induction n as [|n IH]; intros k Hk.
  - replace k with 0%nat by lia. reflexivity.
  - destruct k as [|k].
    + rewrite Nat.sub_0_r, choose_diag, choose_0. reflexivity.
    + cbn [Nat.sub]. destruct (Nat.eq_dec k n) as [->|Hne].
      * rewrite Nat.sub_diag, choose_0, choose_diag. reflexivity.
      * replace (n - k)%nat with (S (n - S k)) by lia.
        change (choose (S n) (S (n - S k)))
          with (choose n (n - S k) + choose n (S (n - S k)))%nat.
        change (choose (S n) (S k)) with (choose n k + choose n (S k))%nat.
        replace (S (n - S k)) with (n - k)%nat by lia.
        rewrite (IH (S k)), (IH k) by lia. lia.
Qed.

Lemma binomial_outside (n k : Z) : (k < 0 \/ n < k)%Z -> binomial n k = 0.
Proof.
  intros H. unfold binomial.
  destruct (Z.ltb_spec k 0); [reflexivity|].
  destruct (Z.gtb_spec k n); [reflexivity | lia].
Qed.

Lemma binomial_binary64_small (n k : nat) :
  (n <= 10)%nat ->
  Binary64.binomial (Z.of_nat n) (Z.of_nat k) = Binary64.ofZ (Z.of_nat (choose n k)).
Proof.
  intros Hn. destruct (Nat.lt_ge_cases n k) as [Hgt|Hle].
  - rewrite choose_gt by exact Hgt. unfold Binary64.binomial.
    destruct (Z.ltb_spec (Z.of_nat k) 0); [reflexivity|].
    destruct (Z.gtb_spec (Z.of_nat k) (Z.of_nat n)); [reflexivity | lia].
  - do 11 (destruct n as [|n];
           [do 11 (destruct k as [|k]; [vm_compute; reflexivity|]); lia|]).
    lia.
Qed.

(** X5. [binomial] and Pascal's triangle.  Over exact arithmetic, for
    [n >= 0], [binomial(n, k)] is [0] for [k < 0] and for [k > n], [1] for
    [k = 0] and [k = n], satisfies Pascal's rule
    [binomial(n+1, k+1) = binomial(n, k) + binomial(n, k+1)], is symmetric,
    [binomial(n, k) = binomial(n, n-k)], and is a natural number: the
    quotients the loop multiplies leave no fraction behind.  Over doubles
    the quotients are rounded: the result is the exact integer for every
    [n <= 10], and no longer for [n = 11], where [binomial(11, 5)] is
    [461.99999999999994], below [462], and [binomial(11, 10)] is
    [10.999999999999998], below [binomial(11, 1) = 11]. *)
Theorem binomial_pascal (n k : Z) :
  (0 <= n)%Z ->
  ((k < 0 \/ n < k)%Z -> binomial n k = 0) /\
  binomial n 0 = 1 /\ binomial n n = 1 /\
  ((0 <= k)%Z -> binomial (n + 1) (k + 1) = binomial n k + binomial n (k + 1)) /\
  binomial n k = binomial n (n - k) /\
  (exists m : nat, binomial n k = inN m) /\
  ((n <= 10)%Z -> (0 <= k)%Z ->
   Binary64.binomial n k
   = Binary64.ofZ (Z.of_nat (choose (Z.to_nat n) (Z.to_nat k)))) /\
  (Binary64.binomial 11 5 <? 462)%float = true /\
  (Binary64.binomial 11 10 <? Binary64.binomial 11 1)%float = true.
Proof.
  intros Hn.
  assert (Hsmall : (n <= 10)%Z -> (0 <= k)%Z ->
            Binary64.binomial n k
            = Binary64.ofZ (Z.of_nat (choose (Z.to_nat n) (Z.to_nat k)))).
  { intros Hle Hk. rewrite <- (Z2Nat.id n) at 1 by assumption.
    rewrite <- (Z2Nat.id k) at 1 by assumption.
    apply binomial_binary64_small. lia. }
  assert (Hexact :
            ((k < 0 \/ n < k)%Z -> binomial n k = 0) /\
            binomial n 0 = 1 /\ binomial n n = 1 /\
            ((0 <= k)%Z ->
             binomial (n + 1) (k + 1) = binomial n k + binomial n (k + 1)) /\
            binomial n k = binomial n (n - k) /\
            (exists m : nat, binomial n k = inN m));
    [|destruct Hexact as (H1 & H2 & H3 & H4 & H5 & H6);
      split; [exact H1|]; split; [exact H2|]; split; [exact H3|];
      split; [exact H4|]; split; [exact H5|]; split; [exact H6|];
      split; [exact Hsmall|]; split; vm_compute; reflexivity].
  clear Hsmall.
  rewrite <- (Z2Nat.id n) by assumption. set (n' := Z.to_nat n). clearbody n'.
  split; [apply binomial_outside|].
  split; [change 0%Z with (Z.of_nat 0); now rewrite binomial_choose, choose_0, inN_1|].
  split; [now rewrite binomial_choose, choose_diag, inN_1|].
  split; [|split].
  - intros Hk. rewrite <- (Z2Nat.id k) by assumption. set (k' := Z.to_nat k).
    replace (Z.of_nat n' + 1)%Z with (Z.of_nat (S n')) by lia.
    replace (Z.of_nat k' + 1)%Z with (Z.of_nat (S k')) by lia.
    rewrite !binomial_choose. cbn [choose]. apply inN_add.
  - destruct (Z.lt_ge_cases k 0) as [Hneg|Hpos].
    + rewrite !binomial_outside by lia. reflexivity.
    + destruct (Z.lt_ge_cases (Z.of_nat n') k) as [Hbig|Hle].
      * rewrite !binomial_outside by lia. reflexivity.
      * rewrite <- (Z2Nat.id k) by assumption.
        replace (Z.of_nat n' - Z.of_nat (Z.to_nat k))%Z
          with (Z.of_nat (n' - Z.to_nat k)) by lia.
        rewrite !binomial_choose, choose_sym by lia. reflexivity.
  - destruct (Z.lt_ge_cases k 0) as [Hneg|Hpos].
    + exists 0%nat. rewrite binomial_outside by lia. now rewrite inN_0.
    + rewrite <- (Z2Nat.id k) by assumption. rewrite binomial_choose. eexists. reflexivity.
Qed.

Lemma binomial_pascal_witness :
  (0 <= 4)%Z /\ binomial (4 + 1) (2 + 1) = binomial 4 2 + binomial 4 (2 + 1).
Proof.
  split; [lia|].
  destruct (binomial_pascal 4 2 ltac:(lia)) as (_ & _ & _ & Hrule & _).
  apply Hrule. lia.
Defined.

Lemma lerpCoords_length (t : Qc) (l : list Qc) :
  length (lerpCoords t l) = (length l - 1)%nat.
Proof.
  induction l as [|a0 [|a1 l] IH]; [reflexivity | reflexivity |].
  change (lerpCoords t (a0 :: a1 :: l))
    with (((1 - t) * a0 + t * a1) :: lerpCoords t (a1 :: l)).
  cbn [length] in *. lia.
Qed.

Lemma lerpCoords_repeat (t c0 : Qc) (m : nat) :
  lerpCoords t (repeat c0 (S m)) = repeat c0 m.
Proof.
  induction m as [|m IH]; [reflexivity|].
  change (repeat c0 (S (S m))) with (c0 :: c0 :: repeat c0 m).
  change (lerpCoords t (c0 :: c0 :: repeat c0 m))
    with (((1 - t) * c0 + t * c0) :: lerpCoords t (repeat c0 (S m))).
  rewrite IH. cbn [repeat]. f_equal. ring.
Qed.

Lemma bernsteinSum_repeat (n : nat) (u c0 : Qc) :
  bernsteinSum (Z.of_nat n) u 0 (repeat c0 (S n)) = c0.
Proof.
  induction n as [|n IH].
  - cbn [repeat bernsteinSum Z.of_nat]. rewrite bernstein_0_0. ring.
  - rewrite <- bernsteinSum_level by (rewrite repeat_length; reflexivity).
    rewrite lerpCoords_repeat. exact IH.
Qed.

Lemma bernsteinSum_weights (n : Z) (u : Qc) (i0 len : nat) :
  bernsteinSum n u (Z.of_nat i0) (repeat 1 len)
  = sumFrom i0 len (fun i => bernstein (Z.of_nat i) n u).
Proof.
  revert i0. induction len as [|len IH]; intros i0; [reflexivity|].
  cbn [repeat bernsteinSum sumFrom].
  replace (Z.of_nat i0 + 1)%Z with (Z.of_nat (S i0)) by lia.
  rewrite IH. ring.
Qed.

Lemma bernsteinSum_add (n : Z) (u t : Qc) (i0 : Z) (l : list Qc) :
  bernsteinSum n u i0 (map (fun a0 => a0 + t) l)
  = bernsteinSum n u i0 l + t * bernsteinSum n u i0 (repeat 1 (length l)).
Proof.
  revert i0. induction l as [|a0 l IH]; intros i0.
  - cbn. ring.
  - cbn [map bernsteinSum length repeat]. rewrite IH. ring.
Qed.

(** X6. The Bernstein weights of a degree sum to one,
    [bernstein(0,n,u) + ... + bernstein(n,n,u) = 1] for every [u]; hence
    moving every control point by a vector moves every point of the Bezier
    curve by that vector. *)
Theorem evaluateBezier_translate (points : list Point) (t : Point) (u : Qc) :
  points <> [] ->
  sumFrom 0 (length points)
          (fun i => bernstein (Z.of_nat i) (Z.of_nat (length points) - 1) u) = 1 /\
  evaluateBezier (map (translate t) points) u = translate t (evaluateBezier points u).
Proof.
  intros Hne. destruct points as [|p rest]; [congruence|]. clear Hne.
  set (points := p :: rest).
  assert (Hdeg : (Z.of_nat (length points) - 1)%Z = Z.of_nat (length rest))
    by (subst points; cbn [length]; lia).
  assert (Hone : bernsteinSum (Z.of_nat (length rest)) u 0 (repeat 1 (length points)) = 1)
    by apply bernsteinSum_repeat.
  split.
  - rewrite Hdeg. change 0%Z with (Z.of_nat 0) in Hone.
    now rewrite bernsteinSum_weights in Hone.
  - rewrite !evaluateBezier_sum, length_map, Hdeg.
    replace (map x (map (translate t) points))
      with (map (fun a0 => a0 + x t) (map x points))
      by (rewrite !map_map; reflexivity).
    replace (map y (map (translate t) points))
      with (map (fun a0 => a0 + y t) (map y points))
      by (rewrite !map_map; reflexivity).
    rewrite !bernsteinSum_add, !length_map, Hone. unfold translate. cbn [x y].
    f_equal; ring.
Qed.

Lemma evaluateBezier_translate_witness :
  let points := [mkPt 0 0; mkPt 1 (inZ 2); mkPt (inZ 3) (inZ 3)] in
  points <> [] /\
  evaluateBezier (map (translate (mkPt 1 1)) points) (Q2Qc (1 # 3))
  = translate (mkPt 1 1) (evaluateBezier points (Q2Qc (1 # 3))).
Proof.
  intros points. split; [discriminate|].
  apply (evaluateBezier_translate points (mkPt 1 1) (Q2Qc (1 # 3))). discriminate.
Defined.

(* ================================================================= *)
(** * Bezier curves: end points *)

Lemma bernsteinSum_at_0 (n : nat) (l : list Qc) :
  length l = S n -> bernsteinSum (Z.of_nat n) 0 0 l = nth 0 l 0.
Proof.
  revert l. induction n as [|n IH]; intros l Hlen.
  - destruct l as [|a0 [|? ?]]; try discriminate.
    cbn [bernsteinSum nth Z.of_nat]. rewrite bernstein_0_0. ring.
  - rewrite <- bernsteinSum_level by exact Hlen.
    rewrite IH by (rewrite lerpCoords_length; lia).
    destruct l as [|a0 [|a1 l]]; try discriminate.
    change (lerpCoords 0 (a0 :: a1 :: l))
      with (((1 - 0) * a0 + 0 * a1) :: lerpCoords 0 (a1 :: l)).
    cbn [nth]. ring.
Qed.

Lemma lerpCoords_at_1 (l : list Qc) : lerpCoords 1 l = tl l.
Proof.
  induction l as [|a0 [|a1 l] IH]; [reflexivity | reflexivity |].
  change (lerpCoords 1 (a0 :: a1 :: l))
    with (((1 - 1) * a0 + 1 * a1) :: lerpCoords 1 (a1 :: l)).
  rewrite IH. cbn [tl]. f_equal. ring.
Qed.

Lemma bernsteinSum_at_1 (n : nat) (l : list Qc) :
  length l = S n -> bernsteinSum (Z.of_nat n) 1 0 l = nth n l 0.
Proof.
  revert l. induction n as [|n IH]; intros l Hlen.
  - destruct l as [|a0 [|? ?]]; try discriminate.
    cbn [bernsteinSum nth Z.of_nat]. rewrite bernstein_0_0. ring.
  - rewrite <- bernsteinSum_level by exact Hlen.
    rewrite lerpCoords_at_1.
    destruct l as [|a0 l]; [discriminate|]. cbn [tl nth].
    apply IH. cbn [length] in Hlen. lia.
Qed.

Lemma evaluateBezier_at_0 (points : list Point) :
  points <> [] -> evaluateBezier points 0 = pointAt 0 points 0.
Proof.
  intros Hne. destruct points as [|p rest]; [congruence|].
  rewrite evaluateBezier_sum. cbn [length].
  replace (Z.of_nat (S (length rest)) - 1)%Z with (Z.of_nat (length rest)) by lia.
  rewrite !bernsteinSum_at_0 by (rewrite length_map; reflexivity).
  cbn. now destruct p.
Qed.

Lemma evaluateBezier_at_1 (points : list Point) :
  points <> [] -> evaluateBezier points 1 = pointAt 0 points (length points - 1).
Proof.
  intros Hne. destruct points as [|p rest]; [congruence|].
  rewrite evaluateBezier_sum. cbn [length].
  replace (Z.of_nat (S (length rest)) - 1)%Z with (Z.of_nat (length rest)) by lia.
  rewrite !bernsteinSum_at_1 by (rewrite length_map; reflexivity).
  replace (S (length rest) - 1)%nat with (length rest) by lia.
  unfold pointAt.
  rewrite (map_nth x (p :: rest) (mkPt 0 0) (length rest) : nth _ (map x _) 0 = _).
  rewrite (map_nth y (p :: rest) (mkPt 0 0) (length rest) : nth _ (map y _) 0 = _).
  now destruct (nth (length rest) (p :: rest) (mkPt 0 0)).
Qed.

(** X7. A Bezier curve starts at its first control point and ends at its
    last one: [evaluateBezier(points, 0) = points[0]] and
    [evaluateBezier(points, 1) = points[length-1]] for every non-empty
    polygon; on the empty polygon the result is [(0,0)] for every [u]. *)
Theorem evaluateBezier_endpoints (points : list Point) :
  points <> [] ->
  evaluateBezier points 0 = pointAt 0 points 0 /\
  evaluateBezier points 1 = pointAt 0 points (length points - 1) /\
  forall u, evaluateBezier [] u = mkPt 0 0.
Proof.
  intros Hne. split; [now apply evaluateBezier_at_0|].
  split; [now apply evaluateBezier_at_1 | reflexivity].
Qed.

Lemma evaluateBezier_endpoints_witness :
  let points := [mkPt 0 0; mkPt 1 (inZ 2); mkPt (inZ 3) (inZ 3); mkPt (inZ 4) 0] in
  points <> [] /\
  evaluateBezier points 0 = mkPt 0 0 /\
  evaluateBezier points 1 = mkPt (inZ 4) 0.
Proof.
  intros points. split; [discriminate|].
  destruct (evaluateBezier_endpoints points ltac:(discriminate)) as (H0 & H1 & _).
  split; [exact H0 | exact H1].
Defined.

(* ================================================================= *)
(** * Bezier curves: control points from an intersection point *)

Lemma inZ_3_neq0 : inZ 3 <> 0.
Proof. rewrite <- inZ_0. intros H. apply inZ_inj in H. discriminate. Qed.

Lemma bernsteinSum_quadratic (u c0 c1 c2 : Qc) :
  bernsteinSum 2 u 0 [c0; c1; c2]
  = c0 * ((1 - u) * (1 - u)) + c1 * (inZ 2 * (1 - u) * u) + c2 * (u * u).
Proof.
  change (bernsteinSum 2 u 0 [c0; c1; c2])
    with (bernsteinSum (Z.of_nat 2) u (Z.of_nat 0) [c0; c1; c2]).
  rewrite !bernsteinSum_cons_nat. unfold inN.
  cbn [bernsteinSum choose Nat.sub Nat.add Qcpower Z.of_nat Pos.of_succ_nat Pos.succ].
  qc_ring.
Qed.

Lemma bernsteinSum_cubic (u c0 c1 c2 c3 : Qc) :
  bernsteinSum 3 u 0 [c0; c1; c2; c3]
  = c0 * ((1 - u) * (1 - u) * (1 - u)) + c1 * (inZ 3 * ((1 - u) * (1 - u)) * u)
    + c2 * (inZ 3 * (1 - u) * (u * u)) + c3 * (u * u * u).
Proof.
  change (bernsteinSum 3 u 0 [c0; c1; c2; c3])
    with (bernsteinSum (Z.of_nat 3) u (Z.of_nat 0) [c0; c1; c2; c3]).
  rewrite !bernsteinSum_cons_nat. unfold inN.
  cbn [bernsteinSum choose Nat.sub Nat.add Qcpower Z.of_nat Pos.of_succ_nat Pos.succ].
  qc_ring.
Qed.

(** X8. The two inner control points that
    [calculateIntersectionControlPoints] builds from [P0], [PStar] and [P3]
    make the cubic Bezier curve [P0, P1, P2, P3] the same curve as the
    quadratic one with control points [P0, PStar, P3]: the two agree at
    every parameter. *)
Theorem calculateIntersectionControlPoints_elevates (P0 PStar P3 : Point) (u : Qc) :
  evaluateBezier [P0; fst (calculateIntersectionControlPoints P0 PStar P3);
                  snd (calculateIntersectionControlPoints P0 PStar P3); P3] u
  = evaluateBezier [P0; PStar; P3] u.
Proof.
  rewrite !evaluateBezier_sum. unfold calculateIntersectionControlPoints.
  cbn [fst snd map x y length].
  change (Z.of_nat 4 - 1)%Z with 3%Z. change (Z.of_nat 3 - 1)%Z with 2%Z.
  rewrite !bernsteinSum_cubic, !bernsteinSum_quadratic.
  pose proof inZ_3_neq0 as H3.
  f_equal; field; exact H3.
Qed.

(* ================================================================= *)
(** * Bezier curves: derivative *)

Lemma nth_map_seq {A : Type} (f : nat -> A) (len i : nat) (dflt : A) :
  (i < len)%nat -> nth i (map f (seq 0 len)) dflt = f i.
Proof.
  intros H. rewrite (nth_indep _ dflt (f 0%nat)) by (now rewrite length_map, length_seq).
  rewrite map_nth, seq_nth by assumption. reflexivity.
Qed.

(** X9. The tangent of a Bezier curve at its ends: for a polygon of
    [n+1 >= 2] points, [bezierDerivative] returns [n * (P1 - P0)] at
    [u = 0] and [n * (Pn - Pn-1)] at [u = 1]. *)
Theorem bezierDerivative_endpoints (points : list Point) :
  (2 <= length points)%nat ->
  let n := inN (length points - 1) in
  let last := (length points - 1)%nat in
  bezierDerivative points 0
  = mkPt (n * (x (pointAt 0 points 1) - x (pointAt 0 points 0)))
         (n * (y (pointAt 0 points 1) - y (pointAt 0 points 0))) /\
  bezierDerivative points 1
  = mkPt (n * (x (pointAt 0 points last) - x (pointAt 0 points (last - 1))))
         (n * (y (pointAt 0 points last) - y (pointAt 0 points (last - 1)))).
Proof.
  intros Hlen n last. unfold bezierDerivative. rewrite pushLoop_map, Nat.sub_0_r.
  replace (Z.to_nat (Z.of_nat (length points) - 1)) with last by (subst last; lia).
  replace (inZ (Z.of_nat (length points) - 1)) with n
    by (subst n; unfold inN; f_equal; lia).
  set (f := fun i : nat =>
              mkPt (n * (x (pointAt 0 points (i + 1)) - x (pointAt 0 points i)))
                   (n * (y (pointAt 0 points (i + 1)) - y (pointAt 0 points i)))).
  assert (Hne : map f (seq 0 last) <> []).
  { intros E. apply (f_equal (@length _)) in E.
    rewrite length_map, length_seq in E. subst last. simpl in E. lia. }
  split.
  - rewrite evaluateBezier_at_0 by exact Hne. unfold pointAt at 1.
    rewrite nth_map_seq by (subst last; lia). reflexivity.
  - rewrite evaluateBezier_at_1 by exact Hne. unfold pointAt at 1.
    rewrite length_map, length_seq, nth_map_seq by (subst last; lia).
    subst f. cbn beta. replace (last - 1 + 1)%nat with last by (subst last; lia).
    reflexivity.
Qed.

Lemma bezierDerivative_endpoints_witness :
  let points := [mkPt 0 0; mkPt 1 (inZ 2); mkPt (inZ 3) (inZ 3); mkPt (inZ 4) 0] in
  (2 <= length points)%nat /\
  bezierDerivative points 0
  = mkPt (inN 3 * (x (pointAt 0 points 1) - x (pointAt 0 points 0)))
         (inN 3 * (y (pointAt 0 points 1) - y (pointAt 0 points 0))).
Proof.
  intros points. split; [simpl; lia|].
  apply (bezierDerivative_endpoints points). simpl; lia.
Defined.

Lemma bernsteinSum_linear (u c0 c1 : Qc) :
  bernsteinSum 1 u 0 [c0; c1] = c0 * (1 - u) + c1 * u.
Proof.
  change (bernsteinSum 1 u 0 [c0; c1])
    with (bernsteinSum (Z.of_nat 1) u (Z.of_nat 0) [c0; c1]).
  rewrite !bernsteinSum_cons_nat. unfold inN.
  cbn [bernsteinSum choose Nat.sub Nat.add Qcpower Z.of_nat Pos.of_succ_nat Pos.succ].
  qc_ring.
Qed.

Lemma bezierToPolynomial_quadratic (p0 p1 p2 : Point) :
  bezierToPolynomial [p0; p1; p2]
  = Ok ([0 + inZ 1 * x p0 + inZ (-2) * x p1 + inZ 1 * x p2;
         0 + inZ (-2) * x p0 + inZ 2 * x p1 + inZ 0 * x p2;
         0 + inZ 1 * x p0 + inZ 0 * x p1 + inZ 0 * x p2],
        [0 + inZ 1 * y p0 + inZ (-2) * y p1 + inZ 1 * y p2;
         0 + inZ (-2) * y p0 + inZ 2 * y p1 + inZ 0 * y p2;
         0 + inZ 1 * y p0 + inZ 0 * y p1 + inZ 0 * y p2]).
Proof.
  unfold bezierToPolynomial. cbn [length]. change (Z.of_nat 3 - 1)%Z with 2%Z.
  change (bezierToPowerMatrix 2)
    with (Ok [ [inZ 1; inZ (-2); inZ 1]; [inZ (-2); inZ 2; inZ 0];
               [inZ 1; inZ 0; inZ 0] ]).
  cbn [rbind map]. unfold multiplyVector. cbn [length negb Nat.eqb].
  rewrite !pushLoop_map. cbn [Nat.sub seq map nth fold_left rbind]. reflexivity.
Qed.

Lemma bezierToPolynomial_cubic (p0 p1 p2 p3 : Point) :
  bezierToPolynomial [p0; p1; p2; p3]
  = Ok ([0 + inZ (-1) * x p0 + inZ 3 * x p1 + inZ (-3) * x p2 + inZ 1 * x p3;
         0 + inZ 3 * x p0 + inZ (-6) * x p1 + inZ 3 * x p2 + inZ 0 * x p3;
         0 + inZ (-3) * x p0 + inZ 3 * x p1 + inZ 0 * x p2 + inZ 0 * x p3;
         0 + inZ 1 * x p0 + inZ 0 * x p1 + inZ 0 * x p2 + inZ 0 * x p3],
        [0 + inZ (-1) * y p0 + inZ 3 * y p1 + inZ (-3) * y p2 + inZ 1 * y p3;
         0 + inZ 3 * y p0 + inZ (-6) * y p1 + inZ 3 * y p2 + inZ 0 * y p3;
         0 + inZ (-3) * y p0 + inZ 3 * y p1 + inZ 0 * y p2 + inZ 0 * y p3;
         0 + inZ 1 * y p0 + inZ 0 * y p1 + inZ 0 * y p2 + inZ 0 * y p3]).
Proof.
  unfold bezierToPolynomial. cbn [length]. change (Z.of_nat 4 - 1)%Z with 3%Z.
  change (bezierToPowerMatrix 3)
    with (Ok [ [inZ (-1); inZ 3; inZ (-3); inZ 1]; [inZ 3; inZ (-6); inZ 3; inZ 0];
               [inZ (-3); inZ 3; inZ 0; inZ 0]; [inZ 1; inZ 0; inZ 0; inZ 0] ]).
  cbn [rbind map]. unfold multiplyVector. cbn [length negb Nat.eqb].
  rewrite !pushLoop_map. cbn [Nat.sub seq map nth fold_left rbind]. reflexivity.
Qed.

(** X10. For the two degrees [bezierToPolynomial] supports, the derivative
    computed by [bezierDerivative] is the derivative of the polynomial form:
    differentiating the returned coefficient arrays term by term and
    evaluating gives [bezierDerivative(points, u)] at every [u]. *)
Theorem bezierDerivative_power_basis (points : list Point) :
  (length points = 3 \/ length points = 4)%nat ->
  exists xs ys,
    bezierToPolynomial points = Ok (xs, ys) /\
    forall u, bezierDerivative points u
              = mkPt (polyEval (polyDerivative xs) u) (polyEval (polyDerivative ys) u).
Proof.
  intros [Hlen | Hlen].
  - destruct points as [|p0 [|p1 [|p2 [|? ?]]]]; try discriminate.
    eexists; eexists. split; [apply bezierToPolynomial_quadratic|].
    intros u. unfold bezierDerivative. rewrite pushLoop_map, evaluateBezier_sum.
    cbn [length].
    change (Z.of_nat 3 - 1)%Z with 2%Z. change (Z.to_nat 2) with 2%nat.
    cbn [Nat.sub seq map length pointAt nth x y Nat.add].
    change (Z.of_nat 2 - 1)%Z with 1%Z. rewrite !bernsteinSum_linear.
    unfold polyDerivative, polyEval, inN.
    cbn [length Nat.sub seq map nth fold_left Z.of_nat Pos.of_succ_nat Pos.succ].
    f_equal; qc_ring.
  - destruct points as [|p0 [|p1 [|p2 [|p3 [|? ?]]]]]; try discriminate.
    eexists; eexists. split; [apply bezierToPolynomial_cubic|].
    intros u. unfold bezierDerivative. rewrite pushLoop_map, evaluateBezier_sum.
    cbn [length].
    change (Z.of_nat 4 - 1)%Z with 3%Z. change (Z.to_nat 3) with 3%nat.
    cbn [Nat.sub seq map length pointAt nth x y Nat.add].
    change (Z.of_nat 3 - 1)%Z with 2%Z. rewrite !bernsteinSum_quadratic.
    unfold polyDerivative, polyEval, inN.
    cbn [length Nat.sub seq map nth fold_left Z.of_nat Pos.of_succ_nat Pos.succ].
    f_equal; qc_ring.
Qed.

Lemma bezierDerivative_power_basis_witness :
  let points := [mkPt 0 0; mkPt 1 (inZ 2); mkPt (inZ 3) (inZ 3); mkPt (inZ 4) 0] in
  (length points = 3 \/ length points = 4)%nat /\
  exists xs ys,
    bezierToPolynomial points = Ok (xs, ys) /\
    forall u, bezierDerivative points u
              = mkPt (polyEval (polyDerivative xs) u) (polyEval (polyDerivative ys) u).
Proof.
  intros points. split; [right; reflexivity|].
  apply (bezierDerivative_power_basis points). right. reflexivity.
Defined.

(* ================================================================= *)
(** * Bezier curves: shape of the trimmed polygon *)

(** X11. [getTrimmedControlPoints] returns as many control points as it is
    given.  They are all finite unless [u1 = 1]; for [u1 = 1] the blending
    factor divides by zero and every coordinate of every returned point is
    non-finite. *)
Theorem getTrimmedControlPoints_shape (points : list Point) (range : TrimRange) :
  length (getTrimmedControlPoints points range) = length points /\
  (u1 range <> 1 -> Forall finitePoint (getTrimmedControlPoints points range)) /\
  (u1 range = 1 ->
   forall p, In p (getTrimmedControlPoints points range) -> p = mkPt None None).
Proof.
  unfold getTrimmedControlPoints. rewrite pushLoop_map, length_map, length_seq.
  split; [lia|]. split.
  - intros Hu. assert (Hd : 1 - u1 range <> 0).
    { intros E. apply Hu. rewrite <- (Qcplus_0_l (u1 range)), <- E. ring. }
    rewrite jquot_finite by exact Hd.
    apply Forall_forall. intros p Hp. apply in_map_iff in Hp.
    destruct Hp as (i & <- & _). eexists; eexists. reflexivity.
  - intros Hu p Hp. apply in_map_iff in Hp. destruct Hp as (i & <- & _).
    assert (E : jquot (Fin (u2 range - u1 range)) (Fin (1 - u1 range)) = None).
    { unfold jquot, Fin. rewrite Hu.
      replace (1 - 1) with 0 by ring.
      now rewrite (proj2 (Qc_eqb_eq 0 0) eq_refl). }
    rewrite E. reflexivity.
Qed.

Lemma getTrimmedControlPoints_shape_witness :
  let points := [mkPt 0 0; mkPt 1 (inZ 2); mkPt (inZ 3) (inZ 3); mkPt (inZ 4) 0] in
  Forall finitePoint (getTrimmedControlPoints points (mkTrim (Q2Qc (1 # 4)) (Q2Qc (3 # 4))))
  /\ forall p, In p (getTrimmedControlPoints points (mkTrim 1 1)) -> p = mkPt None None.
Proof.
  intros points. split.
  - apply (getTrimmedControlPoints_shape points (mkTrim (Q2Qc (1 # 4)) (Q2Qc (3 # 4)))).
    cbn [u1]. intros H. apply (f_equal this) in H. vm_compute in H. discriminate.
  - apply (getTrimmedControlPoints_shape points (mkTrim 1 1)). reflexivity.
Defined.

(* ================================================================= *)
(** * Matrices *)

Lemma fold_sumFrom (f : nat -> Qc) (lo len : nat) (acc : Qc) :
  fold_left (fun s i => s + f i) (seq lo len) acc = acc + sumFrom lo len f.
Proof.
  revert lo acc. induction len as [|len IH]; intros lo acc.
  - cbn. ring.
  - cbn [seq fold_left sumFrom]. rewrite IH. ring.
Qed.

Lemma sumFrom_ext (f g : nat -> Qc) (lo len : nat) :
  (forall i, (lo <= i < lo + len)%nat -> f i = g i) ->
  sumFrom lo len f = sumFrom lo len g.
Proof.
  revert lo. induction len as [|len IH]; intros lo H; [reflexivity|].
  cbn [sumFrom]. rewrite H by lia. rewrite IH by (intros i Hi; apply H; lia).
  reflexivity.
Qed.

Lemma sumFrom_add (f g : nat -> Qc) (lo len : nat) :
  sumFrom lo len (fun i => f i + g i) = sumFrom lo len f + sumFrom lo len g.
Proof.
  revert lo. induction len as [|len IH]; intros lo; cbn [sumFrom].
  - ring.
  - rewrite IH. ring.
Qed.

Lemma sumFrom_scale (f : nat -> Qc) (k0 : Qc) (lo len : nat) :
  sumFrom lo len (fun i => k0 * f i) = k0 * sumFrom lo len f.
Proof.
  revert lo. induction len as [|len IH]; intros lo; cbn [sumFrom].
  - ring.
  - rewrite IH. ring.
Qed.

Lemma sumFrom_zero (lo len : nat) : sumFrom lo len (fun _ => 0) = 0.
Proof.
  revert lo. induction len as [|len IH]; intros lo; cbn [sumFrom]; [reflexivity|].
  rewrite IH. ring.
Qed.

Lemma sumFrom_swap (f : nat -> nat -> Qc) (m n : nat) :
  sumFrom 0 m (fun i => sumFrom 0 n (fun j => f i j))
  = sumFrom 0 n (fun j => sumFrom 0 m (fun i => f i j)).
Proof.
  generalize 0%nat at 1 4. induction m as [|m IH]; intros lo; cbn [sumFrom].
  - now rewrite sumFrom_zero.
  - rewrite IH, <- sumFrom_add. reflexivity.
Qed.

Lemma list_as_map {A : Type} (l : list A) (dflt : A) :
  l = map (fun i => nth i l dflt) (seq 0 (length l)).
Proof.
  apply (nth_ext _ _ dflt dflt).
  - now rewrite length_map, length_seq.
  - intros i Hi. now rewrite nth_map_seq.
Qed.

Lemma multiplyVector_entries (A : Matrix) (v : list Qc) :
  A <> [] -> rectangular A (length v) ->
  multiplyVector A v
  = Ok (map (fun i => sumFrom 0 (length v) (fun j => nth j (nth i A []) 0 * nth j v 0))
            (seq 0 (length A))).
Proof.
  intros Hne Hrect. destruct A as [|row0 A']; [congruence|].
  unfold multiplyVector. inversion Hrect as [|? ? Hrow0 _]; subst.
  rewrite Hrow0, Nat.eqb_refl. cbn [negb]. rewrite pushLoop_map, Nat.sub_0_r.
  f_equal. apply map_ext. intros i. rewrite fold_sumFrom. ring.
Qed.

(** X12. [multiply] and [multiplyVector] compose: for matrices whose
    shapes fit ([A] is r x m, [B] is m x c with [m >= 1] rows, [v] has [c]
    entries) no call throws and [(A * B) * v = A * (B * v)]. *)
Theorem multiply_multiplyVector (A B : Matrix) (v : list Qc) :
  A <> [] -> B <> [] ->
  rectangular A (length B) -> rectangular B (length v) ->
  exists C w,
    multiply A B = Ok C /\ multiplyVector B v = Ok w /\
    length C = length A /\ rectangular C (length v) /\
    multiplyVector C v = multiplyVector A w.
Proof.
  intros HA HB HrA HrB.
  assert (Hmul : multiply A B
            = Ok (map (fun i => map (fun j =>
                     sumFrom 0 (length B)
                             (fun k => nth k (nth i A []) 0 * nth j (nth k B []) 0))
                     (seq 0 (length v))) (seq 0 (length A)))).
  { destruct A as [|rowA0 A']; [congruence|]. destruct B as [|rowB0 B']; [congruence|].
    unfold multiply. inversion HrA as [|? ? HrowA0 _]; subst.
    inversion HrB as [|? ? HrowB0 _]; subst.
    rewrite HrowA0, HrowB0, Nat.eqb_refl. cbn [negb].
    rewrite pushLoop_map, Nat.sub_0_r. f_equal. apply map_ext. intros i.
    rewrite pushLoop_map, Nat.sub_0_r. apply map_ext. intros j.
    rewrite fold_sumFrom. ring. }
  eexists; eexists. split; [exact Hmul|].
  split; [now apply multiplyVector_entries|].
  set (C := map _ (seq 0 (length A))).
  assert (HlenC : length C = length A) by (subst C; now rewrite length_map, length_seq).
  assert (HrC : rectangular C (length v)).
  { subst C. apply Forall_forall. intros row Hrow. apply in_map_iff in Hrow.
    destruct Hrow as (i & <- & _). now rewrite length_map, length_seq. }
  split; [exact HlenC|]. split; [exact HrC|].
  rewrite multiplyVector_entries; [| intros E; apply HA; destruct A; [reflexivity|];
                                     subst C; discriminate E | exact HrC].
  rewrite multiplyVector_entries; [| exact HA | now rewrite length_map, length_seq].
  rewrite HlenC, length_map, length_seq. f_equal.
  apply map_ext_in. intros i Hi. apply in_seq in Hi.
  transitivity (sumFrom 0 (length v) (fun j =>
                  sumFrom 0 (length B) (fun k =>
                    nth k (nth i A []) 0 * nth j (nth k B []) 0 * nth j v 0))).
  - apply sumFrom_ext. intros j Hj. subst C.
    rewrite (nth_map_seq _ (length A) i []) by lia.
    rewrite (nth_map_seq _ (length v) j 0) by lia.
    rewrite Qcmult_comm, <- sumFrom_scale. apply sumFrom_ext. intros k _. ring.
  - rewrite sumFrom_swap. apply sumFrom_ext. intros k Hk.
    rewrite (nth_map_seq _ (length B) k 0) by lia.
    rewrite <- sumFrom_scale. apply sumFrom_ext. intros j _. ring.
Qed.

Lemma multiply_multiplyVector_witness :
  let A := [[1; inZ 2]; [inZ 3; inZ 4]] in
  let B := [[0; 1; 1]; [1; 0; inZ 2]] in
  let v := [1; inZ 2; inZ 3] in
  exists C w,
    multiply A B = Ok C /\ multiplyVector B v = Ok w /\
    multiplyVector C v = multiplyVector A w.
Proof.
  intros A B v.
  destruct (multiply_multiplyVector A B v) as (C & w & HC & Hw & _ & _ & H).
  - discriminate.
  - discriminate.
  - repeat constructor.
  - repeat constructor.
  - exists C, w. repeat split; assumption.
Defined.

Lemma transpose_entries (A : Matrix) (cols : nat) :
  A <> [] -> rectangular A cols ->
  transpose A
  = Ok (map (fun j => map (fun i => nth j (nth i A []) 0) (seq 0 (length A)))
            (seq 0 cols)).
Proof.
  intros HA Hrect. destruct A as [|row0 A']; [congruence|]. unfold transpose.
  inversion Hrect as [|? ? Hrow0 _]; subst.
  rewrite pushLoop_map, Nat.sub_0_r. f_equal. apply map_ext. intros j.
  now rewrite pushLoop_map, Nat.sub_0_r.
Qed.

(** X13. Transposing twice gives the matrix back: for a matrix with at
    least one row and at least one column, all rows of the same length,
    neither call throws and [transpose(transpose(A)) = A]; the transposed
    matrix has one row per column of [A].  On a matrix without rows
    [transpose] throws. *)
Theorem transpose_involutive (A : Matrix) (cols : nat) :
  A <> [] -> (1 <= cols)%nat -> rectangular A cols ->
  exists T,
    transpose A = Ok T /\ length T = cols /\ rectangular T (length A) /\
    transpose T = Ok A /\ transpose [] = Throw TypeError.
Proof.
  intros HA Hcols Hrect.
  eexists. split; [exact (transpose_entries A cols HA Hrect)|].
  set (T := map _ (seq 0 cols)).
  assert (HlenT : length T = cols) by (subst T; now rewrite length_map, length_seq).
  assert (HrT : rectangular T (length A)).
  { subst T. apply Forall_forall. intros row Hrow. apply in_map_iff in Hrow.
    destruct Hrow as (j & <- & _). now rewrite length_map, length_seq. }
  assert (HneT : T <> []).
  { intros E. rewrite E in HlenT. simpl in HlenT. lia. }
  split; [exact HlenT|]. split; [exact HrT|]. split; [|reflexivity].
  rewrite (transpose_entries T (length A) HneT HrT), HlenT. f_equal.
  transitivity (map (fun i => nth i A []) (seq 0 (length A)));
    [|symmetry; apply list_as_map].
  apply map_ext_in. intros i Hi. apply in_seq in Hi.
  assert (Hrow : length (nth i A []) = cols).
  { unfold rectangular in Hrect. rewrite Forall_forall in Hrect.
    apply Hrect. apply nth_In. lia. }
  transitivity (map (fun j => nth j (nth i A []) 0) (seq 0 (length (nth i A []))));
    [|symmetry; apply list_as_map].
  rewrite Hrow. apply map_ext_in. intros j Hj. apply in_seq in Hj.
  subst T.
  rewrite (nth_map_seq _ cols j []) by lia.
  now rewrite (nth_map_seq _ (length A) i 0) by lia.
Qed.

Lemma transpose_involutive_witness :
  let A := [[1; inZ 2; inZ 3]; [inZ 4; inZ 5; inZ 6]] in
  exists T, transpose A = Ok T /\ transpose T = Ok A.
Proof.
  intros A.
  destruct (transpose_involutive A 3) as (T & HT & _ & _ & HA & _).
  - discriminate.
  - lia.
  - repeat constructor.
  - exists T. split; assumption.
Defined.

(** X14. [subdivisionMatrix] exists for cubics only: it throws the
    not-implemented error for every degree other than three.  For a cubic
    its first two rows are the first two points of the de Casteljau
    subdivision at [u], but its last two rows carry no binomial factors and
    sum to [1 - u*(1-u)] and [1 - 2*u*(1-u)]: applied to four equal
    coordinates [c0] it returns [c0, c0, (1 - u*(1-u)) * c0,
    (1 - 2*u*(1-u)) * c0], so it maps a constant polygon to itself only
    when [u*(1-u) = 0]. *)
Theorem subdivisionMatrix_rows (u c0 c1 c2 c3 : Qc) :
  (forall n t, n <> 3%Z -> subdivisionMatrix n t = Throw (NotImplemented n)) /\
  exists M,
    subdivisionMatrix 3 u = Ok M /\
    (exists w, multiplyVector M [c0; c1; c2; c3] = Ok w /\ length w = 4%nat /\
               nth 0 w 0 = c0 /\ nth 1 w 0 = (1 - u) * c0 + u * c1) /\
    (exists w, multiplyVector M [c0; c0; c0; c0] = Ok w /\
               nth 2 w 0 = (1 - u * (1 - u)) * c0 /\
               nth 3 w 0 = (1 - inZ 2 * u * (1 - u)) * c0).
Proof.
  split.
  - intros n t Hn. unfold subdivisionMatrix.
    destruct (Z.eqb_spec n 3); [contradiction | reflexivity].
  - eexists. split; [reflexivity|]. split.
    + eexists. split.
      * unfold multiplyVector. cbn [length negb Nat.eqb].
        rewrite pushLoop_map. cbn [Nat.sub seq map nth fold_left]. reflexivity.
      * split; [reflexivity|]. cbn [nth]. split; ring.
    + eexists. split.
      * unfold multiplyVector. cbn [length negb Nat.eqb].
        rewrite pushLoop_map. cbn [Nat.sub seq map nth fold_left]. reflexivity.
      * cbn [nth]. split; qc_ring.
Qed.

Lemma subdivisionMatrix_rows_witness :
  subdivisionMatrix 4 (Q2Qc (1 # 2)) = Throw (NotImplemented 4).
Proof.
  apply (proj1 (subdivisionMatrix_rows (Q2Qc (1 # 2)) 0 0 0 0)). discriminate.
Defined.

(** X15. [reparameterizationMatrix(u1, u2)] maps the powers of a local
    parameter [v] to the powers of the parameter it stands for: applied to
    [1, v, v^2, v^3] it gives [1, t, t^2, t^3] with [t = u1 + (u2 - u1) * v],
    so [v = 0] and [v = 1] correspond to [u1] and [u2]. *)
Theorem reparameterizationMatrix_powers (u1 u2 v : Qc) :
  let t := u1 + (u2 - u1) * v in
  exists w,
    multiplyVector (reparameterizationMatrix u1 u2) [1; v; v * v; v * v * v] = Ok w /\
    length w = 4%nat /\
    nth 0 w 0 = 1 /\ nth 1 w 0 = t /\ nth 2 w 0 = t * t /\ nth 3 w 0 = t * t * t.
Proof.
  intros t. eexists. split.
  - unfold multiplyVector, reparameterizationMatrix. cbn [length negb Nat.eqb].
    rewrite pushLoop_map. cbn [Nat.sub seq map nth fold_left]. reflexivity.
  - split; [reflexivity|]. subst t. cbn [nth]. repeat split; qc_ring.
Qed.

(* ================================================================= *)
(** * Knot vectors: what [validateKnots] accepts *)

Lemma nonDecreasing_step (knots : KnotVector) :
  (forall i, (S i < length knots)%nat -> knotAt knots i <= knotAt knots (S i)) ->
  nonDecreasing knots.
Proof.
  intros Hstep i j [Hij Hj]. induction Hij as [|j Hij IH].
  - apply Qcle_refl.
  - apply Qcle_trans with (knotAt knots j); [apply IH; lia | apply Hstep; lia].
Qed.

Lemma validateKnots_complete (knots : KnotVector) (n k : nat) :
  length knots = (n + k + 1)%nat -> nonDecreasing knots ->
  validateKnots knots n k = true.
Proof.
  intros Hlen Hmono. unfold validateKnots. rewrite Hlen, Nat.eqb_refl. cbn [negb].
  apply nonDecreasingFrom_true. intros i Hi. apply in_seq in Hi.
  exists (knotAt knots i), (knotAt knots (S i)).
  split; [|split].
  - unfold knotAt. apply nth_error_nth'. lia.
  - unfold knotAt. apply nth_error_nth'. lia.
  - apply Hmono. lia.
Qed.

(** X16. What [validateKnots] accepts, over IEEE doubles.  It answers
    [true] exactly when the vector has [n + k + 1] knots and no knot is
    greater than its successor.  A comparison with [NaN] is false, so a
    [NaN] among the knots is never noticed: [[0, 0, NaN, 1, 1]] is accepted
    for three control points of degree one, and [coxDeBoor(0, 1, 0.5, knots)]
    is then [NaN]. *)
Theorem validateKnots_iff (knots : list float) (n k : nat) :
  (Binary64.validateKnots knots n k = true <->
   length knots = (n + k + 1)%nat /\
   forall i, (i + 1 < length knots)%nat ->
     (Binary64.get knots (i + 1) <? Binary64.get knots i)%float = false) /\
  Binary64.validateKnots [0; 0; nan; 1; 1]%float 3 1 = true /\
  PrimFloat.is_nan (Binary64.coxDeBoor 0 1 0.5 [0; 0; nan; 1; 1]%float) = true.
Proof.
  split; [|split; vm_compute; reflexivity].
  unfold Binary64.validateKnots.
  destruct (Nat.eqb_spec (length knots) (n + k + 1)) as [Hlen|Hlen]; cbn [negb].
  - rewrite forallb_forall. split.
    + intros H. split; [exact Hlen|]. intros i Hi.
      apply negb_true_iff. apply H. apply in_seq. lia.
    + intros [_ H] i Hi. apply in_seq in Hi. apply negb_true_iff. apply H. lia.
  - split; [discriminate | intros [H _]; contradiction].
Qed.

Lemma validateKnots_iff_witness :
  length [0; 0; 0.5; 1; 1]%float = (3 + 1 + 1)%nat /\
  forall i, (i + 1 < 5)%nat ->
    (Binary64.get [0; 0; 0.5; 1; 1] (i + 1) <? Binary64.get [0; 0; 0.5; 1; 1] i)%float = false.
Proof.
  apply (proj1 (proj1 (validateKnots_iff [0; 0; 0.5; 1; 1]%float 3 1))).
  vm_compute. reflexivity.
Defined.

(* ================================================================= *)
(** * B-spline curves as weighted sums *)

Lemma pointAt_finite_map (pts : list Point) (i : nat) :
  (i < length pts)%nat ->
  pointAt None (map finite pts) i = finite (pointAt 0 pts i).
Proof.
  intros Hi. unfold pointAt.
  rewrite (nth_indep _ (mkPt None None) (finite (mkPt 0 0)))
    by (now rewrite length_map).
  apply map_nth.
Qed.

Lemma finite_points (pts : list Point) : Forall finitePoint (map finite pts).
Proof.
  apply Forall_forall. intros p Hp. apply in_map_iff in Hp.
  destruct Hp as (q & <- & _). eexists; eexists. reflexivity.
Qed.

Lemma evaluateBSpline_loop (pts : list Point) (degree : nat) (u : Qc)
      (knots : KnotVector) (weight : nat -> Qc) (lo len : nat) (ax ay : Qc) :
  (lo + len <= length pts)%nat ->
  (forall i, (lo <= i < lo + len)%nat ->
     value (coxDeBoor i degree u knots) = Fin (weight i)) ->
  value (forEach (seq lo len) (fun i (xy : jsnum * jsnum) =>
           let* basis := coxDeBoor i degree u knots in
           tret (jadd (fst xy) (jmul (x (pointAt None (map finite pts) i)) basis),
                 jadd (snd xy) (jmul (y (pointAt None (map finite pts) i)) basis)))
         (Fin ax, Fin ay))
  = (Fin (ax + sumFrom lo len (fun i => x (pointAt 0 pts i) * weight i)),
     Fin (ay + sumFrom lo len (fun i => y (pointAt 0 pts i) * weight i))).
Proof.
  revert lo ax ay. induction len as [|len IH]; intros lo ax ay Hlen Hw.
  - cbn [seq forEach tret value fst sumFrom]. unfold Fin. f_equal; f_equal; ring.
  - cbn [seq forEach sumFrom]. rewrite value_tbind, value_tbind.
    rewrite Hw, pointAt_finite_map by lia.
    cbn [tret value fst snd finite x y].
    change (jadd (Fin ax) (jmul (Fin (x (pointAt 0 pts lo))) (Fin (weight lo))))
      with (Fin (ax + x (pointAt 0 pts lo) * weight lo)).
    change (jadd (Fin ay) (jmul (Fin (y (pointAt 0 pts lo))) (Fin (weight lo))))
      with (Fin (ay + y (pointAt 0 pts lo) * weight lo)).
    rewrite IH by (lia || (intros i Hi; apply Hw; lia)).
    unfold Fin. f_equal; f_equal; ring.
Qed.

(** The value of [evaluateBSpline] on finite control points, when the
    basis values are the finite numbers [weight i]. *)
Lemma evaluateBSpline_sum (pts : list Point) (degree : nat) (u : Qc)
      (knots : KnotVector) (weight : nat -> Qc) :
  (forall i, (i < length pts)%nat ->
     value (coxDeBoor i degree u knots) = Fin (weight i)) ->
  value (evaluateBSpline (map finite pts) degree u knots)
  = finite (mkPt (sumFrom 0 (length pts) (fun i => x (pointAt 0 pts i) * weight i))
                 (sumFrom 0 (length pts) (fun i => y (pointAt 0 pts i) * weight i))).
Proof.
  intros Hw. unfold evaluateBSpline, forLoop. rewrite value_tbind.
  rewrite length_map, Nat.sub_0_r.
  rewrite (evaluateBSpline_loop pts degree u knots weight 0 (length pts) 0 0)
    by (lia || (intros i Hi; apply Hw; lia)).
  cbn [tret value fst snd]. unfold finite. cbn [x y]. unfold Fin.
  f_equal; f_equal; ring.
Qed.

Lemma sumFrom_translate (f w : nat -> Qc) (t : Qc) (lo len : nat) :
  sumFrom lo len (fun i => (f i + t) * w i)
  = sumFrom lo len (fun i => f i * w i) + t * sumFrom lo len w.
Proof.
  rewrite <- sumFrom_scale, <- sumFrom_add. apply sumFrom_ext. intros i _. ring.
Qed.

Lemma pointAt_translate (t : Point) (pts : list Point) (i : nat) :
  (i < length pts)%nat ->
  pointAt 0 (map (translate t) pts) i = translate t (pointAt 0 pts i).
Proof.
  intros Hi. unfold pointAt.
  rewrite (nth_indep _ (mkPt 0 0) (translate t (mkPt 0 0))) by (now rewrite length_map).
  apply map_nth.
Qed.

(** X17. Inside the domain a B-spline curve is a weighted mean of its
    control points, over exact arithmetic: on a non-decreasing vector of
    [length(points) + degree + 1] finite knots, for
    [knots[degree] <= u < knots[length-degree-1]], the basis values sum to
    one, and moving every control point by a vector moves the evaluated
    point by that vector.  (A vector holding [NaN] is not non-decreasing;
    [validateKnots] accepts some, and the values are [NaN] then.) *)
Theorem evaluateBSpline_translate (pts : list Point) (t : Point) (degree : nat) (u : Qc)
        (knots : KnotVector) :
  length knots = (length pts + degree + 1)%nat ->
  nonDecreasing knots ->
  knotAt knots degree <= u ->
  u < knotAt knots (length knots - degree - 1) ->
  basisSum (length pts) degree u knots = Fin 1 /\
  exists p,
    value (evaluateBSpline (map finite pts) degree u knots) = finite p /\
    value (evaluateBSpline (map finite (map (translate t) pts)) degree u knots)
    = finite (translate t p).
Proof.
  intros Hlen Hmono Hlo Hhi.
  replace (length knots - degree - 1)%nat with (length pts) in Hhi by lia.
  assert (Hlast : knotAt knots (length knots - 1) <> u).
  { intros E. apply (Qclt_not_le _ _ Hhi). rewrite <- E. apply Hmono. lia. }
  assert (Hw : forall i, (i < length pts)%nat ->
            value (coxDeBoor i degree u knots) = Fin (basis i degree u knots))
    by (intros i Hi; apply coxDeBoor_basis; [lia | exact Hlast]).
  pose proof (sumFrom_basis knots u Hmono (length pts) degree degree Hlen (le_n _) Hlo Hhi)
    as Hone.
  rewrite Nat.sub_diag, Nat.sub_0_r in Hone.
  split.
  - unfold basisSum. rewrite basisSum_loop by (intros i Hi; apply Hw; lia).
    rewrite Hone. reflexivity.
  - eexists. split; [apply evaluateBSpline_sum; exact Hw|].
    rewrite (evaluateBSpline_sum _ degree u knots (fun i => basis i degree u knots))
      by (rewrite length_map; exact Hw).
    rewrite length_map. unfold finite, translate. cbn [x y].
    rewrite (sumFrom_ext (fun i => x (pointAt 0 (map (translate t) pts) i) * _)
                         (fun i => (x (pointAt 0 pts i) + x t) * basis i degree u knots))
      by (intros i Hi; rewrite pointAt_translate by lia; reflexivity).
    rewrite (sumFrom_ext (fun i => y (pointAt 0 (map (translate t) pts) i) * _)
                         (fun i => (y (pointAt 0 pts i) + y t) * basis i degree u knots))
      by (intros i Hi; rewrite pointAt_translate by lia; reflexivity).
    rewrite !sumFrom_translate, Hone. unfold Fin. f_equal; f_equal; ring.
Qed.

Lemma evaluateBSpline_translate_witness :
  let pts := [mkPt 0 0; mkPt 1 (inZ 2); mkPt (inZ 3) (inZ 3); mkPt (inZ 4) 0] in
  let knots := [0; 0; 0; Q2Qc (1 # 2); 1; 1; 1] in
  basisSum (length pts) 2 (Q2Qc (1 # 3)) knots = Fin 1.
Proof.
  intros pts knots.
  apply (evaluateBSpline_translate pts (mkPt 1 1) 2 (Q2Qc (1 # 3)) knots).
  - reflexivity.
  - apply (validateKnots_true knots 4 2). reflexivity.
  - apply Qc_leb_le. reflexivity.
  - apply Qc_ltb_lt. reflexivity.
Defined.

(** X18. The basis at the final knot, over exact arithmetic.  On a
    non-decreasing vector of [length(points) + degree + 1] finite knots, for
    a degree of at least one, whose last two knots coincide (every clamped
    vector), all basis values at the final knot are [0]: they sum to [0]
    and a curve with finite control points is evaluated to [(0,0)] there. *)
Theorem evaluateBSpline_clamped_end (controlPoints : list (Pt jsnum)) (k : nat)
        (knots : KnotVector) :
  length knots = (length controlPoints + S k + 1)%nat ->
  nonDecreasing knots ->
  knotAt knots (length knots - 2) = knotAt knots (length knots - 1) ->
  Forall finitePoint controlPoints ->
  basisSum (length controlPoints) (S k) (knotAt knots (length knots - 1)) knots = Fin 0 /\
  value (evaluateBSpline controlPoints (S k) (knotAt knots (length knots - 1)) knots)
  = mkPt (Fin 0) (Fin 0).
Proof.
  intros Hlen Hmono Hrep Hfin.
  assert (Hbelow : forall j, (j < length knots)%nat ->
            knotAt knots j <= knotAt knots (length knots - 1))
    by (intros j Hj; apply Hmono; lia).
  split.
  - apply basisSum_final_zero; [exact Hbelow | reflexivity | exact Hrep | lia].
  - apply evaluateBSpline_final_zero;
      [exact Hbelow | reflexivity | exact Hrep | lia | exact Hfin].
Qed.

Lemma evaluateBSpline_clamped_end_witness :
  let knots := [0; 0; 0; 1; 1; 1] in
  let cps := map finite [mkPt 0 0; mkPt 1 (inZ 2); mkPt (inZ 3) (inZ 3)] in
  basisSum (length cps) 2 (knotAt knots (length knots - 1)) knots = Fin 0 /\
  value (evaluateBSpline cps 2 (knotAt knots (length knots - 1)) knots)
  = mkPt (Fin 0) (Fin 0).
Proof.
  intros knots cps. apply (evaluateBSpline_clamped_end cps 1 knots).
  - reflexivity.
  - apply (validateKnots_true knots 3 2). reflexivity.
  - reflexivity.
  - apply finite_points.
Defined.

(* ================================================================= *)
(** * The basis at the first knot of the domain *)

Section FirstKnot.

Variable knots : KnotVector.
Variable degree : nat.
Variable u : Qc.

(** The first [degree + 1] knots coincide, as in a clamped vector, [u] is
    their common value, and the next knot is larger. *)
Hypothesis knots_sorted : nonDecreasing knots.
Hypothesis clamped_start : forall j, (j <= degree)%nat -> knotAt knots j = u.
Hypothesis first_span : u < knotAt knots (degree + 1).

Lemma ratio_zero_num (den : Qc) : ratio 0 den = 0.
Proof. unfold ratio. destruct (Qc_eqb den 0); [reflexivity|]. unfold Qcdiv. ring. Qed.

Lemma ratio_same (num : Qc) : num <> 0 -> ratio num num = 1.
Proof.
  intros H. unfold ratio. rewrite (proj2 (Qc_eqb_neq num 0) H). now field.
Qed.

Lemma basis_first_knot (k i : nat) :
  (k <= degree)%nat -> (i + k + 1 < length knots)%nat ->
  basis i k u knots = if (i =? degree - k)%nat then 1 else 0.
Proof.
  revert i. induction k as [|k IH]; intros i Hk Hlen.
  - cbn [basis]. rewrite Nat.sub_0_r.
    destruct (Nat.eqb_spec i degree) as [->|Hne].
    + rewrite clamped_start by lia.
      rewrite (proj2 (Qc_leb_le u u) (Qcle_refl u)), (proj2 (Qc_ltb_lt _ _) first_span).
      reflexivity.
    + destruct (Nat.lt_ge_cases i degree) as [Hlt|Hge].
      * rewrite (clamped_start (i + 1)) by lia.
        assert (E : Qc_ltb u u = false).
        { destruct (Qc_ltb u u) eqn:E; [|reflexivity].
          apply Qc_ltb_lt in E. now apply Qclt_not_eq in E. }
        now rewrite E, andb_false_r.
      * assert (E : Qc_leb (knotAt knots i) u = false).
        { destruct (Qc_leb (knotAt knots i) u) eqn:E; [|reflexivity].
          apply Qc_leb_le in E. exfalso. apply (Qcle_not_lt _ _ E).
          apply Qclt_le_trans with (knotAt knots (degree + 1)); [exact first_span|].
          apply knots_sorted. lia. }
        now rewrite E.
  - rewrite basis_S, (IH i), (IH (i + 1)%nat) by lia.
    destruct (Nat.eqb_spec i (degree - S k)) as [Hi|Hi].
    + destruct (Nat.eqb_spec i (degree - k)); [lia|].
      destruct (Nat.eqb_spec (i + 1) (degree - k)); [|lia].
      replace (i + S k + 1)%nat with (degree + 1)%nat by lia.
      rewrite (clamped_start (i + 1)) by lia.
      rewrite ratio_same; [ring|].
      intros E. apply (Qclt_not_eq _ _ first_span).
      rewrite <- (Qcplus_0_l u), <- E. ring.
    + destruct (Nat.eqb_spec (i + 1) (degree - k)); [lia|].
      destruct (Nat.eqb_spec i (degree - k)) as [Hik|Hik]; [|ring].
      rewrite (clamped_start i) by lia.
      replace (u - u) with 0 by ring. rewrite ratio_zero_num. ring.
Qed.

End FirstKnot.

Lemma sumFrom_indicator (f : nat -> Qc) (lo len : nat) :
  sumFrom lo (S len) (fun i => f i * (if (i =? lo)%nat then 1 else 0)) = f lo.
Proof.
  cbn [sumFrom]. rewrite Nat.eqb_refl.
  rewrite (sumFrom_ext _ (fun _ => 0)).
  - rewrite sumFrom_zero. ring.
  - intros i Hi. destruct (Nat.eqb_spec i lo); [lia | ring].
Qed.

(** X19. A clamped B-spline curve starts at its first control point: on a
    non-decreasing vector of [length(points) + degree + 1] finite knots
    whose first [degree + 1] knots coincide and are smaller than the next
    knot, the basis values at [u = knots[degree]] are [1] for the first
    control point and [0] for all others, and [evaluateBSpline] returns the
    first control point. *)
Theorem evaluateBSpline_first_knot (pts : list Point) (degree : nat) (knots : KnotVector) :
  pts <> [] ->
  length knots = (length pts + degree + 1)%nat ->
  nonDecreasing knots ->
  (forall j, (j <= degree)%nat -> knotAt knots j = knotAt knots degree) ->
  knotAt knots degree < knotAt knots (degree + 1) ->
  (forall i, (i < length pts)%nat ->
     value (coxDeBoor i degree (knotAt knots degree) knots)
     = Fin (if (i =? 0)%nat then 1 else 0)) /\
  value (evaluateBSpline (map finite pts) degree (knotAt knots degree) knots)
  = finite (pointAt 0 pts 0).
Proof.
  intros Hne Hlen Hmono Hclamp Hspan.
  destruct pts as [|p0 rest]; [congruence|]. clear Hne. set (pts := p0 :: rest) in *.
  assert (Hlast : knotAt knots (length knots - 1) <> knotAt knots degree).
  { intros E. apply (Qclt_not_le _ _ Hspan). rewrite <- E. apply Hmono.
    subst pts. cbn [length] in Hlen. lia. }
  assert (Hw : forall i, (i < length pts)%nat ->
            value (coxDeBoor i degree (knotAt knots degree) knots)
            = Fin (if (i =? 0)%nat then 1 else 0)).
  { intros i Hi. rewrite coxDeBoor_basis by (lia || exact Hlast).
    rewrite (basis_first_knot knots degree (knotAt knots degree) Hmono Hclamp Hspan)
      by lia.
    now rewrite Nat.sub_diag. }
  split; [exact Hw|].
  rewrite (evaluateBSpline_sum pts degree _ knots (fun i => if (i =? 0)%nat then 1 else 0))
    by exact Hw.
  subst pts. cbn [length]. rewrite !sumFrom_indicator. now destruct (pointAt 0 (p0 :: rest) 0).
Qed.

Lemma evaluateBSpline_first_knot_witness :
  let pts := [mkPt (inZ 5) (inZ 7); mkPt 1 (inZ 2); mkPt (inZ 3) (inZ 3)] in
  let knots := [0; 0; 0; 1; 1; 1] in
  value (evaluateBSpline (map finite pts) 2 (knotAt knots 2) knots)
  = finite (pointAt 0 pts 0).
Proof.
  intros pts knots. apply (evaluateBSpline_first_knot pts 2 knots).
  - discriminate.
  - reflexivity.
  - apply (validateKnots_true knots 3 2). reflexivity.
  - intros j Hj. destruct j as [|[|[|j]]]; [reflexivity | reflexivity | reflexivity | lia].
  - apply Qc_ltb_lt. reflexivity.
Defined.

(* ================================================================= *)
(** * Sign and support of the basis functions *)

Lemma Qc_sub_nonneg (p q : Qc) : p <= q -> 0 <= q - p.
Proof. intros H. unfold Qcminus. exact (proj1 (Qcle_minus_iff p q) H). Qed.

Lemma Qc_mul_nonneg (p q : Qc) : 0 <= p -> 0 <= q -> 0 <= p * q.
Proof.
  intros Hp Hq. rewrite <- (Qcmult_0_l q). now apply Qcmult_le_compat_r.
Qed.

Lemma Qc_add_nonneg (p q : Qc) : 0 <= p -> 0 <= q -> 0 <= p + q.
Proof.
  intros Hp Hq. rewrite <- (Qcplus_0_l 0). now apply Qcplus_le_compat.
Qed.

Lemma Qc_inv_nonneg (p : Qc) : 0 <= p -> 0 <= / p.
Proof.
  intros H. unfold Qcle, Qcinv. rewrite !Q2Qc_this. apply Qinv_le_0_compat. exact H.
Qed.

Lemma ratio_nonneg (num den : Qc) : 0 <= num -> 0 <= den -> 0 <= ratio num den.
Proof.
  intros Hn Hd. unfold ratio. destruct (Qc_eqb den 0); [apply Qcle_refl|].
  unfold Qcdiv. apply Qc_mul_nonneg; [exact Hn | now apply Qc_inv_nonneg].
Qed.

Lemma basis_nonneg (knots : KnotVector) (u : Qc) (i k : nat) :
  nonDecreasing knots ->
  (i + k + 1 < length knots)%nat ->
  0 <= basis i k u knots.
Proof.
  intros Hmono. revert i. induction k as [|k IH]; intros i Hlen.
  - cbn [basis]. destruct (_ && _); [|apply Qcle_refl].
    unfold Qcle. simpl. discriminate.
  - rewrite basis_S. apply Qc_add_nonneg.
    + destruct (Qclt_le_dec u (knotAt knots i)) as [Hout | Hin].
      * rewrite (basis_support knots u Hmono i k) by (lia || now left).
        rewrite Qcmult_0_r. apply Qcle_refl.
      * apply Qc_mul_nonneg; [|apply IH; lia].
        apply ratio_nonneg; apply Qc_sub_nonneg; [exact Hin | apply Hmono; lia].
    + destruct (Qclt_le_dec u (knotAt knots (i + S k + 1))) as [Hin | Hout].
      * apply Qc_mul_nonneg; [|apply IH; lia].
        apply ratio_nonneg; apply Qc_sub_nonneg;
          [now apply Qclt_le_weak | apply Hmono; lia].
      * rewrite (basis_support knots u Hmono (i + 1) k);
          [rewrite Qcmult_0_r; apply Qcle_refl | lia |].
        right. now replace (i + 1 + k + 1)%nat with (i + S k + 1)%nat by lia.
Qed.

(** X20. On a non-decreasing knot vector every basis value away from the
    final knot is a non-negative number, and it is zero outside the span
    [knots[i] <= u < knots[i+k+1]] of its basis function (local support). *)
Theorem coxDeBoor_nonneg_support (i k : nat) (u : Qc) (knots : KnotVector) :
  nonDecreasing knots ->
  (i + k + 1 < length knots)%nat ->
  knotAt knots (length knots - 1) <> u ->
  exists q,
    value (coxDeBoor i k u knots) = Fin q /\ 0 <= q /\
    (u < knotAt knots i \/ knotAt knots (i + k + 1) <= u -> q = 0).
Proof.
  intros Hmono Hlen Hlast. exists (basis i k u knots).
  split; [now apply coxDeBoor_basis|].
  split; [now apply basis_nonneg | now apply basis_support].
Qed.

Lemma coxDeBoor_nonneg_support_witness :
  let knots := [0; 0; 0; Q2Qc (1 # 2); 1; 1; 1] in
  exists q, value (coxDeBoor 1 2 (Q2Qc (1 # 3)) knots) = Fin q /\ 0 <= q.
Proof.
  intros knots.
  destruct (coxDeBoor_nonneg_support 1 2 (Q2Qc (1 # 3)) knots) as (q & Hq & Hpos & _).
  - apply (proj2 (validateKnots_true knots 4 2 eq_refl)).
  - simpl. lia.
  - intros H. apply (f_equal this) in H. vm_compute in H. discriminate.
  - exists q. split; assumption.
Defined.

(* ================================================================= *)
(** * The derivative over uniform knots *)

Lemma inN_lt (i j : nat) : (i < j)%nat -> inN i < inN j.
Proof.
  intros H. unfold Qclt, inN, inZ. rewrite !Q2Qc_this, <- Zlt_Qlt. lia.
Qed.

Lemma inN_div_lt (i j den : nat) :
  (i < j)%nat -> (0 < den)%nat -> inN i / inN den < inN j / inN den.
Proof.
  intros H Hden. unfold Qcdiv. apply Qcmult_lt_compat_r; [|now apply inN_lt].
  unfold Qclt, Qcinv. rewrite !Q2Qc_this. apply Qinv_lt_0_compat.
  change (0 < inN den). rewrite <- inN_0. now apply inN_lt.
Qed.

Lemma bsplineDerivative_safe (controlPoints : list (Pt jsnum)) (d : nat) (u : Qc)
      (knots : KnotVector) :
  (forall i, (i < length controlPoints - 1)%nat ->
     jlt (get knots (Z.of_nat i + 1))
         (get knots (Z.of_nat i + Z.of_nat (S d) + 1)) = true) ->
  (length controlPoints + S d + 1 <= length knots)%nat ->
  Forall finitePoint controlPoints ->
  Forall nonzeroDivisor (divisors (bsplineDerivative controlPoints (S d) u knots)) /\
  finitePoint (value (bsplineDerivative controlPoints (S d) u knots)).
Proof.
  intros Hpre Hlen Hfin.
  assert (Hdiv : forall i, (i < length controlPoints - 1)%nat ->
            exists dv, derivativeDivisor (S d) knots i = Fin dv /\ dv <> 0)
    by (intros i Hi; apply derivativeDivisor_increasing, Hpre, Hi).
  split.
  - rewrite bsplineDerivative_divisors. apply Forall_app. split.
    + apply Forall_forall. intros dv Hdv. apply in_map_iff in Hdv.
      destruct Hdv as (i & <- & Hi). apply in_seq in Hi.
      destruct (Hdiv i ltac:(lia)) as (dv & -> & Hnz).
      intros E. injection E as E. contradiction.
    + apply evaluateBSpline_divisors.
  - rewrite bsplineDerivative_S, value_tbind. cbn [value fst].
    apply evaluateBSpline_finite.
    + unfold derivativeControlPoints. apply Forall_forall.
      intros p Hp. apply in_map_iff in Hp. destruct Hp as (i & <- & Hi).
      apply in_seq in Hi. destruct (Hdiv i ltac:(lia)) as (dv & Hdv & Hnz).
      destruct (pointAt_finite controlPoints i Hfin ltac:(lia)) as (ax & ay & Ha).
      destruct (pointAt_finite controlPoints (i + 1) Hfin ltac:(lia)) as (bx & by_ & Hb).
      unfold derivativeControlPoint. rewrite Hdv, Ha, Hb.
      rewrite jquot_finite by assumption. cbn. eexists; eexists; reflexivity.
    + intros i Hi. unfold derivativeControlPoints in Hi.
      rewrite length_map, length_seq in Hi.
      apply coxDeBoor_finite. rewrite interiorKnots_length. lia.
Qed.

(** X21. The uniform knot vector meets the precondition of the
    derivative: for a degree [d+1 >= 1] below the number of control points,
    [bsplineDerivative] over [generateUniformKnots(n, degree)] never divides
    by zero and returns a finite vector, at every parameter. *)
Theorem bsplineDerivative_uniformKnots (pts : list Point) (d : nat) (u : Qc) :
  (S d < length pts)%nat ->
  Forall nonzeroDivisor
    (divisors (bsplineDerivative (map finite pts) (S d) u
                                 (generateUniformKnots (length pts) (S d)))) /\
  finitePoint
    (value (bsplineDerivative (map finite pts) (S d) u
                              (generateUniformKnots (length pts) (S d)))).
Proof.
  intros Hdeg. set (n := length pts). set (knots := generateUniformKnots n (S d)).
  assert (Hlen : length knots = (n + S d + 1)%nat).
  { subst knots. rewrite generateUniformKnots_parts, !length_app, !repeat_length,
      length_map, length_seq. lia. }
  assert (Hnth : forall j, (j < n + S d + 1)%nat ->
            nth_error knots j
            = Some (inN (Nat.min (j - S d) (n - S d)) / inN (n - S d))).
  { intros j Hj. subst knots. rewrite generateUniformKnots_closed by exact Hdeg.
    now apply (nth_error_map_seq
                 (fun j => inN (Nat.min (j - S d) (n - S d)) / inN (n - S d))). }
  apply bsplineDerivative_safe.
  - rewrite length_map. fold n. intros i Hi.
    replace (Z.of_nat i + Z.of_nat (S d) + 1)%Z with (Z.of_nat (i + S d + 1)) by lia.
    rewrite get_nat_succ, get_nat, !Hnth by lia. cbn [jlt].
    apply Qc_ltb_lt. apply inN_div_lt; lia.
  - rewrite length_map. fold n. lia.
  - apply finite_points.
Qed.

Lemma bsplineDerivative_uniformKnots_witness :
  let pts := [mkPt 0 0; mkPt 1 (inZ 2); mkPt (inZ 3) (inZ 3); mkPt (inZ 4) 0] in
  (S 1 < length pts)%nat /\
  finitePoint
    (value (bsplineDerivative (map finite pts) 2 (Q2Qc (1 # 2))
                              (generateUniformKnots (length pts) 2))).
Proof.
  intros pts. split; [simpl; lia|].
  apply (bsplineDerivative_uniformKnots pts 1 (Q2Qc (1 # 2))). simpl; lia.
Defined.

(* ================================================================= *)
(** * Sampling a Hermite or a Bezier curve *)

Lemma sample_quotient (numPoints i : nat) :
  (1 <= numPoints)%nat ->
  jquot (Fin (inN i)) (Fin (inN numPoints)) = Fin (inN i / inN numPoints).
Proof.
  intros H. destruct numPoints as [|m]; [lia|]. apply jquot_finite, inN_S_neq0.
Qed.

Lemma sample_quotient_zero (i : nat) : jquot (Fin (inN i)) (Fin (inN 0)) = None.
Proof.
  unfold jquot, Fin. rewrite inN_0. now rewrite (proj2 (Qc_eqb_eq 0 0) eq_refl).
Qed.

Lemma sample_first (numPoints : nat) : inN 0 / inN numPoints = 0.
Proof. rewrite inN_0. unfold Qcdiv. ring. Qed.

Lemma evaluateHermiteAt_finite (form : HermiteForm) (u : Qc) :
  evaluateHermiteAt form (Fin u) = finite (evaluateHermite form u).
Proof. reflexivity. Qed.

(** X22. [generateHermiteCurvePoints(form, numPoints)] returns
    [numPoints + 1] points.  For [numPoints >= 1] sample [i] is the curve
    at [i / numPoints], so the first sample is [P0] and the last is [P1];
    for [numPoints = 0] the parameter is [0/0] and the single sample has
    non-finite coordinates. *)
Theorem generateHermiteCurvePoints_samples (form : HermiteForm) (numPoints : nat) :
  length (generateHermiteCurvePoints form numPoints) = (numPoints + 1)%nat /\
  ((1 <= numPoints)%nat ->
   generateHermiteCurvePoints form numPoints
   = map (fun i => finite (evaluateHermite form (inN i / inN numPoints)))
         (seq 0 (numPoints + 1)) /\
   nth 0 (generateHermiteCurvePoints form numPoints) (mkPt None None)
   = finite (P0 form) /\
   nth numPoints (generateHermiteCurvePoints form numPoints) (mkPt None None)
   = finite (P1 form)) /\
  generateHermiteCurvePoints form 0 = [mkPt None None].
Proof.
  unfold generateHermiteCurvePoints.
  split; [now rewrite pushLoop_length, Nat.sub_0_r|].
  rewrite !pushLoop_map, !Nat.sub_0_r.
  split; [|reflexivity].
  intros Hn.
  assert (Hmap : map (fun i => evaluateHermiteAt form
                                 (jquot (Fin (inN i)) (Fin (inN numPoints))))
                     (seq 0 (numPoints + 1))
                 = map (fun i => finite (evaluateHermite form (inN i / inN numPoints)))
                       (seq 0 (numPoints + 1))).
  { apply map_ext. intros i. now rewrite sample_quotient by exact Hn. }
  rewrite Hmap. split; [reflexivity|]. split.
  - rewrite nth_map_seq by lia. now rewrite sample_first, evaluateHermite_at_0.
  - rewrite nth_map_seq by lia. now rewrite inN_div_self, evaluateHermite_at_1 by lia.
Qed.

Lemma generateHermiteCurvePoints_samples_witness :
  let form := mkHermite (mkPt 0 0) (mkPt 1 1) (mkPt 1 0) (mkPt 0 1) in
  (1 <= 4)%nat /\
  nth 4 (generateHermiteCurvePoints form 4) (mkPt None None) = finite (P1 form).
Proof.
  intros form. split; [lia|].
  apply (generateHermiteCurvePoints_samples form 4). lia.
Defined.

Lemma bernsteinAt_finite (i n : Z) (u : Qc) :
  bernsteinAt i n (Fin u) = Fin (bernstein i n u).
Proof.
  unfold bernsteinAt, bernstein. destruct (_ || _); reflexivity.
Qed.

Lemma evaluateBezierAt_loop (points : list Point) (n : Z) (u : Qc) (idxs : list nat)
      (acc : Qc * Qc) :
  fold_left (fun (xy : jsnum * jsnum) i =>
               let basis := bernsteinAt (Z.of_nat i) n (Fin u) in
               (jadd (fst xy) (jmul (Fin (x (pointAt 0 points i))) basis),
                jadd (snd xy) (jmul (Fin (y (pointAt 0 points i))) basis)))
            idxs (Fin (fst acc), Fin (snd acc))
  = (let xy := fold_left (fun (xy : Qc * Qc) i =>
                 let basis := bernstein (Z.of_nat i) n u in
                 (fst xy + x (pointAt 0 points i) * basis,
                  snd xy + y (pointAt 0 points i) * basis)) idxs acc in
     (Fin (fst xy), Fin (snd xy))).
Proof.
  revert acc. induction idxs as [|i idxs IH]; intros acc; [reflexivity|].
  cbn [fold_left]. rewrite bernsteinAt_finite. cbn [fst snd].
  exact (IH (fst acc + x (pointAt 0 points i) * bernstein (Z.of_nat i) n u,
             snd acc + y (pointAt 0 points i) * bernstein (Z.of_nat i) n u)).
Qed.

Lemma evaluateBezierAt_finite (points : list Point) (u : Qc) :
  evaluateBezierAt points (Fin u) = finite (evaluateBezier points u).
Proof.
  unfold evaluateBezierAt, evaluateBezier.
  rewrite (evaluateBezierAt_loop points _ u _ (0, 0)). reflexivity.
Qed.

Lemma evaluateBezierAt_lost (points : list Point) (n : Z) (idxs : list nat) :
  fold_left (fun (xy : jsnum * jsnum) i =>
               let basis := bernsteinAt (Z.of_nat i) n None in
               (jadd (fst xy) (jmul (Fin (x (pointAt 0 points i))) basis),
                jadd (snd xy) (jmul (Fin (y (pointAt 0 points i))) basis)))
            idxs (None, None)
  = (None, None).
Proof.
  induction idxs as [|i idxs IH]; [reflexivity|]. cbn [fold_left fst snd jadd jlift2].
  exact IH.
Qed.

Lemma bernsteinAt_0_nan (n : Z) : (1 <= n)%Z -> bernsteinAt 0 n None = None.
Proof.
  intros Hn. unfold bernsteinAt.
  destruct (Z.ltb_spec 0 0); [lia|]. destruct (Z.gtb_spec 0 n); [lia|]. cbn [orb].
  unfold jpow, jsub, jlift2, Fin.
  destruct (Z.eqb_spec (n - 0) 0); [lia | reflexivity].
Qed.

(** X23. [generateBezierCurvePoints(points, numPoints)] returns
    [numPoints + 1] points.  For [numPoints >= 1] sample [i] is
    [evaluateBezier(points, i / numPoints)], so on a non-empty polygon the
    first sample is the first control point and the last sample the last
    one; for [numPoints = 0] the parameter is [0/0] and, on a polygon of
    two or more points, the single sample has non-finite coordinates. *)
Theorem generateBezierCurvePoints_samples (points : list Point) (numPoints : nat) :
  length (generateBezierCurvePoints points numPoints) = (numPoints + 1)%nat /\
  ((1 <= numPoints)%nat ->
   generateBezierCurvePoints points numPoints
   = map (fun i => finite (evaluateBezier points (inN i / inN numPoints)))
         (seq 0 (numPoints + 1)) /\
   (points <> [] ->
    nth 0 (generateBezierCurvePoints points numPoints) (mkPt None None)
    = finite (pointAt 0 points 0) /\
    nth numPoints (generateBezierCurvePoints points numPoints) (mkPt None None)
    = finite (pointAt 0 points (length points - 1)))) /\
  ((2 <= length points)%nat -> generateBezierCurvePoints points 0 = [mkPt None None]).
Proof.
  unfold generateBezierCurvePoints.
  split; [now rewrite pushLoop_length, Nat.sub_0_r|]. split.
  - intros Hn. rewrite pushLoop_map, Nat.sub_0_r.
    assert (Hmap : map (fun i => evaluateBezierAt points
                                   (jquot (Fin (inN i)) (Fin (inN numPoints))))
                       (seq 0 (numPoints + 1))
                   = map (fun i => finite (evaluateBezier points (inN i / inN numPoints)))
                         (seq 0 (numPoints + 1))).
    { apply map_ext. intros i.
      now rewrite sample_quotient, evaluateBezierAt_finite by exact Hn. }
    rewrite Hmap. split; [reflexivity|]. intros Hne. split.
    + rewrite nth_map_seq by lia. now rewrite sample_first, evaluateBezier_at_0.
    + rewrite nth_map_seq by lia. rewrite inN_div_self by lia.
      now rewrite evaluateBezier_at_1.
  - intros Hlen. rewrite pushLoop_map. cbn [Nat.add Nat.sub seq map].
    rewrite sample_quotient_zero. unfold evaluateBezierAt.
    destruct points as [|p0 [|p1 rest]]; cbn [length] in Hlen; try lia.
    cbn [length].
    replace (Z.to_nat (Z.of_nat (S (S (length rest))) - 1 + 1))
      with (S (S (length rest))) by lia.
    cbn [seq fold_left Z.of_nat]. rewrite bernsteinAt_0_nan by lia.
    match goal with
    | |- context [fold_left ?F ?l ?acc] =>
        change (fold_left F l acc) with (fold_left F l (@None Qc, @None Qc))
    end.
    now rewrite evaluateBezierAt_lost.
Qed.

Lemma generateBezierCurvePoints_samples_witness :
  let points := [mkPt 0 0; mkPt 1 (inZ 2); mkPt (inZ 3) (inZ 3); mkPt (inZ 4) 0] in
  (1 <= 10)%nat /\ points <> [] /\
  nth 10 (generateBezierCurvePoints points 10) (mkPt None None)
  = finite (pointAt 0 points (length points - 1)).
Proof.
  intros points. split; [lia|]. split; [discriminate|].
  destruct (generateBezierCurvePoints_samples points 10) as (_ & H & _).
  apply (H ltac:(lia)). discriminate.
Defined.

(* ================================================================= *)
(** * Sampling a B-spline curve and its basis *)

Lemma coxDeBoorAt_finite (i k : nat) (u : Qc) (knots : KnotVector) :
  coxDeBoorAt i k (Fin u) knots = coxDeBoor i k u knots.
Proof.
  revert i. induction k as [|k IH]; intros i; [reflexivity|].
  cbn [coxDeBoorAt coxDeBoor]. now rewrite !IH.
Qed.


Lemma forEach_push2 {A B : Type} (idxs : list nat) (first : nat -> traced A)
      (second : nat -> A -> traced B) (acc : list B) :
  forEach idxs (fun i out => let* v := first i in
                             let* w := second i v in tret (out ++ [w])) acc
  = (acc ++ map (fun i => value (second i (value (first i)))) idxs,
     concat (map (fun i => divisors (first i) ++ divisors (second i (value (first i))))
                 idxs)).
Proof.
  revert acc. induction idxs as [|i idxs IH]; intros acc.
  - cbn. now rewrite app_nil_r.
  - cbn [forEach map concat]. unfold tbind at 1. rewrite IH.
    unfold tbind, tret, value, divisors. cbn [fst snd].
    now rewrite <- app_assoc, app_nil_r.
Qed.

Lemma sampleParameter_finite (degree : nat) (knots : KnotVector) (numPoints i : nat) :
  (degree < length knots)%nat -> (1 <= numPoints)%nat ->
  sampleParameter degree knots numPoints i
  = (Fin (sampleAt degree knots numPoints i), [Fin (inN numPoints)]).
Proof.
  intros Hlen Hn. unfold sampleParameter, sampleAt.
  replace (Z.of_nat (length knots) - Z.of_nat degree - 1)%Z
    with (Z.of_nat (length knots - degree - 1)) by lia.
  rewrite !get_knotAt by lia.
  unfold tbind, jdiv, tret, value, divisors. cbn [fst snd app].
  now rewrite sample_quotient by exact Hn.
Qed.






Lemma Qc_sub_pos (p q : Qc) : p < q -> 0 < q - p.
Proof. intros H. unfold Qcminus. exact (proj1 (Qclt_minus_iff p q) H). Qed.

Lemma sampleAt_range (degree : nat) (knots : KnotVector) (numPoints i : nat) :
  knotAt knots degree < knotAt knots (length knots - degree - 1) ->
  (i < numPoints)%nat ->
  knotAt knots degree <= sampleAt degree knots numPoints i /\
  sampleAt degree knots numPoints i < knotAt knots (length knots - degree - 1).
Proof.
  intros Hdom Hi. unfold sampleAt.
  set (s := knotAt knots degree) in *.
  set (e := knotAt knots (length knots - degree - 1)) in *.
  set (r := inN i / inN numPoints).
  assert (Hr0 : 0 <= r).
  { subst r. rewrite <- (sample_first numPoints). apply inN_div_le. lia. }
  assert (Hr1 : r < 1).
  { subst r. rewrite <- (inN_div_self numPoints) by lia. apply inN_div_lt; lia. }
  pose proof (Qc_sub_pos _ _ Hdom) as Hes. pose proof (Qc_sub_pos _ _ Hr1) as H1r.
  split.
  - rewrite <- (Qcplus_0_r s) at 1. apply Qcplus_le_compat; [apply Qcle_refl|].
    apply Qc_mul_nonneg; [exact Hr0 | now apply Qclt_le_weak].
  - apply Qclt_minus_iff.
    replace (e + - (s + r * (e - s))) with ((1 - r) * (e - s)) by ring.
    rewrite <- (Qcmult_0_l (e - s)). now apply Qcmult_lt_compat_r.
Qed.

Lemma calculateBasisFunctions_finite (n degree : nat) (knots : KnotVector)
      (numPoints : nat) :
  (degree < length knots)%nat -> (1 <= numPoints)%nat ->
  value (calculateBasisFunctions n degree knots numPoints)
  = map (fun i => map (fun j => value (coxDeBoor i degree
                                       (sampleAt degree knots numPoints j) knots))
                      (seq 0 (numPoints + 1)))
        (seq 0 n).
Proof.
  intros Hlen Hn. unfold calculateBasisFunctions, forLoop.
  rewrite forEach_push. replace (n - 0)%nat with n by lia.
  cbn [app]. apply map_ext. intros i.
  rewrite forEach_push2. replace (numPoints + 1 - 0)%nat with (numPoints + 1)%nat by lia.
  cbn [value fst app]. apply map_ext. intros j.
  rewrite sampleParameter_finite by assumption. cbn [value fst].
  now rewrite coxDeBoorAt_finite.
Qed.

Lemma columnSum_rows (rowOf : nat -> list jsnum) (j : nat) (idxs : list nat) (acc : jsnum) :
  fold_left (fun s row => jadd s (nth j row None)) (map rowOf idxs) acc
  = fold_left (fun s i => jadd s (nth j (rowOf i) None)) idxs acc.
Proof.
  revert acc. induction idxs as [|i idxs IH]; intros acc; [reflexivity|].
  cbn [map fold_left]. apply IH.
Qed.

Lemma fold_left_ext_in {A B : Type} (f g : A -> B -> A) (l : list B) (acc : A) :
  (forall s b, In b l -> f s b = g s b) -> fold_left f l acc = fold_left g l acc.
Proof.
  revert acc. induction l as [|b l IH]; intros acc H; [reflexivity|].
  cbn [fold_left]. rewrite H by now left.
  apply IH. intros s b' Hb. apply H. now right.
Qed.

(** X25. The table of [calculateBasisFunctions], over exact arithmetic.
    On a non-decreasing vector of [n + degree + 1] finite knots whose domain
    is not empty ([knots[degree] < knots[length-degree-1]]), for
    [numPoints >= 1], the result has one row per control point and
    [numPoints + 1] values per row; every value of a sample before the last
    is a non-negative number, and the values of each such sample sum to one
    over the control points. *)
Theorem calculateBasisFunctions_table (n degree : nat) (knots : KnotVector)
        (numPoints : nat) :
  length knots = (n + degree + 1)%nat ->
  nonDecreasing knots ->
  knotAt knots degree < knotAt knots (length knots - degree - 1) ->
  (1 <= numPoints)%nat ->
  let table := value (calculateBasisFunctions n degree knots numPoints) in
  length table = n /\
  (forall row, In row table -> length row = (numPoints + 1)%nat) /\
  (forall i j, (i < n)%nat -> (j < numPoints)%nat ->
     exists q, nth j (nth i table []) None = Fin q /\ 0 <= q) /\
  (forall j, (j < numPoints)%nat -> columnSum table j = Fin 1).
Proof.
  intros Hlen Hmono Hdom Hn table.
  pose proof (validateKnots_complete knots n degree Hlen Hmono) as Hvalid.
  assert (Htab : table
            = map (fun i => map (fun j => value (coxDeBoor i degree
                                             (sampleAt degree knots numPoints j) knots))
                                (seq 0 (numPoints + 1)))
                  (seq 0 n))
    by (subst table; apply calculateBasisFunctions_finite; lia).
  assert (Hlast : forall j, (j < numPoints)%nat ->
            knotAt knots (length knots - 1) <> sampleAt degree knots numPoints j).
  { intros j Hj E. destruct (sampleAt_range degree knots numPoints j Hdom Hj) as [_ Hhi].
    apply (Qclt_not_le _ _ Hhi). rewrite <- E. apply Hmono. lia. }
  split; [now rewrite Htab, length_map, length_seq|]. split; [|split].
  - intros row Hrow. rewrite Htab in Hrow. apply in_map_iff in Hrow.
    destruct Hrow as (i & <- & _). now rewrite length_map, length_seq.
  - intros i j Hi Hj. rewrite Htab, (nth_map_seq _ n i []) by lia. cbv beta.
    exists (basis i degree (sampleAt degree knots numPoints j) knots). split.
    + rewrite (@nth_map_seq jsnum _ (numPoints + 1) j None) by lia.
      apply coxDeBoor_basis; [lia | now apply Hlast].
    + apply basis_nonneg; [exact Hmono | lia].
  - intros j Hj. unfold columnSum. rewrite Htab, columnSum_rows.
    destruct (sampleAt_range degree knots numPoints j Hdom Hj) as [Hlo Hhi].
    rewrite <- (basisSum_inside_domain n degree (sampleAt degree knots numPoints j) knots
                  Hvalid Hlo Hhi).
    unfold basisSum. apply fold_left_ext_in. intros s i Hi. cbv beta.
    now rewrite (@nth_map_seq jsnum _ (numPoints + 1) j None) by lia.
Qed.

Lemma calculateBasisFunctions_table_witness :
  let knots := [0; 0; 0; Q2Qc (1 # 2); 1; 1; 1] in
  columnSum (value (calculateBasisFunctions 4 2 knots 4)) 1 = Fin 1.
Proof.
  intros knots.
  destruct (calculateBasisFunctions_table 4 2 knots 4) as (_ & _ & _ & Hsum).
  - reflexivity.
  - apply (validateKnots_true knots 4 2). reflexivity.
  - apply Qc_ltb_lt. reflexivity.
  - lia.
  - apply Hsum. lia.
Defined.
